(** * Malicious-URL-Scanner: the storage engine and the client filter

    A shallow embedding of the Python sources
      - server/server_core/memtable.py      (module [memtable])
      - server/server_core/idx_reader.py    (module [idx_reader])
      - server/server_core/idx_builder.py   (module [idx_builder])
      - server/server_main.py               (module [server_main])
      - client/client_core/bloomfilter.py   (module [bloomfilter])
    and the properties of the specification that are settled on them.

    Python objects live in an explicit object store: a [Node] is a record
    of mutable fields addressed by a reference, [None] is the absent
    reference, and every method is a computation in a state and exception
    monad over the object it mutates.  Loops carry a fuel argument; the
    entry points compute a fuel that is shown to be enough. *)

From Stdlib Require Import ZArith List Bool Lia Strings.Byte String Floats.
From Stdlib Require Import QArith Qround Qpower.
From stdpp Require Import base option list gmap sorting.

Set Default Proof Using "Type".
Open Scope Z_scope.

(** ** Byte strings and their order *)

(** Python [bytes]: a sequence of 8-bit values. *)
Abbreviation bytes := (list byte).

Module Bytes.

(** [a == b] on [bytes]. *)
Fixpoint eqb (a b : bytes) : bool :=
  match a, b with
  | [], [] => true
  | x :: a', y :: b' => Byte.eqb x y && eqb a' b'
  | _, _ => false
  end.

(** [a < b] on [bytes]: lexicographic on the unsigned byte values, a
    proper prefix being smaller. *)
Fixpoint ltb (a b : bytes) : bool :=
  match a, b with
  | _, [] => false
  | [], _ :: _ => true
  | x :: a', y :: b' =>
      if (Byte.to_N x <? Byte.to_N y)%N then true
      else if (Byte.to_N x =? Byte.to_N y)%N then ltb a' b'
      else false
  end.

(** [a <= b], [a > b], [a >= b]. *)
Definition leb (a b : bytes) : bool := negb (ltb b a).
Definition gtb (a b : bytes) : bool := ltb b a.
Definition geb (a b : bytes) : bool := negb (ltb a b).

Definition lt (a b : bytes) : Prop := ltb a b = true.
Definition le (a b : bytes) : Prop := leb a b = true.

(** [len(data)]. *)
Definition len (data : bytes) : Z := Z.of_nat (length data).

(** A slice bound as Python resolves it: a negative bound counts from the
    end, and the result is clamped to [0 .. len]. *)
Definition clamp (n i : Z) : Z :=
  Z.max 0 (Z.min n (if i <? 0 then i + n else i)).

(** [data[start:stop]]. *)
Definition slice (data : bytes) (start stop : Z) : bytes :=
  let a := clamp (len data) start in
  let b := clamp (len data) stop in
  take (Z.to_nat (b - a)) (drop (Z.to_nat a) data).

(** [data[:stop]]. *)
Definition prefix (data : bytes) (stop : Z) : bytes := slice data 0 stop.

(** [data[0]] as an [int]. *)
Definition first (data : bytes) : option Z :=
  match data with
  | [] => None
  | b :: _ => Some (Z.of_N (Byte.to_N b))
  end.

End Bytes.

#[global] Instance byte_eq_dec : EqDecision byte := Byte.byte_eq_dec.

Infix "<?b" := Bytes.ltb (at level 65, no associativity).
Infix "<=?b" := Bytes.leb (at level 65, no associativity).
Infix "=?b" := Bytes.eqb (at level 65, no associativity).

(** ** Exceptions and the state monad *)

(** The Python exceptions the modelled code can raise. *)
Inductive exn : Set :=
| AttributeError      (* attribute access on [None] *)
| UnboundLocalError   (* a subclass of NameError: local read before assignment *)
| TypeError           (* ordering [bytes] against [None]; missing argument *)
| IndexError          (* list or bytes index out of range *)
| ZeroDivisionError
| ValueError
| OverflowError
| FileNotFoundError.

(** [UnboundLocalError] derives from [NameError]. *)
Definition is_NameError (e : exn) : bool :=
  match e with UnboundLocalError => true | _ => false end.

(** Outcome of running a method on a state [S]: a value, an unhandled
    exception, or [Stuck] when the fuel of a loop ran out or a reference
    is not in the store (neither happens on well-formed states, which is
    proved below for every method a claim relies on). *)
Inductive outcome (S A : Type) : Type :=
| Ok (a : A) (s : S)
| Raise (e : exn) (s : S)
| Stuck.
Arguments Ok {S A} a s.
Arguments Raise {S A} e s.
Arguments Stuck {S A}.

Definition M (S A : Type) : Type := S → outcome S A.

Definition ret {S A} (a : A) : M S A := λ s, Ok a s.
Definition raise {S A} (e : exn) : M S A := λ s, Raise e s.
Definition stuck {S A} : M S A := λ _, Stuck.
Definition bind {S A B} (m : M S A) (k : A → M S B) : M S B :=
  λ s, match m s with
       | Ok a s' => k a s'
       | Raise e s' => Raise e s'
       | Stuck => Stuck
       end.

Definition get_state {S} : M S S := λ s, Ok s s.

#[global] Instance M_ret {S} : MRet (M S) := λ A, @ret S A.
#[global] Instance M_bind {S} : MBind (M S) := λ A B k m, @bind S A B m k.

(** ** memtable.py *)

Module memtable.

(** An object reference; [None] is Python's [None]. *)
Abbreviation ref := nat.
Abbreviation pyobj := (option ref).

(** [class Node]: five mutable fields. *)
Record Node : Set := mkNode {
  parent : pyobj;
  left : pyobj;
  right : pyobj;
  red : bool;
  key : option bytes;
}.

(** [class MemTable]: the fields [root] and [elements], together with the
    store of the [Node] objects reachable from them and the next unused
    reference. *)
Record MemTable : Type := mkMemTable {
  heap : gmap nat Node;
  next : nat;
  root : pyobj;
  elements : Z;
}.

(** [MemTable.NIL = Node(False, None, None, None)], the shared sentinel.
    Its [parent] field is written by the rotations and read by no
    method, so every memtable carries the sentinel in its own store. *)
Definition NIL_ref : ref := 0%nat.
Definition NIL : pyobj := Some NIL_ref.
Definition NIL_node : Node := mkNode None None None false None.

Abbreviation Mt := (M MemTable).

(** *** Attribute access *)

Definition load (o : pyobj) : Mt Node := λ s,
  match o with
  | None => Raise AttributeError s
  | Some r => match heap s !! r with
              | Some n => Ok n s
              | None => Stuck
              end
  end.

Definition store (o : pyobj) (f : Node → Node) : Mt unit := λ s,
  match o with
  | None => Raise AttributeError s
  | Some r => match heap s !! r with
              | Some n => Ok tt (mkMemTable (<[r := f n]> (heap s)) (next s)
                                            (root s) (elements s))
              | None => Stuck
              end
  end.

Definition get_parent (o : pyobj) : Mt pyobj := n ← load o; mret (parent n).
Definition get_left (o : pyobj) : Mt pyobj := n ← load o; mret (left n).
Definition get_right (o : pyobj) : Mt pyobj := n ← load o; mret (right n).
Definition get_red (o : pyobj) : Mt bool := n ← load o; mret (red n).
Definition get_key (o : pyobj) : Mt (option bytes) := n ← load o; mret (key n).

Definition set_parent (o v : pyobj) : Mt unit :=
  store o (λ n, mkNode v (left n) (right n) (red n) (key n)).
Definition set_left (o v : pyobj) : Mt unit :=
  store o (λ n, mkNode (parent n) v (right n) (red n) (key n)).
Definition set_right (o v : pyobj) : Mt unit :=
  store o (λ n, mkNode (parent n) (left n) v (red n) (key n)).
Definition set_red (o : pyobj) (v : bool) : Mt unit :=
  store o (λ n, mkNode (parent n) (left n) (right n) v (key n)).
Definition set_key (o : pyobj) (v : option bytes) : Mt unit :=
  store o (λ n, mkNode (parent n) (left n) (right n) (red n) v).

Definition get_root : Mt pyobj := λ s, Ok (root s) s.
Definition set_root (v : pyobj) : Mt unit := λ s,
  Ok tt (mkMemTable (heap s) (next s) v (elements s)).
Definition get_elements : Mt Z := λ s, Ok (elements s) s.
Definition set_elements (v : Z) : Mt unit := λ s,
  Ok tt (mkMemTable (heap s) (next s) (root s) v).

(** [Node(red, parent, left, right)]: a fresh object whose [key] is
    [None]. *)
Definition new_Node (c : bool) (p l r : pyobj) : Mt pyobj := λ s,
  Ok (Some (next s))
     (mkMemTable (<[next s := mkNode p l r c None]> (heap s)) (S (next s))
                 (root s) (elements s)).

(** [key == other] and [key < other] where [other] is a [key] field:
    equality with [None] is [False], ordering against [None] raises. *)
Definition py_eq (a : bytes) (b : option bytes) : bool :=
  match b with Some b => a =?b b | None => false end.
Definition py_lt (a : bytes) (b : option bytes) : Mt bool :=
  match b with Some b => mret (a <?b b) | None => raise TypeError end.
Definition py_gt (a : option bytes) (b : bytes) : Mt bool :=
  match a with Some a => mret (b <?b a) | None => raise TypeError end.
Definition py_le (a : bytes) (b : option bytes) : Mt bool :=
  match b with Some b => mret (a <=?b b) | None => raise TypeError end.
Definition py_le' (a : option bytes) (b : bytes) : Mt bool :=
  match a with Some a => mret (a <=?b b) | None => raise TypeError end.
Definition py_lt' (a : option bytes) (b : bytes) : Mt bool :=
  match a with Some a => mret (a <?b b) | None => raise TypeError end.

(** [MemTable()]. *)
Definition new_MemTable : MemTable :=
  mkMemTable {[ NIL_ref := NIL_node ]} 1%nat NIL 0.

(** *** Helper functions *)

Definition right_rotate (node : pyobj) : Mt unit :=
  new_parent ← get_left node;
  self_root ← get_root;
  (if decide (node ≠ self_root) then
     np ← get_parent node;
     npl ← get_left np;
     (if decide (node = npl) then set_left np new_parent
      else set_right np new_parent);;
     np' ← get_parent node;
     set_parent new_parent np'
   else
     set_root new_parent;;
     set_parent new_parent None);;
  set_parent node new_parent;;
  npr ← get_right new_parent;
  set_left node npr;;
  npr' ← get_right new_parent;
  set_parent npr' node;;
  set_right new_parent node.

Definition left_rotate (node : pyobj) : Mt unit :=
  new_parent ← get_right node;
  self_root ← get_root;
  (if decide (node ≠ self_root) then
     np ← get_parent node;
     npl ← get_left np;
     (if decide (node = npl) then set_left np new_parent
      else set_right np new_parent);;
     np' ← get_parent node;
     set_parent new_parent np'
   else
     set_root new_parent;;
     set_parent new_parent None);;
  set_parent node new_parent;;
  npl ← get_left new_parent;
  set_right node npl;;
  npl' ← get_left new_parent;
  set_parent npl' node;;
  set_left new_parent node.

(** [node_successor]: the body of the [while] loop reads the local
    [current] before any assignment to it, so entering the loop raises
    [UnboundLocalError]; the loop is entered exactly when the right
    child has a non-NIL left child. *)
Definition node_successor (node : pyobj) : Mt pyobj :=
  node ← get_right node;
  nl ← get_left node;
  if decide (nl ≠ NIL) then raise UnboundLocalError
  else mret node.

Definition delete_node (node : pyobj) : Mt unit :=
  np ← get_parent node;
  npl ← get_left np;
  if decide (node = npl) then np' ← get_parent node; set_left np' NIL
  else np' ← get_parent node; set_right np' NIL.

(** *** Core functions *)

Fixpoint fix_insert (fuel : nat) (node : pyobj) : Mt unit :=
  match fuel with
  | O => stuck
  | S fuel =>
    self_root ← get_root;
    continue ← (if decide (node ≠ self_root)
                then np ← get_parent node; get_red np
                else mret false);
    if continue : bool then
      np ← get_parent node;
      grandparent ← get_parent np;
      np ← get_parent node;
      gl ← get_left grandparent;
      if decide (np = gl) then
        (* Parent is a left child *)
        uncle ← get_right grandparent;
        uncle_red ← get_red uncle;
        if uncle_red : bool then
          np ← get_parent node; set_red np false;;
          uncle ← get_right grandparent; set_red uncle false;;
          set_red grandparent true;;
          fix_insert fuel grandparent
        else
          np ← get_parent node;
          npr ← get_right np;
          node ← (if decide (node = npr) then
                    node ← get_parent node;
                    left_rotate node;;
                    mret node
                  else mret node);
          right_rotate grandparent;;
          gred ← get_red grandparent;
          np ← get_parent node; set_red np gred;;
          set_red grandparent true;;
          fix_insert fuel node
      else
        (* Parent is a right child *)
        uncle ← get_left grandparent;
        uncle_red ← get_red uncle;
        if uncle_red : bool then
          np ← get_parent node; set_red np false;;
          uncle ← get_left grandparent; set_red uncle false;;
          set_red grandparent true;;
          fix_insert fuel grandparent
        else
          np ← get_parent node;
          npl ← get_left np;
          node ← (if decide (node = npl) then
                    node ← get_parent node;
                    right_rotate node;;
                    mret node
                  else mret node);
          left_rotate grandparent;;
          gred ← get_red grandparent;
          np ← get_parent node; set_red np gred;;
          set_red grandparent true;;
          fix_insert fuel node
    else
      r ← get_root;
      set_red r false
  end.

(** The descent of [insert]: [None] when the key is found (the method
    returns [False]), otherwise the last node visited. *)
Fixpoint insert_descend (fuel : nat) (k : bytes) (parent current : pyobj)
  : Mt (option pyobj) :=
  match fuel with
  | O => stuck
  | S fuel =>
    if decide (current ≠ NIL) then
      ck ← get_key current;
      if py_eq k ck then mret None
      else
        ck ← get_key current;
        lt ← py_lt k ck;
        next ← (if lt : bool then get_left current else get_right current);
        insert_descend fuel k current next
    else mret (Some parent)
  end.

(** The fuel of a traversal: one more than the number of objects ever
    allocated, which bounds the length of every acyclic path. *)
Definition fuel_of (s : MemTable) : nat := S (next s).
Definition get_fuel : Mt nat := λ s, Ok (fuel_of s) s.

Definition insert (k : bytes) : Mt bool :=
  n ← get_elements;
  if decide (n = 0) then
    r ← new_Node false None NIL NIL;
    set_root r;;
    r ← get_root;
    set_key r (Some k);;
    set_elements 1;;
    mret true
  else
    current ← get_root;
    fuel ← get_fuel;
    found ← insert_descend fuel k None current;
    match found with
    | None => mret false
    | Some parent =>
      new_node ← new_Node true parent NIL NIL;
      set_key new_node (Some k);;
      pk ← get_key parent;
      lt ← py_lt k pk;
      (if lt : bool then set_left parent new_node
       else set_right parent new_node);;
      fuel ← get_fuel;
      fix_insert fuel new_node;;
      n ← get_elements;
      set_elements (n + 1);;
      mret true
    end.

Fixpoint get_loop (fuel : nat) (k : bytes) (node : pyobj)
  : Mt (option bytes) :=
  match fuel with
  | O => stuck
  | S fuel =>
    if decide (node ≠ NIL) then
      nk ← get_key node;
      if py_eq k nk then get_key node
      else
        nk ← get_key node;
        lt ← py_lt k nk;
        next ← (if lt : bool then get_left node else get_right node);
        get_loop fuel k next
    else mret None
  end.

(** [get]: the key when it is in the tree, [None] otherwise. *)
Definition get (k : bytes) : Mt (option bytes) :=
  node ← get_root;
  fuel ← get_fuel;
  get_loop fuel k node.

(** [fix_double_black]: [None] stands for the [return] statements, so
    that the loop is one recursive call per iteration. *)
Fixpoint fix_double_black (fuel : nat) (node : pyobj) : Mt unit :=
  match fuel with
  | O => stuck
  | S fuel =>
    self_root ← get_root;
    if decide (node = self_root) then mret tt
    else
      parent ← get_parent node;
      pl ← get_left parent;
      sibling ← (if decide (node ≠ pl) then get_left parent
                 else get_right parent);
      sred ← get_red sibling;
      if sred : bool then
        (* sibling is red *)
        set_red parent true;;
        set_red sibling false;;
        pl ← get_left parent;
        (if decide (node = pl) then left_rotate parent
         else right_rotate parent);;
        fix_double_black fuel node
      else
        sl ← get_left sibling;
        slred ← get_red sl;
        if slred : bool then
          sr ← get_right sibling;
          srred ← get_red sr;
          if srred : bool then
            (* sibling is black, both children are red *)
            pred ← get_red parent; set_red sibling pred;;
            set_red parent false;;
            sl ← get_left sibling; set_red sl false;;
            sr ← get_right sibling; set_red sr false;;
            pl ← get_left parent;
            (if decide (node = pl) then left_rotate parent
             else right_rotate parent);;
            fix_double_black fuel node
          else
            pl ← get_left parent;
            if decide (node = pl) then
              (* only the left child is red, near the double black *)
              set_red sibling true;;
              sl ← get_left sibling; set_red sl false;;
              right_rotate sibling;;
              fix_double_black fuel node
            else
              (* only the left child is red, far from the double black *)
              pred ← get_red parent; set_red sibling pred;;
              set_red parent false;;
              sl ← get_left sibling; set_red sl false;;
              left_rotate parent
        else
          sr ← get_right sibling;
          srred ← get_red sr;
          if srred : bool then
            pr ← get_right parent;
            if decide (node = pr) then
              (* only the right child is red, near the double black *)
              set_red sibling true;;
              sr ← get_right sibling; set_red sr false;;
              left_rotate sibling;;
              fix_double_black fuel node
            else
              (* only the right child is red, far from the double black *)
              pred ← get_red parent; set_red sibling pred;;
              set_red parent false;;
              sr ← get_right sibling; set_red sr false;;
              right_rotate parent
          else
            (* black sibling with black children *)
            set_red sibling true;;
            nl ← get_left node;
            leaf ← (if decide (nl = NIL) then
                      nr ← get_right node; mret (bool_decide (nr = NIL))
                    else mret false);
            (if leaf : bool then delete_node node else mret tt);;
            pred ← get_red parent;
            if pred : bool then set_red parent false
            else fix_double_black fuel parent
  end.

Fixpoint fix_remove (fuel : nat) (node : pyobj) : Mt unit :=
  match fuel with
  | O => stuck
  | S fuel =>
    nl ← get_left node;
    two ← (if decide (nl ≠ NIL) then
             nr ← get_right node; mret (bool_decide (nr ≠ NIL))
           else mret false);
    if two : bool then
      (* node has two non-NIL children *)
      temp ← node_successor node;
      tk ← get_key temp; set_key node tk;;
      fix_remove fuel temp
    else
      nl ← get_left node;
      temp ← (if decide (nl ≠ NIL) then get_left node else get_right node);
      if decide (temp = NIL) then
        nred ← get_red node;
        if nred : bool then delete_node node
        else
          fuel' ← get_fuel;
          fix_double_black (3 * fuel') node
      else
        tk ← get_key temp; set_key node tk;;
        delete_node temp
  end.

(** The descent of [remove]: the node holding the key, or NIL. *)
Fixpoint remove_find (fuel : nat) (k : bytes) (node : pyobj) : Mt pyobj :=
  match fuel with
  | O => stuck
  | S fuel =>
    if decide (node ≠ NIL) then
      nk ← get_key node;
      if py_eq k nk then mret node
      else
        nk ← get_key node;
        lt ← py_lt k nk;
        next ← (if lt : bool then get_left node else get_right node);
        remove_find fuel k next
    else mret node
  end.

Definition remove (k : bytes) : Mt bool :=
  node ← get_root;
  fuel ← get_fuel;
  node ← remove_find fuel k node;
  if decide (node = NIL) then mret false
  else
    fuel ← get_fuel;
    fix_remove fuel node;;
    n ← get_elements;
    set_elements (n - 1);;
    mret true.

(** [range_lookup_traverse]: the [bytearray] that the recursion extends
    in place is passed through it. *)
Fixpoint range_lookup_traverse (fuel : nat) (node : pyobj)
    (lower_bound upper_bound : bytes) (results : bytes) : Mt bytes :=
  match fuel with
  | O => stuck
  | S fuel =>
    if decide (node = NIL) then mret results
    else
      nk ← get_key node;
      above ← py_gt nk lower_bound;
      results ← (if above : bool then
                   nl ← get_left node;
                   range_lookup_traverse fuel nl lower_bound upper_bound results
                 else mret results);
      nk ← get_key node;
      ge_lo ← py_le lower_bound nk;
      inside ← (if ge_lo : bool then nk ← get_key node; py_le' nk upper_bound
                else mret false);
      results ← (if inside : bool then
                   nk ← get_key node;
                   match nk with
                   | Some b => mret (results ++ b)
                   | None => raise TypeError
                   end
                 else mret results);
      nk ← get_key node;
      below ← py_lt' nk upper_bound;
      if below : bool then
        nr ← get_right node;
        range_lookup_traverse fuel nr lower_bound upper_bound results
      else mret results
  end.

Definition range_lookup (lower_bound upper_bound : bytes) : Mt bytes :=
  r ← get_root;
  fuel ← get_fuel;
  range_lookup_traverse fuel r lower_bound upper_bound [].

(** [iter_traverse]: the sequence of values the generator yields. *)
Fixpoint iter_traverse (fuel : nat) (node : pyobj) : Mt (list (option bytes)) :=
  match fuel with
  | O => stuck
  | S fuel =>
    if decide (node = NIL) then mret []
    else
      nl ← get_left node;
      ls ← iter_traverse fuel nl;
      nk ← get_key node;
      nr ← get_right node;
      rs ← iter_traverse fuel nr;
      mret (ls ++ nk :: rs)
  end.

(** [__iter__]. *)
Definition iter : Mt (list (option bytes)) :=
  r ← get_root;
  fuel ← get_fuel;
  iter_traverse fuel r.

(** [__contains__]. *)
Definition contains (k : bytes) : Mt bool :=
  r ← get k;
  mret (bool_decide (r ≠ None)).

(** [__len__]. *)
Definition len : Mt Z := get_elements.

(** [__bool__]. *)
Definition bool_ : Mt bool :=
  n ← get_elements;
  mret (0 <? n).

(** [__delitem__]. *)
Definition delitem (k : bytes) : Mt bool := remove k.

(** [in_order_traverse]: the list [lst] that the recursion appends to is
    passed through it. *)
Fixpoint in_order_traverse (fuel : nat) (node : pyobj)
    (lst : list (option bytes)) : Mt (list (option bytes)) :=
  match fuel with
  | O => stuck
  | S fuel =>
    if decide (node = NIL) then mret lst
    else
      nl ← get_left node;
      lst ← in_order_traverse fuel nl lst;
      nk ← get_key node;
      nr ← get_right node;
      in_order_traverse fuel nr (lst ++ [nk])
  end.

(** [in_order]. *)
Definition in_order : Mt (list (option bytes)) :=
  r ← get_root;
  fuel ← get_fuel;
  in_order_traverse fuel r [].

End memtable.


(** ** constants.py *)

Module constants.

(** The module [constants] is imported by every source file and is not
    part of the sources at hand.  Its values are a parameter of the
    embedding: the functions below take the record [c] and read
    [c.(HASH_SIZE)] where the code reads [c.HASH_SIZE]. *)
Record Constants : Type := mkConstants {
  HASH_SIZE : Z;
  HASHES_PER_IDX : Z;
  PARTITIONS : Z;
  PARTITION_NUM : Z → Z;
}.

(** Modelled from the spec: the values of the constants that the module
    [constants] defines, as the specification gives them: keys of 32
    bytes, N = 15,625 hashes per index file, P = 4 partitions, and the
    partition of a key being its first byte shifted right by 6. *)
Definition spec_constants : Constants :=
  mkConstants 32 15625 4 (λ b, Z.shiftr b 6).

(** The same layout with 3 keys per index file, small enough to run. *)
Definition small_constants : Constants :=
  mkConstants 32 3 4 (λ b, Z.shiftr b 6).

End constants.

(** ** idx_reader.py *)

Module idx_reader.
Import constants memtable.

(** The files under [server_core/data]: [db !! i] is the directory
    [db/partition{i}], absent when the directory does not exist, holding
    the files [idx_001.bin], [idx_002.bin], ... in this order (the reader
    and the writer both walk the numbers from 1 up to the first missing
    one, so no other file name is ever looked at); [wal !! i] is the
    content of [log/write_ahead/partition{i}.bin], absent when there is
    no such file. *)
Record FS : Type := mkFS {
  db : gmap Z (list bytes);
  wal : gmap Z bytes;
}.

(** [range(0, stop, step)] for [0 <= stop]; a zero step raises
    [ValueError]. *)
Definition range0 (stop step : Z) : option (list Z) :=
  if step =? 0 then None
  else if step <? 0 then Some []
  else Some ((λ i : nat, Z.of_nat i * step) <$> seq 0 (Z.to_nat ((stop + step - 1) / step))).

(** The body of the [for] loop of [build_memtable_from_WAL]. *)
Fixpoint insert_records (c : Constants) (mm : bytes) (offsets : list Z) : Mt unit :=
  match offsets with
  | [] => mret tt
  | offset :: offsets =>
      insert (Bytes.slice mm offset (offset + c.(HASH_SIZE)));;
      insert_records c mm offsets
  end.

Definition build_memtable_from_WAL (c : Constants) (partition_num : Z)
  : M FS MemTable := λ fs,
  (* wal_path.touch(exist_ok=True) *)
  let mm := default [] (wal fs !! partition_num) in
  let fs := mkFS (db fs) (<[partition_num := mm]> (wal fs)) in
  let memtable := new_MemTable in
  if Bytes.len mm =? 0 then Ok memtable fs
  else
    match range0 (Bytes.len mm) c.(HASH_SIZE) with
    | None => Raise ValueError fs
    | Some offsets =>
        match insert_records c mm offsets memtable with
        | Ok _ memtable => Ok memtable fs
        | Raise e _ => Raise e fs
        | Stuck => Stuck
        end
    end.

(** [class IndexReader]: [dir_path] is [data/db/partition{partition_number}]. *)
Record IndexReader : Set := mkIndexReader { partition_number : Z }.

(** The index files that the loops of a reader open, in order. *)
Definition files (fs : FS) (self : IndexReader) : list bytes :=
  default [] (db fs !! partition_number self).

(** The first binary search of [range_lookup]. *)
Fixpoint lower_search (fuel : nat) (hash_size : Z) (data lower_bound : bytes)
    (low high : Z) : option Z :=
  match fuel with
  | O => None
  | S fuel =>
    if low <? high then
      let mid := Z.shiftr (low + high) 1 in
      let start := mid * hash_size in
      let url_hash := Bytes.slice data start (start + hash_size) in
      if Bytes.gtb lower_bound url_hash
      then lower_search fuel hash_size data lower_bound (mid + 1) high
      else lower_search fuel hash_size data lower_bound low mid
    else Some low
  end.

(** The second binary search of [range_lookup]. *)
Fixpoint upper_search (fuel : nat) (hash_size : Z) (data upper_bound : bytes)
    (low high : Z) : option Z :=
  match fuel with
  | O => None
  | S fuel =>
    if low <? high then
      let mid := Z.shiftr (low + high) 1 in
      let start := mid * hash_size in
      let url_hash := Bytes.slice data start (start + hash_size) in
      if Bytes.geb upper_bound url_hash
      then upper_search fuel hash_size data upper_bound (mid + 1) high
      else upper_search fuel hash_size data upper_bound low mid
    else Some low
  end.

(** The fuel of a binary search over [0 .. hashes_per_idx - 1]: the
    interval shrinks at every iteration. *)
Definition search_fuel (c : Constants) : nat := S (Z.to_nat c.(HASHES_PER_IDX)).

(** What one index file adds to the results of [range_lookup]. *)
Definition range_lookup_file (c : Constants) (data lower_bound upper_bound : bytes)
  : option bytes :=
  let hashes_per_idx := c.(HASHES_PER_IDX) in
  let hash_size := c.(HASH_SIZE) in
  lower_index ← lower_search (search_fuel c) hash_size data lower_bound 0 (hashes_per_idx - 1);
  upper_index ← upper_search (search_fuel c) hash_size data upper_bound 0 (hashes_per_idx - 1);
  Some (Bytes.slice data (lower_index * hash_size) (upper_index * hash_size)).

Fixpoint range_lookup_files (c : Constants) (fls : list bytes)
    (lower_bound upper_bound : bytes) (results : bytes) : option bytes :=
  match fls with
  | [] => Some results
  | data :: fls =>
      slice ← range_lookup_file c data lower_bound upper_bound;
      range_lookup_files c fls lower_bound upper_bound (results ++ slice)
  end.

(** [IndexReader.range_lookup]; [None] when a search runs out of fuel
    (it never does, see [range_lookup_total]). *)
Definition range_lookup (c : Constants) (fs : FS) (self : IndexReader)
    (lower_bound upper_bound : bytes) : option bytes :=
  range_lookup_files c (files fs self) lower_bound upper_bound [].

(** The binary search of [contains_hash] in one file. *)
Fixpoint contains_search (fuel : nat) (hash_size : Z) (data k : bytes)
    (low high : Z) : option bool :=
  match fuel with
  | O => None
  | S fuel =>
    if low <=? high then
      let mid := Z.shiftr (low + high) 1 in
      let start := mid * hash_size in
      let url_hash := Bytes.slice data start (start + hash_size) in
      if k =?b url_hash then Some true
      else if k <?b url_hash
      then contains_search fuel hash_size data k low (mid - 1)
      else contains_search fuel hash_size data k (mid + 1) high
    else Some false
  end.

Fixpoint contains_hash_files (c : Constants) (fls : list bytes) (k : bytes)
  : option bool :=
  match fls with
  | [] => Some false
  | data :: fls =>
      found ← contains_search (S (search_fuel c)) c.(HASH_SIZE) data k
                0 (c.(HASHES_PER_IDX) - 1);
      if found : bool then Some true else contains_hash_files c fls k
  end.

(** [IndexReader.contains_hash]. *)
Definition contains_hash (c : Constants) (fs : FS) (self : IndexReader)
    (k : bytes) : option bool :=
  contains_hash_files c (files fs self) k.

(** [f.read(size)]: the bytes read and the rest of the file. *)
Definition file_read (size : Z) (data : bytes) : bytes * bytes :=
  if size <? 0 then (data, [])
  else (take (Z.to_nat size) data, drop (Z.to_nat size) data).

(** [while sha256_hash := f.read(size): ...]: the successive non-empty
    reads.  A non-empty read consumes at least one byte, so [length data]
    iterations reach the end of the file. *)
Fixpoint read_loop (fuel : nat) (size : Z) (data : bytes) : list bytes :=
  match fuel with
  | O => []
  | S fuel =>
    let '(sha256_hash, rest) := file_read size data in
    match sha256_hash with
    | [] => []
    | _ => sha256_hash :: read_loop fuel size rest
    end
  end.

(** [IndexReader.get_all_hash_prefixes]. *)
Definition get_all_hash_prefixes (c : Constants) (fs : FS) (self : IndexReader)
  : bytes :=
  concat ((λ data, concat ((λ sha256_hash, Bytes.prefix sha256_hash 4)
                             <$> read_loop (S (length data)) c.(HASH_SIZE) data))
            <$> files fs self).

(** [IndexReader.get_idx_file_amount]. *)
Definition get_idx_file_amount (fs : FS) (self : IndexReader) : Z :=
  Z.of_nat (length (files fs self)).

End idx_reader.

(** ** idx_builder.py *)

Module idx_builder.
Import constants memtable idx_reader.

(** [f.write(h)] for each value the memtable yields; the state is the
    content of the file written so far. *)
Fixpoint write_all (hs : list (option bytes)) : M bytes unit :=
  match hs with
  | [] => mret tt
  | Some h :: hs => (λ f, Ok tt (f ++ h));; write_all hs
  | None :: hs => raise TypeError
  end.

(** [build_idx]: the content of the file opened with ["wb"]. *)
Definition build_idx (memtable : MemTable) : M bytes unit := λ f,
  match iter memtable with
  | Ok hs _ => write_all hs []
  | Raise e _ => Raise e []
  | Stuck => Stuck
  end.

(** [flush_to_idx]: the new file takes the first unused number, that is
    the end of the directory's list. *)
Definition flush_to_idx (memtable : MemTable) (partition : Z) : M FS unit := λ fs,
  match db fs !! partition with
  | None => Raise FileNotFoundError fs
  | Some fls =>
      match build_idx memtable [] with
      | Ok _ f => Ok tt (mkFS (<[partition := fls ++ [f]]> (db fs)) (wal fs))
      | Raise e f => Raise e (mkFS (<[partition := fls ++ [f]]> (db fs)) (wal fs))
      | Stuck => Stuck
      end
  end.

End idx_builder.


(** ** server_main.py *)

Module server_main.
Import constants memtable idx_reader idx_builder.

(** The body of a [Response]: a [str] or [bytes]. *)
Inductive body : Type :=
| Text (s : string)
| Binary (b : bytes).

(** [fastapi.Response(content=..., status_code=...)]; the status code
    defaults to 200. *)
Record Response : Type := mkResponse {
  content : body;
  status_code : Z;
}.

(** [server.state] together with the files it mirrors.  [date] is the
    day of the activity log in use.  The activity log itself is not
    modelled: the handlers only append to it. *)
Record ServerState : Type := mkServerState {
  idx_readers : list IndexReader;
  memtables : list MemTable;
  date : string;
  fs : FS;
}.

Abbreviation Ms := (M ServerState).

(** [range(1, n + 1)]. *)
Definition range1 (n : Z) : list Z :=
  (λ i : nat, Z.of_nat i + 1) <$> seq 0 (Z.to_nat n).

(** The list comprehension [[build_memtable_from_WAL(i) for i in ...]]. *)
Fixpoint build_memtables (c : Constants) (nums : list Z) : M FS (list MemTable) :=
  match nums with
  | [] => mret []
  | i :: nums =>
      m ← build_memtable_from_WAL c i;
      ms ← build_memtables c nums;
      mret (m :: ms)
  end.

(** [lifespan], up to the [yield]: the state the server starts with on
    the day [today]. *)
Definition lifespan (c : Constants) (today : string) : M FS ServerState :=
  ms ← build_memtables c (range1 c.(PARTITIONS));
  fs ← get_state;
  mret (mkServerState (mkIndexReader <$> range1 c.(PARTITIONS)) ms today fs).

(** [l[i]] on a Python list: the position read, or [None] for an
    [IndexError].  A negative index counts from the end. *)
Definition py_index {A} (l : list A) (i : Z) : option nat :=
  let n := Z.of_nat (length l) in
  if (0 <=? i) && (i <? n) then Some (Z.to_nat i)
  else if (- n <=? i) && (i <? 0) then Some (Z.to_nat (i + n))
  else None.

(** [request.app.state.idx_readers[i]]. *)
Definition reader_at (i : Z) : Ms IndexReader := λ st,
  match py_index (idx_readers st) i with
  | None => Raise IndexError st
  | Some j => match idx_readers st !! j with
              | Some r => Ok r st
              | None => Stuck
              end
  end.

(** A method call on the object [request.app.state.memtables[i]]: the
    object in the list is the one mutated. *)
Definition with_memtable {A} (i : Z) (m : Mt A) : Ms A := λ st,
  match py_index (memtables st) i with
  | None => Raise IndexError st
  | Some j =>
      match memtables st !! j with
      | None => Stuck
      | Some mt =>
          let put mt' := mkServerState (idx_readers st) (<[j := mt']> (memtables st))
                                       (date st) (fs st) in
          match m mt with
          | Ok a mt' => Ok a (put mt')
          | Raise e mt' => Raise e (put mt')
          | Stuck => Stuck
          end
      end
  end.

(** A function of [idx_builder] or [idx_reader] run on the files. *)
Definition with_fs {A} (m : M FS A) : Ms A := λ st,
  let put fs' := mkServerState (idx_readers st) (memtables st) (date st) fs' in
  match m (fs st) with
  | Ok a fs' => Ok a (put fs')
  | Raise e fs' => Raise e (put fs')
  | Stuck => Stuck
  end.

(** A read-only method of a reader; [None] is a search out of fuel. *)
Definition read_fs {A} (f : FS → option A) : Ms A := λ st,
  match f (fs st) with
  | Some a => Ok a st
  | None => Stuck
  end.

(** The head of every handler: when the day has changed, the handler
    stores the new date and calls [generate_activity_log()] without its
    argument, which raises [TypeError]. *)
Definition check_date (today : string) : Ms unit := λ st,
  if String.eqb today (date st) then Ok tt st
  else Raise TypeError (mkServerState (idx_readers st) (memtables st) today (fs st)).

(** [with open(wal_path, "w") as f: pass]. *)
Definition truncate_wal (partition : Z) : M FS unit := λ fs,
  Ok tt (mkFS (db fs) (<[partition := []]> (wal fs))).

(** [with open(wal_path, "ab") as f: f.write(url_hash)]. *)
Definition append_wal (partition : Z) (url_hash : bytes) : M FS unit := λ fs,
  Ok tt (mkFS (db fs)
              (<[partition := default [] (wal fs !! partition) ++ url_hash]> (wal fs))).

Definition HTTP_400_BAD_REQUEST : Z := 400.

Definition already_blacklisted : Response :=
  mkResponse (Text "Bad request: URL is already blacklisted") HTTP_400_BAD_REQUEST.

(** [POST /submit-malicious-url]; [url_hash] is [bytes.fromhex(url)] and
    [today] is what [get_date()] returns during the request.  The handler
    is run without interleaving (one request at a time). *)
Definition submit_malicious_url (c : Constants) (today : string) (url_hash : bytes)
  : Ms (option Response) :=
  check_date today;;
  b0 ← match Bytes.first url_hash with
       | Some b => mret b
       | None => raise IndexError
       end;
  let partition := c.(PARTITION_NUM) b0 in
  reader ← reader_at partition;
  in_idx ← read_fs (λ fs, contains_hash c fs reader url_hash);
  if in_idx : bool then mret (Some already_blacklisted)
  else
    in_memtable ← with_memtable partition (contains url_hash);
    if in_memtable : bool then mret (Some already_blacklisted)
    else
      with_memtable partition (insert url_hash);;
      n ← with_memtable partition len;
      (if n >=? c.(HASHES_PER_IDX) then
         memtable ← with_memtable partition get_state;
         with_fs (flush_to_idx memtable partition);;
         with_fs (truncate_wal partition)
       else
         with_fs (append_wal partition url_hash));;
      mret None.

(** [hash_prefixes.extend(url_hash[:4])] for each yielded value. *)
Fixpoint extend_prefixes (hs : list (option bytes)) (hash_prefixes : bytes)
  : Ms bytes :=
  match hs with
  | [] => mret hash_prefixes
  | Some url_hash :: hs => extend_prefixes hs (hash_prefixes ++ Bytes.prefix url_hash 4)
  | None :: _ => raise TypeError
  end.

(** [GET /fetch-prefixes/memtable]. *)
Definition get_memtable_hash_prefixes (today : string) (partition : Z)
  : Ms (option Response) :=
  check_date today;;
  hs ← with_memtable (partition - 1) iter;
  hash_prefixes ← extend_prefixes hs [];
  mret (Some (mkResponse (Binary hash_prefixes) 200)).

(** [GET /fetch-prefixes/index]. *)
Definition get_idx_hash_prefixes (c : Constants) (today : string) (partition : Z)
  : Ms (option Response) :=
  check_date today;;
  reader ← reader_at (partition - 1);
  hash_prefixes ← read_fs (λ fs, Some (get_all_hash_prefixes c fs reader));
  mret (Some (mkResponse (Binary hash_prefixes) 200)).

(** [GET /fetch-hashes]; [bytes_prefix] is [bytes.fromhex(prefix)], and
    [prefix_size] is the constant [PREFIX_SIZE] of [constants].  A
    [bytes] multiplied by a negative number is empty. *)
Definition fetch_hashes (c : Constants) (prefix_size : Z) (today : string)
    (bytes_prefix : bytes) : Ms (option Response) :=
  check_date today;;
  let lower_bound :=
    bytes_prefix ++ replicate (Z.to_nat (c.(HASH_SIZE) - prefix_size)) Byte.x00 in
  let upper_bound :=
    bytes_prefix ++ replicate (Z.to_nat (c.(HASH_SIZE) - prefix_size)) Byte.xff in
  b0 ← match Bytes.first bytes_prefix with
       | Some b => mret b
       | None => raise IndexError
       end;
  let partition := c.(PARTITION_NUM) b0 in
  hashes ← with_memtable partition (memtable.range_lookup lower_bound upper_bound);
  reader ← reader_at partition;
  found ← read_fs (λ fs, idx_reader.range_lookup c fs reader lower_bound upper_bound);
  mret (Some (mkResponse (Binary (hashes ++ found)) 200)).

(** [len(memtable)]: the builtin refuses a negative [__len__]. *)
Definition py_len : Mt Z :=
  n ← memtable.len;
  if n <? 0 then raise ValueError else mret n.

(** [for memtable in request.app.state.memtables: size += len(memtable)];
    a memtable is left as it is whatever [len] does. *)
Fixpoint add_lens (mts : list MemTable) (size : Z) : Ms Z :=
  match mts with
  | [] => mret size
  | mt :: mts =>
      match py_len mt with
      | Ok n _ => add_lens mts (size + n)
      | Raise e _ => raise e
      | Stuck => stuck
      end
  end.

(** [GET /fetch-blacklist-metadata]: the list [[size, c.PARTITIONS]] that
    the handler returns, as a pair. *)
Definition get_blacklist_size (c : Constants) (today : string) : Ms (Z * Z) :=
  check_date today;;
  st ← get_state;
  let size :=
    foldl Z.add 0 ((λ reader, get_idx_file_amount (fs st) reader * c.(HASHES_PER_IDX))
                     <$> idx_readers st) in
  size ← add_lens (memtables st) size;
  mret (size, c.(PARTITIONS)).

(** What the framework answers for the outcome of a handler: the status
    of the returned [Response], 200 for a handler that returns [None],
    and 500 (Internal Server Error) for an unhandled exception. *)
Definition http_status (o : outcome ServerState (option Response)) : option Z :=
  match o with
  | Ok (Some r) _ => Some (status_code r)
  | Ok None _ => Some 200
  | Raise _ _ => Some 500
  | Stuck => None
  end.

(** The body returned to the client, when the handler returns one. *)
Definition http_body (o : outcome ServerState (option Response)) : option body :=
  match o with
  | Ok (Some r) _ => Some (content r)
  | _ => None
  end.

End server_main.

(** ** bloomfilter.py *)

Module bloomfilter.

(** [class BloomFilter]: [bit_array] is the [bitarray], one [bool] per
    bit. *)
Record BloomFilter : Type := mkBloomFilter {
  hash_count : Z;
  bit_array : list bool;
}.

Abbreviation Mb := (M BloomFilter).

(** [float(n)] for a Python [int]: the nearest binary64 value, or
    [OverflowError] when it is out of range. *)
Definition float_of_int (n : Z) : exn + float :=
  let x := SF2Prim (binary_normalize prec emax n 0 false) in
  if is_infinity x then inl OverflowError else inr x.

(** [int(x)] for a Python [float]: truncation towards zero. *)
Definition int_of_float (x : float) : exn + Z :=
  match Prim2SF x with
  | S754_nan => inl ValueError
  | S754_infinity _ => inl OverflowError
  | S754_zero _ => inr 0
  | S754_finite s m e =>
      let v := if 0 <=? e then Z.pos m * 2 ^ e else Z.pos m / 2 ^ (- e) in
      inr (if s then - v else v)
  end.

(** [a / b] on floats: a zero divisor raises. *)
Definition float_div (a b : float) : exn + float :=
  if is_zero b then inl ZeroDivisionError else inr (a / b)%float.

Section BloomFilter.

(** [mmh3.hash(key, seed=seed)] of the library [mmh3], a signed 32-bit
    integer; [math.log] and the float power [x ** y] of the C library;
    and the constant [BF_FP_PROBABILITY] of the client's [constants]
    module, which is not among the sources. *)
Variable mmh3_hash : bytes → Z → Z.
Variable math_log : float → float.
Variable float_pow : float → float → float.
Variable BF_FP_PROBABILITY : float.

(** The value [bitarray_size] of [__init__], a float. *)
Definition bitarray_size (entry_count : Z) : exn + float :=
  match float_of_int (entry_count + 24) with
  | inl e => inl e
  | inr n24 =>
      float_div (- (n24 * math_log BF_FP_PROBABILITY))%float
                (float_pow (math_log 2%float) 2%float)
  end.

(** [BloomFilter(entry_count)]. *)
Definition init (entry_count : Z) : exn + BloomFilter :=
  match bitarray_size entry_count with
  | inl e => inl e
  | inr size =>
    match float_of_int entry_count with
    | inl e => inl e
    | inr n =>
      match float_div size n with
      | inl e => inl e
      | inr q =>
        match int_of_float (q * math_log 2%float)%float with
        | inl e => inl e
        | inr k =>
          match int_of_float size with
          | inl e => inl e
          | inr m =>
              if m <? 0 then inl ValueError
              else inr (mkBloomFilter (Z.max 1 k) (replicate (Z.to_nat m) false))
          end
        end
      end
    end
  end.

(** [get_digest]. *)
Definition get_digest (k : bytes) (seed : Z) : Mb Z := λ self,
  let n := Z.of_nat (length (bit_array self)) in
  if n =? 0 then Raise ZeroDivisionError self
  else Ok (Z.land (mmh3_hash k seed) 0xFFFFFFFF `mod` n) self.

(** [self.bit_array[digest] = True]. *)
Definition set_bit (digest : Z) : Mb unit := λ self,
  if (0 <=? digest) && (digest <? Z.of_nat (length (bit_array self)))
  then Ok tt (mkBloomFilter (hash_count self)
                            (<[Z.to_nat digest := true]> (bit_array self)))
  else Raise IndexError self.

(** [self.bit_array[digest]]. *)
Definition get_bit (digest : Z) : Mb bool := λ self,
  if (0 <=? digest) && (digest <? Z.of_nat (length (bit_array self)))
  then match bit_array self !! Z.to_nat digest with
       | Some b => Ok b self
       | None => Stuck
       end
  else Raise IndexError self.

(** The [for i in range(self.hash_count)] loop of [add], from seed [i]
    for [n] more iterations. *)
Fixpoint add_loop (k : bytes) (i : Z) (n : nat) : Mb unit :=
  match n with
  | O => mret tt
  | S n =>
      digest ← get_digest k i;
      set_bit digest;;
      add_loop k (i + 1) n
  end.

Definition add (k : bytes) : Mb unit :=
  n ← (λ self, Ok (hash_count self) self);
  add_loop k 0 (Z.to_nat n).

Fixpoint check_loop (k : bytes) (i : Z) (n : nat) : Mb bool :=
  match n with
  | O => mret true
  | S n =>
      digest ← get_digest k i;
      b ← get_bit digest;
      if b : bool then check_loop k (i + 1) n else mret false
  end.

Definition check (k : bytes) : Mb bool :=
  n ← (λ self, Ok (hash_count self) self);
  check_loop k 0 (Z.to_nat n).

(** A sequence of [add] calls. *)
Fixpoint add_all (ks : list bytes) : Mb unit :=
  match ks with
  | [] => mret tt
  | k :: ks => add k;; add_all ks
  end.

End BloomFilter.

End bloomfilter.

(** ** client.py *)

Module client.
Import constants memtable idx_reader server_main bloomfilter.

(** [class Client]: [bloom_filter] is the attribute [self.bloom_filter],
    [None] or a filter; [filter_file] is the content of
    [data/local_data/bloom_filter.pkl] as the object that [pickle.load]
    returns, absent when there is no such file.  The name, the console
    and the session log are not modelled: the methods only write to
    them. *)
Record Client : Type := mkClient {
  bloom_filter : option BloomFilter;
  filter_file : option (option BloomFilter);
}.

(** A client and the server at its [base_url].  A request reaches the
    handler of its path, which runs to its end before the client goes
    on; the hexadecimal and decimal texts of the arguments are read back
    by the server as the values the client wrote. *)
Record World : Type := mkWorld {
  this : Client;
  server : ServerState;
}.

Abbreviation Mw := (M World).

(** [response.raise_for_status()] raises [HTTPError] for a status from
    400 to 599. *)
Definition is_error (status : Z) : bool := (400 <=? status) && (status <? 600).

(** [response.content]: a [str] body is sent encoded. *)
Definition body_bytes (b : body) : bytes :=
  match b with
  | Binary b => b
  | Text s => list_byte_of_string s
  end.

(** [requests.get] or [requests.post] followed by
    [response.raise_for_status()]: the content of the response, or
    [None] when [HTTPError] is raised.  A handler that returns [None] is
    answered with the JSON text [null], and one that raises with the
    status 500. *)
Definition request (handler : Ms (option Response)) : Mw (option bytes) := λ w,
  let put st := mkWorld (this w) st in
  match handler (server w) with
  | Ok (Some r) st =>
      Ok (if is_error (status_code r) then None else Some (body_bytes (content r)))
         (put st)
  | Ok None st => Ok (Some (list_byte_of_string "null")) (put st)
  | Raise _ st => Ok None (put st)
  | Stuck => Stuck
  end.

(** The same for a handler whose result is sent as JSON and read with
    [response.json()]. *)
Definition request_json {A} (handler : Ms A) : Mw (option A) := λ w,
  let put st := mkWorld (this w) st in
  match handler (server w) with
  | Ok a st => Ok (Some a) (put st)
  | Raise _ st => Ok None (put st)
  | Stuck => Stuck
  end.

(** [self.bloom_filter = v]. *)
Definition set_bloom_filter (v : option BloomFilter) : Mw unit := λ w,
  Ok tt (mkWorld (mkClient v (filter_file (this w))) (server w)).

(** A method call on the object [self.bloom_filter]; on [None] the
    attribute lookup raises [AttributeError]. *)
Definition with_filter {A} (m : Mb A) : Mw A := λ w,
  match bloom_filter (this w) with
  | None => Raise AttributeError w
  | Some bf =>
      let put bf' := mkWorld (mkClient (Some bf') (filter_file (this w))) (server w) in
      match m bf with
      | Ok a bf' => Ok a (put bf')
      | Raise e bf' => Raise e (put bf')
      | Stuck => Stuck
      end
  end.

(** [pickle.dump(self.bloom_filter, bf)] on the file opened with
    ["wb"]. *)
Definition pickle_dump : Mw unit := λ w,
  Ok tt (mkWorld (mkClient (bloom_filter (this w)) (Some (bloom_filter (this w))))
                 (server w)).

(** [needle in hay] on [bytes]: [needle] occurs in [hay] at some
    offset. *)
Fixpoint bytes_in (needle hay : bytes) : bool :=
  bool_decide (take (length needle) hay = needle)
  || match hay with
     | [] => false
     | _ :: hay => bytes_in needle hay
     end.

Section Client.

(** [sha256(url.encode("utf-8")).digest()] of [hashlib]; the functions
    of the libraries that the filter calls; the constants
    [BF_FP_PROBABILITY] and [PREFIX_SIZE] of the client's module
    [constants]; the constants of the server's module [constants], with
    its [PREFIX_SIZE]. *)
Variable sha256 : string → bytes.
Variable mmh3_hash : bytes → Z → Z.
Variable math_log : float → float.
Variable float_pow : float → float → float.
Variable BF_FP_PROBABILITY : float.
Variable PREFIX_SIZE : Z.
Variable c : Constants.
Variable server_PREFIX_SIZE : Z.

(** [Client.check_url]; [today] is what [get_date()] returns on the
    server during the call. *)
Definition check_url (today : string) (url : string) : Mw Z :=
  let url_hash := sha256 url in
  let hash_prefix := Bytes.prefix url_hash PREFIX_SIZE in
  w ← get_state;
  maybe ← match bloom_filter (this w) with
          | None => mret true
          | Some _ => with_filter (check mmh3_hash hash_prefix)
          end;
  if maybe : bool then
    response ← request (fetch_hashes c server_PREFIX_SIZE today hash_prefix);
    match response with
    | None => mret 2
    | Some hashes => if bytes_in url_hash hashes then mret 1 else mret 0
    end
  else mret 0.

(** [Client.blacklist_url]. *)
Definition blacklist_url (today : string) (url : string) : Mw Z :=
  let url_hash := sha256 url in
  response ← request (submit_malicious_url c today url_hash);
  match response with
  | Some _ =>
      with_filter (add mmh3_hash (Bytes.prefix url_hash 4));;
      pickle_dump;;
      mret 0
  | None =>
      set_bloom_filter None;;
      mret 1
  end.

(** The loop [for j in range(0, len(prefix_list), c.PREFIX_SIZE)] of
    [rebuild_bloomfilter]. *)
Fixpoint add_prefixes (prefix_list : bytes) (offsets : list Z) : Mw unit :=
  match offsets with
  | [] => mret tt
  | j :: offsets =>
      with_filter (add mmh3_hash (Bytes.slice prefix_list j (j + PREFIX_SIZE)));;
      add_prefixes prefix_list offsets
  end.

(** One request of the inner loop and the prefixes it adds; [false] when
    [HTTPError] is raised. *)
Definition fetch_prefixes (handler : Ms (option Response)) : Mw bool :=
  response ← request handler;
  match response with
  | None => mret false
  | Some prefix_list =>
      match range0 (Bytes.len prefix_list) PREFIX_SIZE with
      | None => raise ValueError
      | Some offsets => add_prefixes prefix_list offsets;; mret true
      end
  end.

(** The loop [for i in range(1, partitions+1)]: the memtable of the
    partition, then its index files. *)
Fixpoint fetch_partitions (today : string) (nums : list Z) : Mw bool :=
  match nums with
  | [] => mret true
  | i :: nums =>
      ok ← fetch_prefixes (get_memtable_hash_prefixes today i);
      if ok : bool then
        ok ← fetch_prefixes (get_idx_hash_prefixes c today i);
        if ok : bool then fetch_partitions today nums else mret false
      else mret false
  end.

(** [Client.rebuild_bloomfilter]. *)
Definition rebuild_bloomfilter (today : string) : Mw Z :=
  response ← request_json (get_blacklist_size c today);
  match response with
  | None => set_bloom_filter None;; mret 1
  | Some (entry_count, partitions) =>
      bf ← match init math_log float_pow BF_FP_PROBABILITY entry_count with
           | inl e => raise e
           | inr bf => mret bf
           end;
      set_bloom_filter (Some bf);;
      ok ← fetch_partitions today (range1 partitions);
      if ok : bool then pickle_dump;; mret 0
      else set_bloom_filter None;; mret 1
  end.

End Client.

End client.

(** * Specification-level definitions *)

(** ** The tree that a store represents *)

Module shape.
Import memtable.

(** A binary tree whose nodes carry the reference of the [Node] object
    they stand for, its colour and its key. *)
Inductive tree : Type :=
| Lf
| Br (x : ref) (c : bool) (l : tree) (k : bytes) (r : tree).

(** The object a child field holds for a subtree: NIL for the empty
    tree. *)
Definition ptr (t : tree) : pyobj :=
  match t with
  | Lf => NIL
  | Br x _ _ _ _ => Some x
  end.

Fixpoint refs (t : tree) : gset nat :=
  match t with
  | Lf => ∅
  | Br x _ l _ r => {[x]} ∪ refs l ∪ refs r
  end.

(** The keys in the order an in-order walk visits them. *)
Fixpoint keys (t : tree) : list bytes :=
  match t with
  | Lf => []
  | Br _ _ l k r => keys l ++ k :: keys r
  end.

Fixpoint height (t : tree) : nat :=
  match t with
  | Lf => O
  | Br _ _ l _ r => S (height l `max` height r)
  end.

(** No object stands at two places of the tree. *)
Fixpoint wf (t : tree) : Prop :=
  match t with
  | Lf => True
  | Br x _ l _ r =>
      (x ∉ refs l) ∧ (x ∉ refs r) ∧ (refs l ## refs r) ∧ wf l ∧ wf r
  end.

(** The store [h] holds the tree [t] below the parent [par]: every node
    of [t] is an object whose five fields are those of the tree. *)
Fixpoint own (h : gmap nat Node) (par : pyobj) (t : tree) : Prop :=
  match t with
  | Lf => True
  | Br x c l k r =>
      h !! x = Some (mkNode par (ptr l) (ptr r) c (Some k)) ∧
      own h (Some x) l ∧ own h (Some x) r
  end.

(** A tree with a hole: the path from a node up to the root, as the
    [parent] fields give it.  A frame is the parent, with the side the
    hole is on and the sibling subtree. *)
Inductive dir : Set := L | R.

Record frame : Type := mkFrame {
  f_dir : dir;
  f_ref : ref;
  f_red : bool;
  f_key : bytes;
  f_sib : tree;
}.

Definition fill (f : frame) (t : tree) : tree :=
  match f_dir f with
  | L => Br (f_ref f) (f_red f) t (f_key f) (f_sib f)
  | R => Br (f_ref f) (f_red f) (f_sib f) (f_key f) t
  end.

Fixpoint plug (t : tree) (ctx : list frame) : tree :=
  match ctx with
  | [] => t
  | f :: ctx => plug (fill f t) ctx
  end.

Definition ctx_parent (ctx : list frame) : pyobj :=
  match ctx with
  | [] => None
  | f :: _ => Some (f_ref f)
  end.

Fixpoint ctx_refs (ctx : list frame) : gset nat :=
  match ctx with
  | [] => ∅
  | f :: ctx => {[f_ref f]} ∪ refs (f_sib f) ∪ ctx_refs ctx
  end.

Fixpoint wf_ctx (ctx : list frame) : Prop :=
  match ctx with
  | [] => True
  | f :: ctx =>
      (f_ref f ∉ refs (f_sib f)) ∧ wf (f_sib f) ∧
      (f_ref f ∉ ctx_refs ctx) ∧ (refs (f_sib f) ## ctx_refs ctx) ∧ wf_ctx ctx
  end.

(** The store holds the frames of [ctx] around a hole whose child field
    holds [child]. *)
Fixpoint own_ctx (h : gmap nat Node) (ctx : list frame) (child : pyobj) : Prop :=
  match ctx with
  | [] => True
  | f :: ctx =>
      h !! f_ref f =
        Some (mkNode (ctx_parent ctx)
                     (match f_dir f with L => child | R => ptr (f_sib f) end)
                     (match f_dir f with L => ptr (f_sib f) | R => child end)
                     (f_red f) (Some (f_key f))) ∧
      own h (Some (f_ref f)) (f_sib f) ∧
      own_ctx h ctx (Some (f_ref f))
  end.

(** The root of a tree with a hole: the last frame, when there is one. *)
Definition ctx_root (ctx : list frame) (child : pyobj) : pyobj :=
  match last ctx with
  | Some f => Some (f_ref f)
  | None => child
  end.

(** The keys before and after the hole. *)
Fixpoint lkeys (ctx : list frame) : list bytes :=
  match ctx with
  | [] => []
  | f :: ctx =>
      lkeys ctx ++ match f_dir f with L => [] | R => keys (f_sib f) ++ [f_key f] end
  end.

Fixpoint rkeys (ctx : list frame) : list bytes :=
  match ctx with
  | [] => []
  | f :: ctx =>
      match f_dir f with L => f_key f :: keys (f_sib f) | R => [] end ++ rkeys ctx
  end.

(** The state after an assignment to a field of the object [r]. *)
Definition upd (s : MemTable) (r : ref) (n : Node) : MemTable :=
  mkMemTable (<[r := n]> (heap s)) (next s) (root s) (elements s).

(** The sentinel: all its fields but [parent] are as constructed. *)
Definition nil_ok (h : gmap nat Node) : Prop :=
  ∃ p, h !! NIL_ref = Some (mkNode p None None false None).

Definition black_root (t : tree) : Prop :=
  match t with
  | Lf => True
  | Br _ c _ _ _ => c = false
  end.

(** The colour of the root; NIL is black. *)
Definition color (t : tree) : bool :=
  match t with
  | Lf => false
  | Br _ c _ _ _ => c
  end.

Definition blacken (t : tree) : tree :=
  match t with
  | Lf => Lf
  | Br x _ l k r => Br x false l k r
  end.

(** The red-black conditions: no red node has a red child, and every
    path from a node down to a leaf crosses the same number of black
    nodes ([black_height] counts them on the leftmost path). *)
Fixpoint no_red_red (t : tree) : Prop :=
  match t with
  | Lf => True
  | Br _ c l _ r =>
      (c = true → color l = false ∧ color r = false) ∧ no_red_red l ∧ no_red_red r
  end.

Fixpoint black_height (t : tree) : nat :=
  match t with
  | Lf => O
  | Br _ c l _ _ => ((if c then 0 else 1) + black_height l)%nat
  end.

Fixpoint balanced (t : tree) : Prop :=
  match t with
  | Lf => True
  | Br _ _ l _ r => black_height l = black_height r ∧ balanced l ∧ balanced r
  end.

Definition red_black (t : tree) : Prop := no_red_red t ∧ balanced t.

(** Every reference of [X] is an allocated object other than the
    sentinel, which is allocated too. *)
Definition bounded (X : gset nat) (n : nat) : Prop :=
  (0 < n)%nat ∧ ∀ x, x ∈ X → (0 < x < n)%nat.

(** The memtable [s] is the tree [t]. *)
Record rep (s : MemTable) (t : tree) : Prop := mkRep {
  rep_own : own (heap s) None t;
  rep_root : root s = ptr t;
  rep_wf : wf t;
  rep_nil : nil_ok (heap s);
  rep_bound : bounded (refs t) (next s);
}.

(** What [fix_insert] establishes from a tree [t0]: a tree with the same
    keys in the same order, on the same objects, with a black root. *)
Definition fix_post (s : MemTable) (t0 : tree) : unit → MemTable → Prop :=
  λ _ s', ∃ t', rep s' t' ∧ keys t' = keys t0 ∧ refs t' = refs t0 ∧
                black_root t' ∧ next s' = next s ∧ elements s' = elements s.

(** What the descent of [insert] returns on the tree [t0]: nothing when
    the key is there, otherwise the parent of the leaf position where
    the key belongs. *)
Definition descend_post (k : bytes) (s : MemTable) (t0 : tree)
    (res : option pyobj) (s' : MemTable) : Prop :=
  s' = s ∧
  match res with
  | None => k ∈ keys t0
  | Some par =>
      ∃ ctx, t0 = plug Lf ctx ∧ par = ctx_parent ctx ∧
             Forall (λ y, Bytes.lt y k) (lkeys ctx) ∧
             Forall (Bytes.lt k) (rkeys ctx)
  end.

(** The keys of the tree are strictly increasing. *)
Definition bst (t : tree) : Prop := StronglySorted Bytes.lt (keys t).

(** [lo <= k <= hi] on [bytes]. *)
Definition in_range (lo hi k : bytes) : bool := (lo <=?b k) && (k <=?b hi).

(** The invariant of a memtable that only [insert] has been called on. *)
Definition inv (s : MemTable) (t : tree) : Prop :=
  rep s t ∧ bst t ∧ black_root t ∧ elements s = Z.of_nat (length (keys t)).

(** A sequence of [insert] calls, with what each call returns. *)
Fixpoint insert_all (ks : list bytes) : Mt (list bool) :=
  match ks with
  | [] => mret []
  | k :: ks => b ← insert k; bs ← insert_all ks; mret (b :: bs)
  end.

End shape.

(** ** Weakest preconditions *)

(** [wp m s Q]: the computation [m] run on [s] returns a value and a
    state that satisfy [Q]; it neither raises nor gets stuck. *)
Definition wp {S A} (m : M S A) (s : S) (Q : A → S → Prop) : Prop :=
  match m s with
  | Ok a s' => Q a s'
  | _ => False
  end.

(** The computation [m] never raises a [NameError]. *)
Definition no_NameError {S A} (m : M S A) : Prop :=
  ∀ s e s', m s = Raise e s' → is_NameError e = false.

(** ** Index files *)

(** The records of an index file as the flush of a full memtable is
    meant to write it: [N] keys of [HASH_SIZE] bytes in increasing
    order. *)
Definition index_file (c : constants.Constants) (recs : list bytes) : Prop :=
  Z.of_nat (length recs) = c.(constants.HASHES_PER_IDX) ∧
  Forall (λ r, Bytes.len r = c.(constants.HASH_SIZE)) recs ∧
  StronglySorted Bytes.lt recs.

(** ** The records of a write-ahead log *)

(** The slices that the loop of [build_memtable_from_WAL] inserts, in
    the order of the file. *)
Definition wal_records (c : constants.Constants) (mm : bytes) : list bytes :=
  match idx_reader.range0 (Bytes.len mm) c.(constants.HASH_SIZE) with
  | Some offsets =>
      (λ offset, Bytes.slice mm offset (offset + c.(constants.HASH_SIZE)))
        <$> offsets
  | None => []
  end.

(** ** The value of a float *)

(** The rational number a finite binary64 value stands for. *)
Definition float_value (x : float) : option Q :=
  match Prim2SF x with
  | S754_zero _ => Some 0%Q
  | S754_finite s m e =>
      let v := (inject_Z (Z.pos m) * Qpower 2 e)%Q in
      Some (if s then (- v)%Q else v)
  | _ => None
  end.

(** Rounding towards zero. *)
Definition Qtrunc (v : Q) : Z :=
  if Qle_bool 0 v then Qfloor v else Qceiling v.

(** ** The bits of a key in a filter *)

(** The positions that [add] sets and [check] reads for the key [k]:
    one per seed from 0 to [hash_count - 1]. *)
Definition digests (mmh3_hash : bytes → Z → Z) (self : bloomfilter.BloomFilter)
    (k : bytes) : list nat :=
  (λ seed, Z.to_nat (Z.land (mmh3_hash k seed) 0xFFFFFFFF
                     `mod` Z.of_nat (length (bloomfilter.bit_array self))))
    <$> seqZ 0 (bloomfilter.hash_count self).

(** The filter holds the key [k]: every bit that [check] reads for [k]
    is set. *)
Definition holds (mmh3_hash : bytes → Z → Z) (self : bloomfilter.BloomFilter)
    (k : bytes) : Prop :=
  ∀ j, j ∈ digests mmh3_hash self k →
       bloomfilter.bit_array self !! j = Some true.

(** ** The sizing of the filter as the specification words it *)

Module spec_filter.

(** Modelled from the spec: the number of bits [m] is the ceiling of the
    size [-(n + 24) ln p / (ln 2)^2]. *)
Definition bits (size : Q) : Z := Qceiling size.

(** Modelled from the spec: the number of hashes is
    [max(1, floor((m / n) ln 2))], from the number of bits [m]. *)
Definition hashes (m n : Z) (ln2 : Q) : Z :=
  Z.max 1 (Qfloor (inject_Z m / inject_Z n * ln2)%Q).

End spec_filter.

(** ** The libraries of the client at sample arguments *)

Module mmh3.

(** MurmurHash3 (x86, 32 bits), which [mmh3.hash] computes: the result
    is read as a signed 32-bit integer. *)
Definition wrap32 (x : Z) : Z := Z.land x 0xFFFFFFFF.

Definition rotl32 (x r : Z) : Z :=
  wrap32 (Z.lor (Z.shiftl x r) (Z.shiftr x (32 - r))).

Definition mix (k : Z) : Z :=
  wrap32 (rotl32 (wrap32 (k * 0xcc9e2d51)) 15 * 0x1b873593).

Definition byte_val (b : byte) : Z := Z.of_N (Byte.to_N b).

Fixpoint blocks (data : bytes) (h : Z) : Z :=
  match data with
  | b0 :: b1 :: b2 :: b3 :: rest =>
      let k := Z.lor (Z.lor (byte_val b0) (Z.shiftl (byte_val b1) 8))
                     (Z.lor (Z.shiftl (byte_val b2) 16)
                            (Z.shiftl (byte_val b3) 24)) in
      let h := rotl32 (Z.lxor h (mix k)) 13 in
      blocks rest (wrap32 (h * 5 + 0xe6546b64))
  | [b0; b1; b2] =>
      Z.lxor h (mix (Z.lor (Z.lor (byte_val b0) (Z.shiftl (byte_val b1) 8))
                           (Z.shiftl (byte_val b2) 16)))
  | [b0; b1] => Z.lxor h (mix (Z.lor (byte_val b0) (Z.shiftl (byte_val b1) 8)))
  | [b0] => Z.lxor h (mix (byte_val b0))
  | [] => h
  end.

Definition fmix32 (h : Z) : Z :=
  let h := Z.lxor h (Z.shiftr h 16) in
  let h := wrap32 (h * 0x85ebca6b) in
  let h := Z.lxor h (Z.shiftr h 13) in
  let h := wrap32 (h * 0xc2b2ae35) in
  Z.lxor h (Z.shiftr h 16).

Definition hash (data : bytes) (seed : Z) : Z :=
  let h := fmix32 (Z.lxor (blocks data (wrap32 seed)) (Bytes.len data)) in
  if h <? 0x80000000 then h else h - 0x100000000.

End mmh3.

Module libm.

(** Modelled from the spec: the false-positive rate [p = 0.01]. *)
Definition BF_FP_PROBABILITY : float := 0x1.47ae147ae147bp-7%float.

(** [math.log] at the two arguments the constructor passes, as the C
    library rounds them to binary64. *)
Definition math_log (x : float) : float :=
  if (x =? 2)%float then 0x1.62e42fefa39efp-1%float
  else if (x =? BF_FP_PROBABILITY)%float then (-0x1.26bb1bbb55515p+2)%float
  else nan.

(** [x ** 2.0]. *)
Definition float_pow (x y : float) : float :=
  if (y =? 2)%float then (x * x)%float else nan.

End libm.

(** ** SHA-256 *)

(** [hashlib.sha256(data).digest()] (FIPS 180-4), to run the client on
    sample URLs. *)
Module hashlib.

(** The first 64 primes. *)
Definition is_prime (n : Z) : bool :=
  forallb (λ d, negb (n mod d =? 0) || (n <=? d)) (seqZ 2 (Z.sqrt n)).

Definition primes : list Z := filter (λ n, is_prime n = true) (seqZ 2 310).

(** The largest [r] below [2 ^ bits] with [r ^ 3 <= n], bit by bit. *)
Fixpoint cube_root (bits : nat) (n r : Z) : Z :=
  match bits with
  | O => r
  | S bits =>
      let r' := r + 2 ^ Z.of_nat bits in
      cube_root bits n (if r' * r' * r' <=? n then r' else r)
  end.

(** The round constants: the first 32 bits of the fractional parts of
    the cube roots of the primes; the initial hash value: those of the
    square roots of the first 8 primes. *)
Definition K : list Z :=
  Eval vm_compute in
    (λ p, cube_root 36 (p * 2 ^ 96) 0 mod 2 ^ 32) <$> primes.

Definition H0 : list Z :=
  Eval vm_compute in
    (λ p, Z.sqrt (p * 2 ^ 64) mod 2 ^ 32) <$> take 8 primes.

Definition wrap32 (x : Z) : Z := Z.land x 0xFFFFFFFF.
Definition rotr (x n : Z) : Z :=
  wrap32 (Z.lor (Z.shiftr x n) (Z.shiftl x (32 - n))).
Definition Ch (x y z : Z) : Z :=
  Z.lxor (Z.land x y) (Z.land (Z.lxor x 0xFFFFFFFF) z).
Definition Maj (x y z : Z) : Z :=
  Z.lxor (Z.lxor (Z.land x y) (Z.land x z)) (Z.land y z).
Definition Sigma0 (x : Z) : Z := Z.lxor (Z.lxor (rotr x 2) (rotr x 13)) (rotr x 22).
Definition Sigma1 (x : Z) : Z := Z.lxor (Z.lxor (rotr x 6) (rotr x 11)) (rotr x 25).
Definition sigma0 (x : Z) : Z := Z.lxor (Z.lxor (rotr x 7) (rotr x 18)) (Z.shiftr x 3).
Definition sigma1 (x : Z) : Z := Z.lxor (Z.lxor (rotr x 17) (rotr x 19)) (Z.shiftr x 10).

Definition byte_val (b : byte) : Z := Z.of_N (Byte.to_N b).
Definition byte_of (x : Z) : byte :=
  default Byte.x00 (Byte.of_N (Z.to_N (Z.land x 0xFF))).

(** The big-endian bytes of a word of [n] bytes. *)
Fixpoint be_bytes (n : nat) (x : Z) : bytes :=
  match n with
  | O => []
  | S n => byte_of (Z.shiftr x (8 * Z.of_nat n)) :: be_bytes n x
  end.

(** The big-endian words of a block. *)
Fixpoint words (data : bytes) : list Z :=
  match data with
  | b0 :: b1 :: b2 :: b3 :: data =>
      Z.lor (Z.shiftl (byte_val b0) 24)
        (Z.lor (Z.shiftl (byte_val b1) 16)
           (Z.lor (Z.shiftl (byte_val b2) 8) (byte_val b3)))
      :: words data
  | _ => []
  end.

(** The message schedule: [w] holds the words so far, the last one
    first. *)
Fixpoint schedule (n : nat) (w : list Z) : list Z :=
  match n with
  | O => w
  | S n =>
      schedule n
        (wrap32 (sigma1 (nth 1 w 0) + nth 6 w 0 + sigma0 (nth 14 w 0) + nth 15 w 0)
         :: w)
  end.

Definition round (s : list Z) (kw : Z * Z) : list Z :=
  match s with
  | [a; b; c; d; e; f; g; h] =>
      let t1 := h + Sigma1 e + Ch e f g + kw.1 + kw.2 in
      let t2 := Sigma0 a + Maj a b c in
      [wrap32 (t1 + t2); a; b; c; wrap32 (d + t1); e; f; g]
  | _ => s
  end.

Definition compress (h : list Z) (block : bytes) : list Z :=
  let w := rev (schedule 48 (rev (words block))) in
  zip_with (λ x y, wrap32 (x + y)) h (foldl round h (zip K w)).

Fixpoint blocks (n : nat) (data : bytes) (h : list Z) : list Z :=
  match n with
  | O => h
  | S n => blocks n (drop 64 data) (compress h (take 64 data))
  end.

Definition pad (data : bytes) : bytes :=
  let l := Z.of_nat (length data) in
  data ++ [Byte.x80] ++ replicate (Z.to_nat ((55 - l) mod 64)) Byte.x00
       ++ be_bytes 8 (8 * l).

Definition sha256 (data : bytes) : bytes :=
  let m := pad data in
  mjoin (be_bytes 4 <$> blocks (length m / 64) m H0).

(** [sha256(url.encode("utf-8")).digest()]. *)
Definition sha256_str (url : string) : bytes := sha256 (list_byte_of_string url).

End hashlib.

(** ** Sequences of submissions *)

(** The handler of [POST /submit-malicious-url] run on each key in turn,
    on the same day, with the responses. *)
Fixpoint submit_all (c : constants.Constants) (today : string) (ks : list bytes)
  : server_main.Ms (list (option server_main.Response)) :=
  match ks with
  | [] => mret []
  | k :: ks =>
      r ← server_main.submit_malicious_url c today k;
      rs ← submit_all c today ks;
      mret (r :: rs)
  end.

(** ** Sample keys *)

Module samples.

Definition k1 : bytes := [Byte.x01].
Definition k2 : bytes := [Byte.x02].
Definition k3 : bytes := [Byte.x03].
Definition k4 : bytes := [Byte.x04].

(** Keys of 32 bytes, named by their first byte. *)
Definition h32 (b : byte) : bytes := b :: replicate 31 Byte.x00.

(** An index file of three keys of partition 2, and the files of a
    server that holds it, where the reader of partition 2 looks for
    it. *)
Definition idx_keys : list bytes := [h32 Byte.x81; h32 Byte.x82; h32 Byte.x83].

Definition idx_fs : idx_reader.FS :=
  idx_reader.mkFS {[ 3 := [concat idx_keys] ]} ∅.



(** The files of a server whose last partition holds one key in its
    write-ahead log and one index file, and the state the server starts
    with on them. *)
Definition day : string := "2024-01-01".

Definition last_fs : idx_reader.FS :=
  idx_reader.mkFS {[ 4 := [h32 Byte.xc2] ]} {[ 4 := h32 Byte.xc1 ]}.

Definition last_state : server_main.ServerState :=
  match server_main.lifespan constants.small_constants day last_fs with
  | Ok st _ => st
  | _ => server_main.mkServerState [] [] day last_fs
  end.

(** A server of four partitions with [N = 3] whose directories
    [db/partition0] to [db/partition4] exist and are empty, and the state
    it is in after it has started and accepted the keys [ks]. *)
Definition empty_fs : idx_reader.FS :=
  idx_reader.mkFS {[ 0 := []; 1 := []; 2 := []; 3 := []; 4 := [] ]} ∅.

Definition served (ks : list bytes) : server_main.ServerState :=
  match server_main.lifespan constants.small_constants day empty_fs with
  | Ok st _ =>
      match submit_all constants.small_constants day ks st with
      | Ok _ st' => st'
      | _ => st
      end
  | _ => server_main.mkServerState [] [] day empty_fs
  end.

(** The memtable that holds the keys [ks]. *)
Definition memtable_of (ks : list bytes) : memtable.MemTable :=
  match shape.insert_all ks memtable.new_MemTable with
  | Ok _ mt => mt
  | _ => memtable.new_MemTable
  end.

(** The day after [day]. *)
Definition next_day : string := "2024-01-02".

(** The directories that the readers of a server of four partitions
    read, [db/partition1] to [db/partition4], all empty: there is no
    [db/partition0]. *)
Definition repo_fs : idx_reader.FS :=
  idx_reader.mkFS {[ 1 := []; 2 := []; 3 := []; 4 := [] ]} ∅.

(** The state of a server that has started on the files [fs0] and
    accepted the keys [ks]. *)
Definition served_on (fs0 : idx_reader.FS) (ks : list bytes)
  : server_main.ServerState :=
  match server_main.lifespan constants.small_constants day fs0 with
  | Ok st _ =>
      match submit_all constants.small_constants day ks st with
      | Ok _ st' => st'
      | _ => st
      end
  | _ => server_main.mkServerState [] [] day fs0
  end.

(** The state of a server that is started again, on the same day, on the
    files that [st] has left. *)
Definition restarted (st : server_main.ServerState) : server_main.ServerState :=
  match server_main.lifespan constants.small_constants day (server_main.fs st) with
  | Ok st' _ => st'
  | _ => st
  end.

(** A URL whose hash starts with the byte [8e], of partition 2, and one
    whose hash starts with [0d], of partition 0. *)
Definition url : string := "http://malware.example/download.exe".
Definition url' : string := "http://phishing.example/login".

(** A filter of 3 hashes and 64 clear bits, and a client with the filter
    [bf] and no saved filter, in front of the server [st]. *)
Definition filter0 : bloomfilter.BloomFilter :=
  bloomfilter.mkBloomFilter 3 (replicate 64 false).

Definition world (bf : option bloomfilter.BloomFilter)
    (st : server_main.ServerState) : client.World :=
  client.mkWorld (client.mkClient bf None) st.

(** Prefixes of four bytes. *)
Definition p1 : bytes := [Byte.xde; Byte.xad; Byte.xbe; Byte.xef].
Definition p2 : bytes := [Byte.x00; Byte.x01; Byte.x02; Byte.x03].
Definition p3 : bytes := [Byte.xff; Byte.x10; Byte.x20; Byte.x30].

End samples.

(** * The order on byte strings *)

Section bytes_order.

Lemma to_N_inj (x y : byte) : Byte.to_N x = Byte.to_N y → x = y.
Proof.
  intros H. assert (Some x = Some y) as [= ->]; [|done].
  by rewrite <-(Byte.of_to_N x), <-(Byte.of_to_N y), H.
Qed.

Lemma bytes_eqb_eq (a b : bytes) : a =?b b = true ↔ a = b.
Proof.
  revert b. induction a as [|x a IH]; intros [|y b]; simpl; try done.
  rewrite andb_true_iff, IH. split.
  - intros [H ->]. by rewrite (Byte.byte_dec_bl _ _ H).
  - intros [= -> ->]. split; [by apply Byte.byte_dec_lb|done].
Qed.

Lemma bytes_eqb_refl (a : bytes) : a =?b a = true.
Proof. by apply bytes_eqb_eq. Qed.

Lemma bytes_eqb_neq (a b : bytes) : a =?b b = false ↔ a ≠ b.
Proof.
  rewrite <-bytes_eqb_eq. destruct (a =?b b); split; congruence.
Qed.

Lemma bytes_ltb_irrefl (a : bytes) : a <?b a = false.
Proof.
  induction a as [|x a IH]; simpl; [done|].
  by rewrite N.ltb_irrefl, N.eqb_refl.
Qed.

Lemma bytes_ltb_trans (a b c : bytes) :
  a <?b b = true → b <?b c = true → a <?b c = true.
Proof.
  revert b c. induction a as [|x a IH]; intros [|y b] [|z c]; simpl; try done.
  destruct (N.ltb_spec (Byte.to_N x) (Byte.to_N y)),
           (N.ltb_spec (Byte.to_N y) (Byte.to_N z)),
           (N.ltb_spec (Byte.to_N x) (Byte.to_N z));
    destruct (N.eqb_spec (Byte.to_N x) (Byte.to_N y)),
             (N.eqb_spec (Byte.to_N y) (Byte.to_N z)),
             (N.eqb_spec (Byte.to_N x) (Byte.to_N z));
    try done; try lia.
  apply IH.
Qed.

Lemma bytes_ltb_total (a b : bytes) :
  a <?b b = true ∨ a = b ∨ b <?b a = true.
Proof.
  revert b. induction a as [|x a IH]; intros [|y b]; simpl; auto.
  destruct (N.ltb_spec (Byte.to_N x) (Byte.to_N y)); [auto|].
  destruct (N.ltb_spec (Byte.to_N y) (Byte.to_N x)); [auto|].
  assert (Byte.to_N x = Byte.to_N y) as Hxy by lia.
  rewrite Hxy, N.eqb_refl. apply to_N_inj in Hxy as ->.
  destruct (IH b) as [?|[->|?]]; auto.
Qed.

Lemma bytes_ltb_asym (a b : bytes) : a <?b b = true → b <?b a = false.
Proof.
  intros Hab. destruct (b <?b a) eqn:Hba; [|done].
  by rewrite <-(bytes_ltb_irrefl a), (bytes_ltb_trans a b a).
Qed.

Lemma bytes_ltb_ne (a b : bytes) : a <?b b = true → a ≠ b.
Proof. intros H ->. by rewrite bytes_ltb_irrefl in H. Qed.

(** [a <= b] is [a < b or a == b]. *)
Lemma bytes_leb_iff (a b : bytes) : a <=?b b = true ↔ a <?b b = true ∨ a = b.
Proof.
  unfold Bytes.leb. rewrite negb_true_iff. split.
  - intros H. destruct (bytes_ltb_total a b) as [?|[?|?]]; auto; congruence.
  - intros [H| ->]; [by apply bytes_ltb_asym|apply bytes_ltb_irrefl].
Qed.

Lemma bytes_ltb_false (a b : bytes) : a <?b b = false ↔ b <=?b a = true.
Proof. unfold Bytes.leb. by rewrite negb_true_iff. Qed.

#[global] Instance bytes_lt_strict : StrictOrder Bytes.lt.
Proof.
  split.
  - intros a H. unfold Bytes.lt in H. by rewrite bytes_ltb_irrefl in H.
  - intros a b c. apply bytes_ltb_trans.
Qed.

#[global] Instance bytes_lt_dec (a b : bytes) : Decision (Bytes.lt a b).
Proof. unfold Bytes.lt. apply _. Defined.

End bytes_order.

(** [data[:n]] for [0 <= n]. *)
Lemma prefix_take (data : bytes) (n : Z) :
  0 ≤ n → Bytes.prefix data n = take (Z.to_nat n) data.
Proof.
  intros Hn. unfold Bytes.prefix, Bytes.slice.
  assert (Bytes.clamp (Bytes.len data) 0 = 0) as ->.
  { unfold Bytes.clamp, Bytes.len. simpl. lia. }
  assert (Bytes.clamp (Bytes.len data) n = Z.min n (Bytes.len data)) as ->.
  { unfold Bytes.clamp, Bytes.len. rewrite (proj2 (Z.ltb_ge n 0)) by lia. lia. }
  rewrite Z.sub_0_r. simpl. rewrite drop_0. unfold Bytes.len.
  destruct (decide (n ≤ Z.of_nat (length data))).
  - by rewrite Z.min_l by lia.
  - rewrite Z.min_r by lia. rewrite Nat2Z.id. by rewrite !take_ge by lia.
Qed.

(** * Reasoning about the store *)

Import memtable shape.

Section wp_rules.
Context {S : Type}.

Lemma wp_bind {A B} (m : M S A) (k : A → M S B) s Q :
  wp m s (λ a s', wp (k a) s' Q) → wp (m ≫= k) s Q.
Proof.
  unfold wp, mbind, M_bind, bind. by destruct (m s).
Qed.

Lemma wp_ret {A} (a : A) (s : S) Q : Q a s → wp (mret a) s Q.
Proof. done. Qed.

Lemma wp_mono {A} (m : M S A) s (Q Q' : A → S → Prop) :
  wp m s Q → (∀ a s', Q a s' → Q' a s') → wp m s Q'.
Proof. unfold wp. destruct (m s); naive_solver. Qed.

Lemma wp_inv {A} (m : M S A) s Q :
  wp m s Q → ∃ a s', m s = Ok a s' ∧ Q a s'.
Proof. unfold wp. destruct (m s); naive_solver. Qed.

Lemma wp_intro {A} (m : M S A) s Q a s' :
  m s = Ok a s' → Q a s' → wp m s Q.
Proof. unfold wp. by intros ->. Qed.

Lemma wp_get_state (s : S) Q : Q s s → wp get_state s Q.
Proof. done. Qed.

End wp_rules.

Section store_rules.
Implicit Types (s : MemTable) (r : ref) (n : Node).

Lemma wp_load s r n Q :
  heap s !! r = Some n → Q n s → wp (load (Some r)) s Q.
Proof. unfold wp, load. by intros ->. Qed.

Lemma wp_store s r n f Q :
  heap s !! r = Some n → Q tt (upd s r (f n)) → wp (store (Some r) f) s Q.
Proof. unfold wp, store. by intros ->. Qed.

Lemma wp_get_parent s r n Q :
  heap s !! r = Some n → Q (parent n) s → wp (get_parent (Some r)) s Q.
Proof. intros. apply wp_bind. by eapply wp_load. Qed.

Lemma wp_get_left s r n Q :
  heap s !! r = Some n → Q (left n) s → wp (get_left (Some r)) s Q.
Proof. intros. apply wp_bind. by eapply wp_load. Qed.

Lemma wp_get_right s r n Q :
  heap s !! r = Some n → Q (right n) s → wp (get_right (Some r)) s Q.
Proof. intros. apply wp_bind. by eapply wp_load. Qed.

Lemma wp_get_red s r n Q :
  heap s !! r = Some n → Q (red n) s → wp (get_red (Some r)) s Q.
Proof. intros. apply wp_bind. by eapply wp_load. Qed.

Lemma wp_get_key s r n Q :
  heap s !! r = Some n → Q (key n) s → wp (get_key (Some r)) s Q.
Proof. intros. apply wp_bind. by eapply wp_load. Qed.

Lemma wp_set_parent s r n v Q :
  heap s !! r = Some n →
  Q tt (upd s r (mkNode v (left n) (right n) (red n) (key n))) →
  wp (set_parent (Some r) v) s Q.
Proof. intros. by eapply wp_store. Qed.

Lemma wp_set_left s r n v Q :
  heap s !! r = Some n →
  Q tt (upd s r (mkNode (parent n) v (right n) (red n) (key n))) →
  wp (set_left (Some r) v) s Q.
Proof. intros. by eapply wp_store. Qed.

Lemma wp_set_right s r n v Q :
  heap s !! r = Some n →
  Q tt (upd s r (mkNode (parent n) (left n) v (red n) (key n))) →
  wp (set_right (Some r) v) s Q.
Proof. intros. by eapply wp_store. Qed.

Lemma wp_set_red s r n v Q :
  heap s !! r = Some n →
  Q tt (upd s r (mkNode (parent n) (left n) (right n) v (key n))) →
  wp (set_red (Some r) v) s Q.
Proof. intros. by eapply wp_store. Qed.

Lemma wp_set_key s r n v Q :
  heap s !! r = Some n →
  Q tt (upd s r (mkNode (parent n) (left n) (right n) (red n) v)) →
  wp (set_key (Some r) v) s Q.
Proof. intros. by eapply wp_store. Qed.

Lemma wp_get_root s Q : Q (root s) s → wp get_root s Q.
Proof. done. Qed.

Lemma wp_set_root s v Q :
  Q tt (mkMemTable (heap s) (next s) v (elements s)) → wp (set_root v) s Q.
Proof. done. Qed.

Lemma wp_get_fuel s Q : Q (fuel_of s) s → wp get_fuel s Q.
Proof. done. Qed.

Lemma wp_new_Node s c (pa le ri : pyobj) Q :
  Q (Some (next s))
    (mkMemTable (<[next s := mkNode pa le ri c None]> (heap s)) (S (next s))
                (root s) (elements s)) →
  wp (new_Node c pa le ri) s Q.
Proof. done. Qed.

Lemma wp_get_elements s Q : Q (elements s) s → wp get_elements s Q.
Proof. done. Qed.

Lemma wp_set_elements s v Q :
  Q tt (mkMemTable (heap s) (next s) (root s) v) → wp (set_elements v) s Q.
Proof. done. Qed.

End store_rules.

(** ** Trees with a hole *)

Section plug.
Implicit Types (t n : tree) (ctx : list frame) (f : frame) (h : gmap nat Node).

Lemma refs_fill f t : refs (fill f t) = {[f_ref f]} ∪ refs (f_sib f) ∪ refs t.
Proof. unfold fill. destruct (f_dir f); simpl; set_solver. Qed.

Lemma refs_plug t ctx : refs (plug t ctx) = refs t ∪ ctx_refs ctx.
Proof.
  revert t. induction ctx as [|f ctx IH]; intros t; simpl.
  - set_solver.
  - rewrite IH, refs_fill. set_solver.
Qed.

Lemma wf_fill f t :
  wf (fill f t) ↔
    (f_ref f ∉ refs (f_sib f)) ∧ (f_ref f ∉ refs t) ∧
    (refs (f_sib f) ## refs t) ∧ wf (f_sib f) ∧ wf t.
Proof. unfold fill. destruct (f_dir f); simpl; set_solver. Qed.

Lemma wf_plug t ctx :
  wf (plug t ctx) ↔ wf t ∧ wf_ctx ctx ∧ refs t ## ctx_refs ctx.
Proof.
  revert t. induction ctx as [|f ctx IH]; intros t; simpl.
  - set_solver.
  - rewrite IH, wf_fill, refs_fill. set_solver.
Qed.

Lemma keys_fill f t :
  keys (fill f t) =
    match f_dir f with
    | L => keys t ++ f_key f :: keys (f_sib f)
    | R => keys (f_sib f) ++ f_key f :: keys t
    end.
Proof. unfold fill. by destruct (f_dir f). Qed.

Lemma keys_plug t ctx : keys (plug t ctx) = lkeys ctx ++ keys t ++ rkeys ctx.
Proof.
  revert t. induction ctx as [|f ctx IH]; intros t; simpl.
  - by rewrite app_nil_r.
  - rewrite IH, keys_fill. destruct (f_dir f); simpl.
    + by rewrite app_nil_r, <-!app_assoc.
    + by rewrite <-!app_assoc.
Qed.

Lemma ptr_fill f t : ptr (fill f t) = Some (f_ref f).
Proof. unfold fill. by destruct (f_dir f). Qed.

Lemma ptr_plug t ctx : ptr (plug t ctx) = ctx_root ctx (ptr t).
Proof.
  revert t. induction ctx as [|f ctx IH]; intros t; [done|].
  simpl. rewrite IH, ptr_fill. unfold ctx_root.
  destruct ctx as [|f' ctx]; [done|]. rewrite last_cons_cons.
  destruct (last (f' :: ctx)) eqn:E; [done|]. by apply last_None in E.
Qed.

Lemma own_fill h par f t :
  own h par (fill f t) ↔
    h !! f_ref f =
      Some (mkNode par
                   (match f_dir f with L => ptr t | R => ptr (f_sib f) end)
                   (match f_dir f with L => ptr (f_sib f) | R => ptr t end)
                   (f_red f) (Some (f_key f))) ∧
    own h (Some (f_ref f)) (f_sib f) ∧ own h (Some (f_ref f)) t.
Proof. unfold fill. destruct (f_dir f); simpl; naive_solver. Qed.

Lemma own_plug h t ctx :
  own h None (plug t ctx) ↔ own h (ctx_parent ctx) t ∧ own_ctx h ctx (ptr t).
Proof.
  revert t. induction ctx as [|f ctx IH]; intros t; simpl.
  - naive_solver.
  - rewrite IH, own_fill, ptr_fill. naive_solver.
Qed.

Lemma own_insert_ne h par t x nd :
  x ∉ refs t → own h par t → own (<[x := nd]> h) par t.
Proof.
  revert par. induction t as [|y c l IHl k r IHr]; intros par Hx; simpl; [done|].
  simpl in Hx. intros (Hy & Hl & Hr). split_and!.
  - rewrite lookup_insert_ne; [done|set_solver].
  - apply IHl; [set_solver|done].
  - apply IHr; [set_solver|done].
Qed.

Lemma own_ctx_insert_ne h ctx child x nd :
  x ∉ ctx_refs ctx → own_ctx h ctx child → own_ctx (<[x := nd]> h) ctx child.
Proof.
  revert child. induction ctx as [|f ctx IH]; intros child Hx; simpl; [done|].
  simpl in Hx. intros (Hf & Hs & Hc). split_and!.
  - rewrite lookup_insert_ne; [done|set_solver].
  - apply own_insert_ne; [set_solver|done].
  - apply IH; [set_solver|done].
Qed.

Lemma black_root_plug t t' ctx :
  ctx ≠ [] → black_root (plug t ctx) → black_root (plug t' ctx).
Proof.
  revert t t'. induction ctx as [|f ctx IH]; intros t t' Hne; [done|].
  simpl. destruct ctx as [|f' ctx].
  - simpl. unfold fill. by destruct (f_dir f).
  - by apply IH.
Qed.

Lemma keys_blacken t : keys (blacken t) = keys t.
Proof. by destruct t. Qed.

Lemma refs_blacken t : refs (blacken t) = refs t.
Proof. by destruct t. Qed.

Lemma black_root_blacken t : black_root (blacken t).
Proof. by destruct t. Qed.

Lemma height_plug t ctx : (length ctx + height t ≤ height (plug t ctx))%nat.
Proof.
  revert t. induction ctx as [|f ctx IH]; intros t; simpl; [lia|].
  etrans; [|apply IH]. unfold fill. destruct (f_dir f); simpl; lia.
Qed.

End plug.

(** ** The representation invariant and its tactics *)

Lemma bounded_mono X Y n m : X ⊆ Y → (n ≤ m)%nat → bounded Y n → bounded X m.
Proof.
  intros HX Hn [H0 HY]. split; [lia|].
  intros x Hx. specialize (HY x (HX x Hx)). lia.
Qed.

Lemma bounded_nil X n : bounded X n → NIL_ref ∉ X.
Proof. intros [_ HX] H0. specialize (HX _ H0). unfold NIL_ref in HX. lia. Qed.

Lemma bounded_alloc X Y n : Y ⊆ {[n]} ∪ X → bounded X n → bounded Y (S n).
Proof.
  intros HY [H0 HX]. split; [lia|]. intros y [->%elem_of_singleton|Hy]%HY%elem_of_union.
  - lia.
  - specialize (HX _ Hy). lia.
Qed.

Lemma bounded_fresh X n : bounded X n → n ∉ X ∧ NIL_ref ≠ n.
Proof.
  intros [H0 HX]. split; [|unfold NIL_ref; lia].
  intros Hn. specialize (HX _ Hn). lia.
Qed.

Lemma rep_plug s t ctx :
  rep s (plug t ctx) ↔
    own (heap s) (ctx_parent ctx) t ∧ own_ctx (heap s) ctx (ptr t) ∧
    root s = ctx_root ctx (ptr t) ∧
    wf t ∧ wf_ctx ctx ∧ refs t ## ctx_refs ctx ∧
    nil_ok (heap s) ∧
    bounded (refs t ∪ ctx_refs ctx) (next s).
Proof.
  split.
  - intros [Ho Hr Hw Hn Hb]. rewrite own_plug in Ho. rewrite ptr_plug in Hr.
    rewrite wf_plug in Hw. rewrite refs_plug in Hb. naive_solver.
  - intros (?&?&?&?&?&?&?&?). split; [by apply own_plug|by rewrite ptr_plug
      |by apply wf_plug|done|by rewrite refs_plug].
Qed.

Lemma ctx_root_cons f ctx :
  ∃ r, (∀ child, ctx_root (f :: ctx) child = Some r) ∧ r ∈ ctx_refs (f :: ctx).
Proof.
  revert f. induction ctx as [|f' ctx IH]; intros f.
  - exists (f_ref f). split; [done|]. simpl. set_solver.
  - destruct (IH f') as (r & Hr & Hin). exists r. split.
    + intros child. specialize (Hr child). unfold ctx_root in *.
      by rewrite last_cons_cons.
    + simpl in *. set_solver.
Qed.

Lemma ctx_root_refs ctx ctx' child :
  f_ref <$> ctx = f_ref <$> ctx' → ctx_root ctx child = ctx_root ctx' child.
Proof.
  unfold ctx_root. intros H.
  assert (f_ref <$> last ctx = f_ref <$> last ctx') as Hl
    by (by rewrite <-!fmap_last, H).
  destruct (last ctx), (last ctx'); simplify_eq/=; congruence.
Qed.

(** Normal form of the facts on references: disjointness and
    non-membership of unions are split into facts on single references
    and single subtrees. *)
Ltac set_norm :=
  repeat match goal with
         | H : _ ∧ _ |- _ => destruct H
         | H : True |- _ => clear H
         | H : _ ∪ _ ## _ |- _ => apply disjoint_union_l in H
         | H : _ ## _ ∪ _ |- _ => apply disjoint_union_r in H
         | H : {[_]} ## _ |- _ => apply disjoint_singleton_l in H
         | H : _ ## {[_]} |- _ => apply disjoint_singleton_r in H
         | H : ∅ ## _ |- _ => clear H
         | H : _ ## ∅ |- _ => clear H
         | H : _ ∉ _ ∪ _ |- _ => apply not_elem_of_union in H
         | H : _ ∉ {[_]} |- _ => apply not_elem_of_singleton in H
         | H : _ ∉ ∅ |- _ => clear H
         end.

Ltac set_solve :=
  repeat match goal with
         | |- _ ∧ _ => split
         | |- True => exact I
         | |- _ ∪ _ ## _ => apply disjoint_union_l
         | |- _ ## _ ∪ _ => apply disjoint_union_r
         | |- {[_]} ## _ => apply disjoint_singleton_l
         | |- _ ## {[_]} => apply disjoint_singleton_r
         | |- ∅ ## _ => apply disjoint_empty_l
         | |- _ ## ∅ => apply disjoint_empty_r
         | |- _ ∉ _ ∪ _ => apply not_elem_of_union
         | |- _ ∉ {[_]} => apply not_elem_of_singleton
         | |- _ ∉ ∅ => apply not_elem_of_empty
         | |- _ => first [ assumption | symmetry; assumption ]
         end.

Ltac solve_ne := first [ assumption | symmetry; assumption | solve [set_solve] ].

Lemma Some_ne (x y : nat) : x ≠ y → Some x ≠ Some y.
Proof. congruence. Qed.

Lemma ptr_ne x t : NIL_ref ≠ x → x ∉ refs t → Some x ≠ ptr t.
Proof. destruct t; simpl; [unfold NIL; congruence|]. set_solver. Qed.

Lemma ctx_root_cons_eq f ctx child :
  ctx_root (f :: ctx) child = ctx_root ctx (Some (f_ref f)).
Proof.
  unfold ctx_root. destruct ctx as [|f' ctx]; [done|].
  rewrite last_cons_cons. destruct (last (f' :: ctx)) eqn:E; [done|].
  by apply last_None in E.
Qed.

Ltac solve_neq :=
  first [ discriminate | apply Some_ne; solve_ne
        | apply ptr_ne; solve_ne
        | apply not_eq_sym, ptr_ne; solve_ne ].

Ltac solve_lookup :=
  cbn [heap upd];
  repeat first [ rewrite lookup_insert_eq | rewrite lookup_insert_ne by solve_ne ];
  first [ eassumption | reflexivity ].

Ltac wp_step :=
  lazymatch goal with
  | |- wp (get_parent (Some _)) _ _ => eapply wp_get_parent; [solve_lookup|cbn [parent left right red key ptr]]
  | |- wp (get_left (Some _)) _ _ => eapply wp_get_left; [solve_lookup|cbn [parent left right red key ptr]]
  | |- wp (get_right (Some _)) _ _ => eapply wp_get_right; [solve_lookup|cbn [parent left right red key ptr]]
  | |- wp (get_red (Some _)) _ _ => eapply wp_get_red; [solve_lookup|cbn [parent left right red key ptr]]
  | |- wp (get_key (Some _)) _ _ => eapply wp_get_key; [solve_lookup|cbn [parent left right red key ptr]]
  | |- wp (set_parent (Some _) _) _ _ => eapply wp_set_parent; [solve_lookup|cbn [parent left right red key ptr]]
  | |- wp (set_left (Some _) _) _ _ => eapply wp_set_left; [solve_lookup|cbn [parent left right red key ptr]]
  | |- wp (set_right (Some _) _) _ _ => eapply wp_set_right; [solve_lookup|cbn [parent left right red key ptr]]
  | |- wp (set_red (Some _) _) _ _ => eapply wp_set_red; [solve_lookup|cbn [parent left right red key ptr]]
  | |- wp (set_key (Some _) _) _ _ => eapply wp_set_key; [solve_lookup|cbn [parent left right red key ptr]]
  | |- wp (get_parent _) _ _ => fail "get_parent of an unknown object"
  | |- wp (get_left _) _ _ => fail "get_left of an unknown object"
  | |- wp (get_right _) _ _ => fail "get_right of an unknown object"
  | |- wp (get_red _) _ _ => fail "get_red of an unknown object"
  | |- wp (get_key _) _ _ => fail "get_key of an unknown object"
  | |- wp (set_parent _ _) _ _ => fail "set_parent of an unknown object"
  | |- wp (set_left _ _) _ _ => fail "set_left of an unknown object"
  | |- wp (set_right _ _) _ _ => fail "set_right of an unknown object"
  | |- wp (set_red _ _) _ _ => fail "set_red of an unknown object"
  | |- wp (set_key _ _) _ _ => fail "set_key of an unknown object"
  | |- wp get_root _ _ =>
      apply wp_get_root; cbn [root upd];
      try match goal with H : root _ = _ |- _ => rewrite H end;
      try match goal with H : ∀ c, ctx_root _ c = _ |- _ => rewrite H end
  | |- wp (set_root _) _ _ => apply wp_set_root
  | |- wp get_elements _ _ => apply wp_get_elements; cbn [elements upd]
  | |- wp get_fuel _ _ => apply wp_get_fuel
  | |- wp (set_elements _) _ _ => apply wp_set_elements
  | |- wp (if decide (?a = ?b) then _ else _) _ _ =>
      first [ rewrite (decide_True (P:=(a = b))) by reflexivity
            | rewrite (decide_False (P:=(a = b))) by solve_neq ]
  | |- wp (if decide (?a ≠ ?b) then _ else _) _ _ =>
      first [ rewrite (decide_False (P:=(a ≠ b))) by (let HH := fresh in intros HH; by apply HH)
            | rewrite (decide_True (P:=(a ≠ b))) by solve_neq ]
  | |- wp (mret _) _ _ => apply wp_ret
  | |- wp (mbind ?k ?m) _ _ =>
      lazymatch m with
      | get_parent (Some _) => apply wp_bind
      | get_left (Some _) => apply wp_bind
      | get_right (Some _) => apply wp_bind
      | get_red (Some _) => apply wp_bind
      | get_key (Some _) => apply wp_bind
      | set_parent (Some _) _ => apply wp_bind
      | set_left (Some _) _ => apply wp_bind
      | set_right (Some _) _ => apply wp_bind
      | set_red (Some _) _ => apply wp_bind
      | set_key (Some _) _ => apply wp_bind
      | get_root => apply wp_bind
      | set_root _ => apply wp_bind
      | get_elements => apply wp_bind
      | get_fuel => apply wp_bind
      | set_elements _ => apply wp_bind
      | mret _ => apply wp_bind
      | mbind _ _ => apply wp_bind
      | (if decide _ then _ else _) => apply wp_bind
      end
  end.

Ltac wp_run := repeat wp_step.

Ltac solve_own :=
  repeat first
    [ assumption
    | exact I
    | match goal with
      | |- own (<[_ := _]> _) _ ?t => is_var t; apply own_insert_ne; [solve_ne|]
      | |- own_ctx (<[_ := _]> _) ?c _ => is_var c; apply own_ctx_insert_ne; [solve_ne|]
      | |- own _ _ (Br _ _ _ _ _) => cbn [own ptr]; split_and!
      | |- own_ctx _ (_ :: _) _ =>
          cbn [own_ctx ptr f_ref f_dir f_red f_key f_sib ctx_parent]; split_and!
      | |- _ !! _ = Some _ => solve_lookup
      end ].

Ltac rep_finish :=
  apply rep_plug; cbn [heap upd next root elements]; split_and!;
  [ solve_own | solve_own
  | first [ done
          | by rewrite ?ctx_root_cons_eq
          | match goal with H : ∀ c, ctx_root _ c = _ |- _ => by rewrite H end
          | match goal with
            | Hr : root ?s = Some ?r, H : ∀ c, ctx_root _ c = Some ?r
              |- root ?s = ctx_root _ ?c' =>
                rewrite Hr, <-(H c'); by apply ctx_root_refs
            end ]
  | simpl; set_solve | try done; simpl; set_solve
  | simpl; set_solve | eexists; solve_lookup
  | match goal with
    | Hb : bounded _ _ |- bounded _ _ =>
        first [ eapply bounded_mono; [| |exact Hb]; [simpl; clear; set_solver|lia]
              | eapply bounded_alloc; [|exact Hb]; simpl; clear; set_solver ]
    end ].

(** The fields of the nodes of a tree with a hole, read off [rep]. *)
Ltac rep_open H :=
  let H' := fresh "Hopen" in
  pose proof H as H';
  apply rep_plug in H' as (?Ho & ?Hc & ?Hr & _ & _ & _ & [? ?Hn] & _);
  cbn [own own_ctx ptr ctx_parent f_dir f_ref f_red f_key f_sib] in *;
  rewrite ?ctx_root_cons_eq in *;
  cbn [f_ref] in *;
  repeat match goal with H : _ ∧ _ |- _ => destruct H end.

(** * The rotations *)

Import memtable shape.

Lemma right_rotate_spec s g cg p cp a kp b kg u ctx :
  rep s (plug (Br g cg (Br p cp a kp b) kg u) ctx) →
  wp (right_rotate (Some g)) s (λ _ s',
    rep s' (plug (Br p cp a kp (Br g cg b kg u)) ctx) ∧
    next s' = next s ∧ elements s' = elements s).
Proof.
  intros (Ho & Hc & Hr & Hw & Hwc & Hd & [p0 Hn] & Hb)%rep_plug.
  pose proof (bounded_nil _ _ Hb) as H0.
  destruct Ho as (Hg & (Hp & Ha & Hbb) & Hu). cbn [ptr] in Hr, Hg, Hp, Hc.
  unfold right_rotate.
  destruct ctx as [|f ctx].
  - unfold ctx_root in Hr; simpl in Hr. simpl in Hg.
    destruct b as [|y cy bl ky br]; simpl in Hbb, Hp, Hw, Hd, H0;
      try destruct Hbb as (Hy & Hbl & Hbr); set_norm; unfold NIL in *;
      wp_run; (split; [|done]); rep_finish.
  - destruct (ctx_root_cons f ctx) as (r & Hr' & Hrin). rewrite Hr' in Hr.
    assert (g ≠ r) by (intros ->; apply (Hd r); [simpl; clear; set_solver|done]).
    simpl in Hg, Hc, Hwc, Hd, H0, Hw.
    destruct Hc as (Hf & Hs & Hc).
    destruct f as [d fr fc fk fs]; cbn [f_ref f_dir f_red f_key f_sib] in *.
    destruct d; [|destruct fs as [|z cz zl zk zr]];
      (destruct b as [|y cy bl ky br]; simpl in Hbb, Hp, Hw, Hd, H0, Hwc, Hf, Hs;
       try destruct Hbb as (Hy & Hbl & Hbr); set_norm; unfold NIL in *;
       wp_run; (split; [|done]); rep_finish).
Qed.

Lemma left_rotate_spec s g cg p cp a kp b kg u ctx :
  rep s (plug (Br g cg u kg (Br p cp a kp b)) ctx) →
  wp (left_rotate (Some g)) s (λ _ s',
    rep s' (plug (Br p cp (Br g cg u kg a) kp b) ctx) ∧
    next s' = next s ∧ elements s' = elements s).
Proof.
  intros (Ho & Hc & Hr & Hw & Hwc & Hd & [p0 Hn] & Hb)%rep_plug.
  pose proof (bounded_nil _ _ Hb) as H0.
  destruct Ho as (Hg & Hu & (Hp & Ha & Hbb)). cbn [ptr] in Hr, Hg, Hp, Hc.
  unfold left_rotate.
  destruct ctx as [|f ctx].
  - unfold ctx_root in Hr; simpl in Hr. simpl in Hg.
    destruct a as [|y cy al ky ar]; simpl in Ha, Hp, Hw, Hd, H0;
      try destruct Ha as (Hy & Hal & Har); set_norm; unfold NIL in *;
      wp_run; (split; [|done]); rep_finish.
  - destruct (ctx_root_cons f ctx) as (r & Hr' & Hrin). rewrite Hr' in Hr.
    assert (g ≠ r) by (intros ->; apply (Hd r); [simpl; clear; set_solver|done]).
    simpl in Hg, Hc, Hwc, Hd, H0, Hw.
    destruct Hc as (Hf & Hs & Hc).
    destruct f as [d fr fc fk fs]; cbn [f_ref f_dir f_red f_key f_sib] in *.
    destruct d; [|destruct fs as [|z cz zl zk zr]];
      (destruct a as [|y cy al ky ar]; simpl in Ha, Hp, Hw, Hd, H0, Hwc, Hf, Hs;
       try destruct Ha as (Hy & Hal & Har); set_norm; unfold NIL in *;
       wp_run; (split; [|done]); rep_finish).
Qed.

(** * Recolouring, and the exit of [fix_insert] *)

Import memtable shape.

Lemma set_red_spec s x c l k r ctx c' :
  rep s (plug (Br x c l k r) ctx) →
  wp (set_red (Some x) c') s (λ _ s',
    rep s' (plug (Br x c' l k r) ctx) ∧
    next s' = next s ∧ elements s' = elements s ∧ root s' = root s).
Proof.
  intros (Ho & Hc & Hr & Hw & Hwc & Hd & [p0 Hn] & Hb)%rep_plug.
  pose proof (bounded_nil _ _ Hb) as H0.
  destruct Ho as (Hx & Hl & Hrr). simpl in Hw, Hd, H0. set_norm.
  wp_run. split; [|done]. rep_finish.
Qed.

Lemma rep_focus s x c l k r ctx :
  rep s (plug (Br x c l k r) ctx) →
  heap s !! x = Some (mkNode (ctx_parent ctx) (ptr l) (ptr r) c (Some k)).
Proof. by intros ((Hx & _) & _)%rep_plug. Qed.

Lemma rep_ptr_red s t ctx Q :
  rep s (plug t ctx) → Q (color t) s → wp (get_red (ptr t)) s Q.
Proof.
  intros (Ho & _ & _ & _ & _ & _ & [p0 Hn] & _)%rep_plug HQ.
  destruct t as [|x c l k r]; simpl in *.
  - by eapply wp_get_red.
  - destruct Ho as (Hx & _). by eapply wp_get_red.
Qed.

Lemma black_root_plug_color t t' ctx :
  t ≠ Lf → t' ≠ Lf → color t = color t' →
  black_root (plug t ctx) → black_root (plug t' ctx).
Proof.
  destruct ctx as [|f ctx].
  - destruct t, t'; simpl; congruence.
  - intros _ _ _. by apply black_root_plug.
Qed.

Lemma plug_ne_Lf t ctx : t ≠ Lf → plug t ctx ≠ Lf.
Proof.
  revert t. induction ctx as [|f ctx IH]; intros t Ht; [done|].
  simpl. apply IH. unfold fill. by destruct (f_dir f).
Qed.

Lemma blacken_root_spec s t :
  rep s t → t ≠ Lf →
  wp (r ← get_root; set_red r false) s (λ _ s',
    rep s' (blacken t) ∧ next s' = next s ∧ elements s' = elements s).
Proof.
  intros Hrep Ht. destruct t as [|x c l k r]; [done|].
  apply wp_bind, wp_get_root. rewrite (rep_root _ _ Hrep). simpl.
  eapply wp_mono; [apply (set_red_spec s x c l k r []), Hrep|].
  intros [] s' (? & ? & ? & ?). done.
Qed.

Lemma fix_insert_exit s t :
  rep s t → t ≠ Lf →
  wp (r ← get_root; set_red r false) s (fix_post s t).
Proof.
  intros Hrep Ht. eapply wp_mono; [by apply blacken_root_spec|].
  intros [] s' (? & ? & ?). exists (blacken t).
  split_and!; auto using keys_blacken, refs_blacken, black_root_blacken.
Qed.


Lemma fix_post_mono s s1 t0 t1 a s' :
  keys t1 = keys t0 → refs t1 = refs t0 →
  next s1 = next s → elements s1 = elements s →
  fix_post s1 t1 a s' → fix_post s t0 a s'.
Proof.
  intros Hk Hr Hn He (t' & ? & ? & ? & ? & ? & ?). exists t'.
  split_and!; congruence.
Qed.

Ltac solve_keys :=
  cbn [plug]; rewrite ?keys_plug; unfold fill;
  cbn [f_dir f_ref f_red f_key f_sib];
  repeat match goal with d : dir |- _ => destruct d end;
  repeat first [ rewrite <-app_assoc | progress simpl ]; reflexivity.

Ltac solve_refs :=
  cbn [plug]; rewrite ?refs_plug; unfold fill;
  cbn [f_dir f_ref f_red f_key f_sib];
  repeat match goal with d : dir |- _ => destruct d end;
  simpl; clear; set_solver.

(** * [fix_insert] keeps the keys and blackens the root *)

Import memtable shape.

Lemma fix_insert_spec fuel : ∀ s x c l k r ctx,
  (length ctx < fuel)%nat →
  rep s (plug (Br x c l k r) ctx) →
  (ctx ≠ [] → black_root (plug (Br x c l k r) ctx)) →
  wp (fix_insert fuel (Some x)) s (fix_post s (plug (Br x c l k r) ctx)).
Proof.
  induction fuel as [|fuel IH]; intros s x c l k r ctx Hlen Hrep Hblack; [lia|].
  cbn [fix_insert]. apply wp_bind, wp_get_root.
  pose proof Hrep as (Ho & Hc & Hr & Hw & Hwc & Hd & [p0 Hn] & Hb)%rep_plug.
  pose proof (bounded_nil _ _ Hb) as H0.
  destruct Ho as (Hx & Hl & Hrr).
  destruct ctx as [|f1 ctx1].
  { simpl in Hr. rewrite Hr. rewrite decide_False by naive_solver.
    apply wp_bind, wp_ret. apply fix_insert_exit; [done|]. done. }
  destruct (ctx_root_cons f1 ctx1) as (rt & Hrt & Hrin). rewrite Hrt in Hr.
  assert (x ≠ rt) by (intros ->; apply (Hd rt); [simpl; clear; set_solver|done]).
  rewrite Hr. rewrite decide_True by (by apply Some_ne).
  destruct Hc as (Hf1 & Hs1 & Hc). cbn [ctx_parent] in Hx.
  apply wp_bind. wp_run.
  destruct (f_red f1) eqn:Hred1.
  2:{ apply fix_insert_exit; [done|]. by apply plug_ne_Lf. }
  destruct ctx1 as [|f2 ctx2].
  { specialize (Hblack ltac:(done)). simpl in Hblack. exfalso.
    unfold fill in Hblack. destruct (f_dir f1); simpl in Hblack; congruence. }
  destruct Hc as (Hf2 & Hs2 & Hc). cbn [ctx_parent] in Hf1.
  destruct f1 as [d1 p c1 k1 s1], f2 as [d2 g cg kg U].
  cbn [f_ref f_dir f_red f_key f_sib] in *. subst c1.
  simpl in Hw, Hwc, Hd, H0. set_norm.
  destruct d2.
  - (* the parent is a left child *)
    wp_run.
    apply wp_bind. eapply (rep_ptr_red s U (mkFrame R g cg kg _ :: ctx2)); [exact Hrep|].
    destruct (color U) eqn:HcU.
    + (* the uncle is red *)
      destruct U as [|u cu ul uk ur]; simpl in HcU; [done|subst cu].
      destruct Hs2 as (Hu & Hul & Hur). cbn [refs wf] in *. set_norm.
      wp_run.
      eapply wp_mono.
      { apply (IH _ g true (fill (mkFrame d1 p false k1 s1) (Br x c l k r)) kg
                  (Br u false ul uk ur) ctx2).
        - simpl in Hlen. lia.
        - change (rep ?s _) with
            (rep s (plug (Br x c l k r)
                      (mkFrame d1 p false k1 s1 :: mkFrame L g true kg (Br u false ul uk ur) :: ctx2))).
          rep_finish.
        - intros Hne. eapply black_root_plug; [done|]. apply Hblack. done. }
      intros a s'. apply fix_post_mono; [solve_keys|solve_refs|done|done].
    + (* the uncle is black *)
      destruct d1.
      * (* the node is a left child: one rotation *)
        wp_run.
        apply wp_bind. eapply wp_mono.
        { apply (right_rotate_spec s g cg p true (Br x c l k r) k1 s1 kg U ctx2).
          exact Hrep. }
        intros [] s' (Hrep1 & Hn1 & He1). rep_open Hrep1.
        wp_run.
        eapply wp_mono.
        { apply (IH _ x c l k r (mkFrame L p cg k1 (Br g true s1 kg U) :: ctx2)).
          - simpl in Hlen |- *. lia.
          - rep_finish.
          - intros _. cbn [plug fill f_dir f_ref f_red f_key f_sib].
            eapply (black_root_plug_color (Br g cg _ kg U)); [done|done|done|].
            exact (Hblack ltac:(done)). }
        intros a s''. apply fix_post_mono; [solve_keys|solve_refs|simpl; congruence..].
      * (* the node is a right child: two rotations *)
        wp_run.
        apply wp_bind. eapply wp_mono.
        { apply (left_rotate_spec s p true x c l k r k1 s1
                   (mkFrame L g cg kg U :: ctx2)).
          exact Hrep. }
        intros [] s' (Hrep1 & Hn1 & He1).
        wp_run.
        apply wp_bind. eapply wp_mono.
        { apply (right_rotate_spec s' g cg x c (Br p true s1 k1 l) k r kg U ctx2).
          exact Hrep1. }
        intros [] s'' (Hrep2 & Hn2 & He2). rep_open Hrep2.
        wp_run.
        eapply wp_mono.
        { apply (IH _ p true s1 k1 l (mkFrame L x cg k (Br g true r kg U) :: ctx2)).
          - simpl in Hlen |- *. lia.
          - rep_finish.
          - intros _. cbn [plug fill f_dir f_ref f_red f_key f_sib].
            eapply (black_root_plug_color (Br g cg _ kg U)); [done|done|done|].
            exact (Hblack ltac:(done)). }
        intros a s3. apply fix_post_mono; [solve_keys|solve_refs|simpl; congruence..].
  - (* the parent is a right child *)
    wp_run.
    apply wp_bind. eapply (rep_ptr_red s U (mkFrame L g cg kg _ :: ctx2)); [exact Hrep|].
    destruct (color U) eqn:HcU.
    + (* the uncle is red *)
      destruct U as [|u cu ul uk ur]; simpl in HcU; [done|subst cu].
      destruct Hs2 as (Hu & Hul & Hur). cbn [refs wf] in *. set_norm.
      wp_run.
      eapply wp_mono.
      { apply (IH _ g true (Br u false ul uk ur) kg
                  (fill (mkFrame d1 p false k1 s1) (Br x c l k r)) ctx2).
        - simpl in Hlen. lia.
        - change (rep ?s _) with
            (rep s (plug (Br x c l k r)
                      (mkFrame d1 p false k1 s1 :: mkFrame R g true kg (Br u false ul uk ur) :: ctx2))).
          rep_finish.
        - intros Hne. eapply black_root_plug; [done|]. apply Hblack. done. }
      intros a s'. apply fix_post_mono; [solve_keys|solve_refs|done|done].
    + (* the uncle is black *)
      destruct d1.
      * (* the node is a left child: two rotations *)
        wp_run.
        apply wp_bind. eapply wp_mono.
        { apply (right_rotate_spec s p true x c l k r k1 s1
                   (mkFrame R g cg kg U :: ctx2)).
          exact Hrep. }
        intros [] s' (Hrep1 & Hn1 & He1).
        wp_run.
        apply wp_bind. eapply wp_mono.
        { apply (left_rotate_spec s' g cg x c l k (Br p true r k1 s1) kg U ctx2).
          exact Hrep1. }
        intros [] s'' (Hrep2 & Hn2 & He2). rep_open Hrep2.
        wp_run.
        eapply wp_mono.
        { apply (IH _ p true r k1 s1 (mkFrame R x cg k (Br g true U kg l) :: ctx2)).
          - simpl in Hlen |- *. lia.
          - rep_finish.
          - intros _. cbn [plug fill f_dir f_ref f_red f_key f_sib].
            eapply (black_root_plug_color (Br g cg U kg _)); [done|done|done|].
            exact (Hblack ltac:(done)). }
        intros a s3. apply fix_post_mono; [solve_keys|solve_refs|simpl; congruence..].
      * (* the node is a right child: one rotation *)
        wp_run.
        apply wp_bind. eapply wp_mono.
        { apply (left_rotate_spec s g cg p true s1 k1 (Br x c l k r) kg U ctx2).
          exact Hrep. }
        intros [] s' (Hrep1 & Hn1 & He1). rep_open Hrep1.
        wp_run.
        eapply wp_mono.
        { apply (IH _ x c l k r (mkFrame R p cg k1 (Br g true U kg s1) :: ctx2)).
          - simpl in Hlen |- *. lia.
          - rep_finish.
          - intros _. cbn [plug fill f_dir f_ref f_red f_key f_sib].
            eapply (black_root_plug_color (Br g cg U kg _)); [done|done|done|].
            exact (Hblack ltac:(done)). }
        intros a s''. apply fix_post_mono; [solve_keys|solve_refs|simpl; congruence..].
Qed.

(** * The descent of [insert] *)

Import memtable shape.

Lemma bst_Br x c l k r :
  bst (Br x c l k r) ↔
    bst l ∧ bst r ∧ Forall (λ y, Bytes.lt y k) (keys l) ∧ Forall (Bytes.lt k) (keys r).
Proof.
  unfold bst. simpl. rewrite StronglySorted_app, StronglySorted_cons, !Forall_forall.
  split.
  - intros (H1 & H2 & H3 & H4). split_and!; try done.
    intros y Hy. apply H1; [done|]. by left.
  - intros (H1 & H2 & H3 & H4). split_and!; try done.
    intros y z Hy [->|Hz]%elem_of_cons; [by apply H3|].
    etrans; [by apply H3|by apply H4].
Qed.

Lemma bst_plug t ctx : bst (plug t ctx) → bst t.
Proof.
  unfold bst. rewrite keys_plug.
  intros H%StronglySorted_app_1_r. by apply StronglySorted_app_1_l in H.
Qed.

Lemma insert_descend_spec k fuel : ∀ s t ctx,
  rep s (plug t ctx) → bst t →
  (height t < fuel)%nat →
  Forall (λ y, Bytes.lt y k) (lkeys ctx) → Forall (Bytes.lt k) (rkeys ctx) →
  wp (insert_descend fuel k (ctx_parent ctx) (ptr t)) s
     (descend_post k s (plug t ctx)).
Proof.
  induction fuel as [|fuel IH]; intros s t ctx Hrep Hbst Hh Hl Hr; [lia|].
  cbn [insert_descend]. destruct t as [|x c l kx r].
  - cbn [ptr]. rewrite decide_False by (by intros ?). apply wp_ret.
    split; [done|]. by exists ctx.
  - pose proof Hrep as (Ho & _ & _ & _ & _ & _ & _ & Hb)%rep_plug.
    pose proof (bounded_nil _ _ Hb) as H0. simpl in H0. set_norm.
    destruct Ho as (Hx & _). cbn [ptr]. unfold NIL. wp_run.
    apply bst_Br in Hbst as (Hbl & Hbr & Hlt & Hgt). simpl in Hh.
    unfold py_eq. destruct (k =?b kx) eqn:Heq.
    { apply wp_ret. split; [done|]. apply bytes_eqb_eq in Heq as ->.
      rewrite keys_plug. set_solver. }
    wp_run. unfold py_lt. apply wp_bind, wp_ret.
    destruct (k <?b kx) eqn:Hlt'.
    + wp_run.
      eapply wp_mono.
      { apply (IH s l (mkFrame L x c kx r :: ctx)).
        - exact Hrep.
        - done.
        - lia.
        - simpl. by rewrite app_nil_r.
        - simpl. constructor; [done|]. apply Forall_app. split; [|done].
          eapply Forall_impl; [done|]. intros y Hy. by etrans. }
      done.
    + wp_run.
      assert (Bytes.lt kx k).
      { destruct (bytes_ltb_total k kx) as [?|[->|?]]; [congruence| |done].
        by rewrite bytes_eqb_refl in Heq. }
      eapply wp_mono.
      { apply (IH s r (mkFrame R x c kx l :: ctx)).
        - exact Hrep.
        - done.
        - lia.
        - simpl. rewrite !Forall_app. split_and!; [done| |by constructor].
          eapply Forall_impl; [done|]. intros y Hy. simpl in *.
          by trans kx.
        - done. }
      done.
Qed.

Import memtable shape.

Lemma height_le_size t : wf t → (height t ≤ size (refs t))%nat.
Proof.
  induction t as [|x c l IHl k r IHr]; simpl; [lia|].
  intros (Hxl & Hxr & Hd & Hl & Hr).
  rewrite !size_union, size_singleton by set_solver.
  specialize (IHl Hl). specialize (IHr Hr). lia.
Qed.

Lemma bounded_size X n : bounded X n → (size X < n)%nat.
Proof.
  intros [H0 HX].
  assert (X ⊆ set_seq 1 (pred n)) as Hsub.
  { intros x Hx. apply elem_of_set_seq. specialize (HX _ Hx). lia. }
  apply subseteq_size in Hsub. rewrite size_set_seq in Hsub. lia.
Qed.

Lemma rep_height s t : rep s t → (height t < next s)%nat.
Proof.
  intros [_ _ Hw _ Hb]. apply height_le_size in Hw. apply bounded_size in Hb. lia.
Qed.

Lemma sorted_insert (l r : list bytes) k :
  StronglySorted Bytes.lt (l ++ r) →
  Forall (λ y, Bytes.lt y k) l → Forall (Bytes.lt k) r →
  StronglySorted Bytes.lt (l ++ k :: r).
Proof.
  rewrite !StronglySorted_app, StronglySorted_cons, !Forall_forall.
  intros (H1 & H2 & H3) Hl Hr. split_and!; try done.
  intros y z Hy [->|Hz]%elem_of_cons; [by apply Hl|by apply H1].
Qed.

Lemma keys_nil t : keys t = [] → t = Lf.
Proof. destruct t; [done|]. simpl. by destruct (keys t1). Qed.

Lemma rep_elements h n r e e' t :
  rep (mkMemTable h n r e) t → rep (mkMemTable h n r e') t.
Proof. by intros []. Qed.

Lemma rep_new_MemTable : rep new_MemTable Lf.
Proof.
  split; simpl; try done.
  - by eexists.
  - split; [lia|set_solver].
Qed.

Lemma insert_spec k s t :
  inv s t →
  wp (insert k) s (λ b s', ∃ t',
    inv s' t' ∧ b = bool_decide (k ∉ keys t) ∧
    (∀ y, y ∈ keys t' ↔ y = k ∨ y ∈ keys t) ∧
    (b = false → s' = s ∧ t' = t)).
Proof.
  intros (Hrep & Hbst & Hblack & Hel). unfold insert.
  apply wp_bind, wp_get_elements.
  destruct (decide (elements s = 0)) as [He0|He0].
  - assert (t = Lf) as -> by (apply keys_nil, nil_length_inv; lia).
    destruct Hrep as [_ Hroot _ [p0 Hn] Hb].
    destruct (bounded_fresh _ _ Hb) as [_ Hfr].
    apply wp_bind, wp_new_Node. wp_run. cbn [root]. wp_run.
    exists (Br (next s) false Lf k Lf). split_and!.
    + split_and!.
      * split; simpl.
        -- split_and!; [solve_lookup|done..].
        -- done.
        -- set_solver.
        -- eexists. solve_lookup.
        -- eapply bounded_alloc; [|done]. set_solver.
      * unfold bst. simpl. repeat constructor.
      * done.
      * done.
    + symmetry. apply bool_decide_eq_true. simpl. set_solver.
    + simpl. set_solver.
    + done.
  - assert (t ≠ Lf) as Ht by (intros ->; simpl in Hel; lia).
    wp_run. rewrite (rep_root _ _ Hrep).
    apply wp_bind. eapply wp_mono.
    { apply (insert_descend_spec k (fuel_of s) s t []); [done|done| |done|done].
      pose proof (rep_height _ _ Hrep). unfold fuel_of. lia. }
    intros [par|] ? [-> Hpost]; simpl in Hpost.
    2:{ apply wp_ret. exists t. split_and!; try done.
        - symmetry. apply bool_decide_eq_false. by intros ?.
        - set_solver. }
    destruct Hpost as (ctx & -> & -> & Hl & Hr).
    destruct ctx as [|f ctx]; [done|].
    pose proof Hrep as (Ho & Hc & Hroot & Hw & Hwc & Hd & [p0 Hn] & Hb)%rep_plug.
    destruct (bounded_fresh _ _ Hb) as [Hfr Hfr0].
    destruct (ctx_root_cons f ctx) as (rt & Hrt & Hrin). rewrite Hrt in Hroot.
    destruct Hc as (Hf & Hs & Hc). simpl in Hfr, Hw, Hwc, Hd. set_norm.
    cbn [ctx_parent]. apply wp_bind, wp_new_Node. wp_run.
    unfold py_lt. apply wp_bind, wp_ret.
    pose proof (rep_height _ _ Hrep) as Hh.
    pose proof (height_plug Lf (f :: ctx)) as Hh'.
    destruct f as [d p c kp sib]. cbn [f_ref f_dir f_red f_key f_sib] in *.
    assert ((k <?b kp) = match d with L => true | R => false end) as ->.
    { destruct d; simpl in Hl, Hr.
      - apply Forall_cons in Hr as [Hk _]. exact Hk.
      - apply bytes_ltb_asym.
        rewrite !Forall_app, Forall_singleton in Hl.
        by destruct Hl as (_ & _ & Hl). }
    set (new := Br (next s) true Lf k Lf).
    set (t0 := plug Lf (mkFrame d p c kp sib :: ctx)) in *.
    assert (∀ s1, rep s1 (plug new (mkFrame d p c kp sib :: ctx)) →
                  next s1 = S (next s) → elements s1 = elements s →
      wp (get_fuel ≫= λ fuel, fix_insert fuel (Some (next s)) ≫= λ _,
            get_elements ≫= λ n, set_elements (n + 1) ≫= λ _, mret true) s1
         (λ b s', ∃ t', inv s' t' ∧ b = bool_decide (k ∉ keys t0) ∧
            (∀ y, y ∈ keys t' ↔ y = k ∨ y ∈ keys t0) ∧
            (b = false → s' = s ∧ t' = t0))) as Hfix.
    { intros s1 Hrep1 Hn1 He1. apply wp_bind, wp_get_fuel.
      apply wp_bind. eapply wp_mono.
      { apply (fix_insert_spec _ s1 (next s) true Lf k Lf (mkFrame d p c kp sib :: ctx)).
        - unfold fuel_of. rewrite Hn1. simpl in Hh' |- *. lia.
        - exact Hrep1.
        - intros _. eapply black_root_plug; [done|]. exact Hblack. }
      intros [] s2 (t' & Hrep2 & Hk2 & Hr2 & Hb2 & Hn2 & He2).
      wp_run. exists t'.
      assert (keys t' = lkeys (mkFrame d p c kp sib :: ctx) ++ k ::
                        rkeys (mkFrame d p c kp sib :: ctx)) as Hkeys.
      { rewrite Hk2. unfold new. by rewrite keys_plug. }
      assert (keys t0 = lkeys (mkFrame d p c kp sib :: ctx) ++
                        rkeys (mkFrame d p c kp sib :: ctx)) as Hkeys0.
      { unfold t0. by rewrite keys_plug. }
      split_and!.
      - split_and!.
        + destruct s2. by eapply rep_elements.
        + unfold bst in *. rewrite Hkeys. apply sorted_insert; [|done..].
          by rewrite <-Hkeys0.
        + done.
        + cbn [elements]. rewrite He2, He1, Hel, Hkeys, Hkeys0.
          rewrite !length_app. simpl. lia.
      - symmetry. apply bool_decide_eq_true. rewrite Hkeys0.
        rewrite not_elem_of_app. split.
        + intros Hin. rewrite Forall_forall in Hl. specialize (Hl _ Hin).
          by apply irreflexivity in Hl; [|apply _].
        + intros Hin. rewrite Forall_forall in Hr. specialize (Hr _ Hin).
          by apply irreflexivity in Hr; [|apply _].
      - intros y. rewrite Hkeys, Hkeys0. set_solver.
      - done. }
    destruct d; wp_run; (apply Hfix; [unfold new|done|done]).
    all: assert (NIL_ref ≠ p) as Hp0
      by (intros <-; destruct Hb as [_ Hb]; specialize (Hb NIL_ref);
          simpl in Hb;
          assert (0 < NIL_ref < next s)%nat by (apply Hb; clear; set_solver);
          unfold NIL_ref in *; lia).
    all: rep_finish.
Qed.

(** * The read-only methods of the memtable *)

Import memtable shape.

(** [__iter__] yields the keys of the tree in in-order. *)
Lemma iter_traverse_spec fuel : ∀ t par s,
  own (heap s) par t → NIL_ref ∉ refs t → (height t < fuel)%nat →
  wp (iter_traverse fuel (ptr t)) s (λ r s', s' = s ∧ r = Some <$> keys t).
Proof.
  induction fuel as [|fuel IH]; intros t par s Ho H0 Hh; [lia|].
  cbn [iter_traverse]. destruct t as [|x c l kx r]; cbn [ptr].
  - rewrite decide_True by done. by apply wp_ret.
  - simpl in H0, Hh. set_norm. destruct Ho as (Hx & Hl & Hr).
    unfold NIL. wp_run.
    eapply wp_bind, wp_mono; [apply (IH l (Some x)); [done|done|lia]|].
    intros ls s' [-> ->]. wp_run.
    eapply wp_bind, wp_mono; [apply (IH r (Some x)); [done|done|lia]|].
    intros rs s' [-> ->]. apply wp_ret. split; [done|].
    simpl. by rewrite fmap_app.
Qed.

Lemma iter_spec s t :
  rep s t → iter s = Ok (Some <$> keys t) s.
Proof.
  intros Hrep. pose proof (rep_height _ _ Hrep) as Hh.
  destruct Hrep as [Ho Hr Hw Hn Hb].
  pose proof (iter_traverse_spec (fuel_of s) t None s Ho
    (bounded_nil _ _ Hb)) as H.
  unfold iter, mbind, M_bind, bind, get_root, get_fuel. rewrite Hr.
  unfold wp in H. unfold fuel_of in *.
  destruct (iter_traverse _ _ s); try (exfalso; apply H; lia).
  destruct H as [-> ->]; [lia|done].
Qed.

(** ** [range_lookup] *)

Lemma filter_in_range_below lo hi (l : list bytes) :
  Forall (λ y, Bytes.lt y lo) l → filter (λ k, in_range lo hi k) l = [].
Proof.
  induction 1 as [|y l Hy _ IH]; [done|].
  rewrite filter_cons_False; [exact IH|].
  unfold in_range, Bytes.leb. unfold Bytes.lt in Hy. rewrite Hy. simpl. by intros [].
Qed.

Lemma filter_in_range_above lo hi (l : list bytes) :
  Forall (Bytes.lt hi) l → filter (λ k, in_range lo hi k) l = [].
Proof.
  induction 1 as [|y l Hy _ IH]; [done|].
  rewrite filter_cons_False; [exact IH|].
  unfold in_range, Bytes.leb. unfold Bytes.lt in Hy.
  rewrite Hy, andb_false_r. simpl. by intros [].
Qed.

Lemma range_lookup_traverse_spec lo hi fuel : ∀ t par s res,
  own (heap s) par t → NIL_ref ∉ refs t → bst t → (height t < fuel)%nat →
  wp (range_lookup_traverse fuel (ptr t) lo hi res) s
     (λ r s', s' = s ∧
              r = res ++ concat (filter (λ k, in_range lo hi k) (keys t))).
Proof.
  induction fuel as [|fuel IH]; intros t par s res Ho H0 Hbst Hh; [lia|].
  cbn [range_lookup_traverse]. destruct t as [|x c l kx r]; cbn [ptr].
  - rewrite decide_True by done. apply wp_ret. by rewrite app_nil_r.
  - simpl in H0, Hh. set_norm. destruct Ho as (Hx & Hl & Hr).
    apply bst_Br in Hbst as (Hbl & Hbr & Hlt & Hgt).
    unfold NIL. wp_run. unfold py_gt. apply wp_bind, wp_ret.
    apply wp_bind.
    apply wp_mono with (Q := λ r1 s', s' = s ∧
      r1 = res ++ concat (filter (λ k, in_range lo hi k) (keys l))).
    { destruct (lo <?b kx) eqn:Hlo.
      - wp_run. apply (IH l (Some x)); [done|done|done|lia].
      - apply wp_ret. split; [done|].
        rewrite filter_in_range_below, app_nil_r; [done|].
        eapply Forall_impl; [exact Hlt|]. intros y Hy. simpl in *.
        apply bytes_ltb_false, bytes_leb_iff in Hlo as [Hlo| ->]; [|done].
        by trans kx. }
    intros r1 s' [-> ->]. wp_run. unfold py_le. apply wp_bind, wp_ret.
    apply wp_bind.
    apply wp_mono with (Q := λ b s', s' = s ∧ b = in_range lo hi kx).
    { unfold in_range. destruct (lo <=?b kx); [|by apply wp_ret].
      wp_run. unfold py_le'. by apply wp_ret. }
    intros b s' [-> ->]. apply wp_bind.
    apply wp_mono with (Q := λ r2 s', s' = s ∧
      r2 = res ++ concat (filter (λ k, in_range lo hi k) (keys l ++ [kx]))).
    { rewrite filter_app, concat_app, app_assoc.
      destruct (in_range lo hi kx) eqn:Hin.
      - wp_run. apply wp_ret. split; [done|].
        rewrite filter_cons_True by (by apply Is_true_true). simpl.
        by rewrite app_nil_r.
      - apply wp_ret. split; [done|].
        rewrite filter_cons_False by (by apply Is_true_false). simpl.
        by rewrite app_nil_r. }
    intros r2 s' [-> ->]. wp_run. unfold py_lt'. apply wp_bind, wp_ret.
    replace (keys (Br x c l kx r)) with ((keys l ++ [kx]) ++ keys r)
      by (simpl; by rewrite <-app_assoc).
    rewrite (filter_app _ (keys l ++ [kx])), concat_app, app_assoc.
    destruct (kx <?b hi) eqn:Hhi.
    + wp_run. apply (IH r (Some x)); [done|done|done|lia].
    + apply wp_ret. split; [done|].
      rewrite (filter_in_range_above _ _ (keys r)), app_nil_r; [done|].
      eapply Forall_impl; [exact Hgt|]. intros y Hy. simpl in *.
      apply bytes_ltb_false, bytes_leb_iff in Hhi as [Hhi| ->]; [|done].
      by trans kx.
Qed.

Lemma range_lookup_spec lo hi s t :
  rep s t → bst t →
  range_lookup lo hi s =
    Ok (concat (filter (λ k, in_range lo hi k) (keys t))) s.
Proof.
  intros Hrep Hbst. pose proof (rep_height _ _ Hrep) as Hh.
  destruct Hrep as [Ho Hr Hw Hn Hb].
  pose proof (range_lookup_traverse_spec lo hi (fuel_of s) t None s [] Ho
    (bounded_nil _ _ Hb) Hbst) as H.
  unfold range_lookup, mbind, M_bind, bind, get_root, get_fuel. rewrite Hr.
  unfold wp in H. unfold fuel_of in *.
  destruct (range_lookup_traverse _ _ _ _ _ s); try (exfalso; apply H; lia).
  destruct H as [-> ->]; [lia|done].
Qed.

(** ** [get] and [__contains__] *)

Lemma get_loop_spec k fuel : ∀ t par s,
  own (heap s) par t → NIL_ref ∉ refs t → bst t → (height t < fuel)%nat →
  wp (get_loop fuel k (ptr t)) s
     (λ r s', s' = s ∧ r = if decide (k ∈ keys t) then Some k else None).
Proof.
  induction fuel as [|fuel IH]; intros t par s Ho H0 Hbst Hh; [lia|].
  cbn [get_loop]. destruct t as [|x c l kx r]; cbn [ptr].
  - rewrite decide_False by (by intros ?). apply wp_ret. split; [done|].
    rewrite decide_False; [done|]. simpl. by intros ?%elem_of_nil.
  - simpl in H0, Hh. set_norm. destruct Ho as (Hx & Hl & Hr).
    apply bst_Br in Hbst as (Hbl & Hbr & Hlt & Hgt).
    rewrite Forall_forall in Hlt, Hgt.
    unfold NIL. wp_run. unfold py_eq. destruct (k =?b kx) eqn:Heq.
    { wp_run. apply bytes_eqb_eq in Heq as ->. split; [done|].
      rewrite decide_True; [done|]. simpl. set_solver. }
    apply bytes_eqb_neq in Heq.
    wp_run. unfold py_lt. apply wp_bind, wp_ret.
    destruct (k <?b kx) eqn:Hlt'.
    + wp_run. eapply wp_mono; [apply (IH l (Some x)); [done|done|done|lia]|].
      intros a s' [-> ->]. split; [done|]. simpl.
      assert (k ∉ keys r).
      { intros Hin%Hgt. unfold Bytes.lt in Hin.
        by rewrite (bytes_ltb_asym _ _ Hin) in Hlt'. }
      destruct (decide (k ∈ keys l)).
      * rewrite decide_True; [done|]. set_solver.
      * rewrite decide_False; [done|]. set_solver.
    + wp_run. eapply wp_mono; [apply (IH r (Some x)); [done|done|done|lia]|].
      intros a s' [-> ->]. split; [done|]. simpl.
      assert (k ∉ keys l).
      { intros Hin%Hlt. unfold Bytes.lt in Hin. congruence. }
      destruct (decide (k ∈ keys r)).
      * rewrite decide_True; [done|]. set_solver.
      * rewrite decide_False; [done|]. set_solver.
Qed.

Lemma get_spec k s t :
  rep s t → bst t →
  get k s = Ok (if decide (k ∈ keys t) then Some k else None) s.
Proof.
  intros Hrep Hbst. pose proof (rep_height _ _ Hrep) as Hh.
  destruct Hrep as [Ho Hr Hw Hn Hb].
  pose proof (get_loop_spec k (fuel_of s) t None s Ho
    (bounded_nil _ _ Hb) Hbst) as H.
  unfold get, mbind, M_bind, bind, get_root, get_fuel. rewrite Hr.
  unfold wp in H. unfold fuel_of in *.
  destruct (get_loop _ _ _ s); try (exfalso; apply H; lia).
  destruct H as [-> ->]; [lia|done].
Qed.

Lemma contains_spec k s t :
  rep s t → bst t →
  contains k s = Ok (bool_decide (k ∈ keys t)) s.
Proof.
  intros Hrep Hbst. unfold contains, mbind, M_bind, bind.
  rewrite (get_spec k s t) by done. unfold mret, M_ret, ret. f_equal.
  destruct (decide (k ∈ keys t)) as [Hin|Hin].
  - by rewrite !bool_decide_true.
  - rewrite (bool_decide_false (k ∈ keys t)) by done.
    apply bool_decide_false. by intros ?.
Qed.

(** * Sequences of calls *)

Import memtable shape.

Lemma inv_new_MemTable : inv new_MemTable Lf.
Proof.
  split_and!; [apply rep_new_MemTable|constructor|done|done].
Qed.

Lemma insert_ok k s t :
  inv s t →
  ∃ s' t', insert k s = Ok (bool_decide (k ∉ keys t)) s' ∧ inv s' t' ∧
           (∀ y, y ∈ keys t' ↔ y = k ∨ y ∈ keys t).
Proof.
  intros Hinv. pose proof (insert_spec k s t Hinv) as H.
  apply wp_inv in H as (b & s' & Hrun & t' & Hinv' & -> & Hk & _).
  by exists s', t'.
Qed.

Lemma insert_all_spec ks : ∀ s t,
  inv s t →
  ∃ bs s' t', insert_all ks s = Ok bs s' ∧ inv s' t' ∧
              (∀ y, y ∈ keys t' ↔ y ∈ ks ∨ y ∈ keys t).
Proof.
  induction ks as [|k ks IH]; intros s t Hinv.
  - exists [], s, t. split_and!; [done|done|]. set_solver.
  - destruct (insert_ok k s t Hinv) as (s1 & t1 & Hrun & Hinv1 & Hk1).
    destruct (IH s1 t1 Hinv1) as (bs & s2 & t2 & Hrun2 & Hinv2 & Hk2).
    exists (bool_decide (k ∉ keys t) :: bs), s2, t2. split_and!; [|done|].
    + cbn [insert_all]. unfold mbind, M_bind, bind. by rewrite Hrun, Hrun2.
    + intros y. rewrite Hk2, Hk1. set_solver.
Qed.

Lemma sorted_NoDup (l : list bytes) : StronglySorted Bytes.lt l → NoDup l.
Proof.
  induction 1 as [|x l Hs IH Hx]; constructor; [|done].
  intros Hin. rewrite Forall_forall in Hx. specialize (Hx _ Hin).
  by apply irreflexivity in Hx; [|apply _].
Qed.

Lemma sorted_filter (P : bytes → Prop) `{∀ x, Decision (P x)} (l : list bytes) :
  StronglySorted Bytes.lt l → StronglySorted Bytes.lt (filter P l).
Proof.
  induction 1 as [|x l Hs IH Hx]; [constructor|].
  rewrite filter_cons. destruct (decide (P x)); [|done].
  constructor; [done|]. rewrite Forall_forall in *.
  intros y [_ Hy]%list_elem_of_filter. by apply Hx.
Qed.

(** C4: after any sequence of [insert] calls on a new memtable,
    [insert k] returns true exactly when [k] was not inserted before,
    the memtable contains [k] after the call, and the iteration that
    follows yields the inserted keys, each once, in strictly increasing
    byte order. *)
Theorem insert_then_iter (ks : list bytes) (k : bytes) :
  ∃ bs s b s' ys,
    insert_all ks new_MemTable = Ok bs s ∧
    insert k s = Ok b s' ∧
    b = bool_decide (k ∉ ks) ∧
    contains k s' = Ok true s' ∧
    iter s' = Ok (Some <$> ys) s' ∧
    StronglySorted Bytes.lt ys ∧ NoDup ys ∧
    (∀ y, y ∈ ys ↔ y ∈ ks ++ [k]).
Proof.
  destruct (insert_all_spec ks _ _ inv_new_MemTable)
    as (bs & s & t & Hrun & Hinv & Hk).
  destruct (insert_ok k s t Hinv) as (s' & t' & Hrun' & Hinv' & Hk').
  destruct Hinv' as (Hrep & Hbst & _ & _).
  exists bs, s, (bool_decide (k ∉ keys t)), s', (keys t').
  split_and!; try done.
  - apply bool_decide_ext. rewrite Hk. set_solver.
  - rewrite (contains_spec k s' t') by done. f_equal.
    apply bool_decide_eq_true. rewrite Hk'. by left.
  - by apply iter_spec.
  - by apply sorted_NoDup.
  - intros y. rewrite Hk', Hk. set_solver.
Qed.

(** C5: on a memtable built by any sequence of [insert] calls,
    [range_lookup lo hi] returns the concatenation, in ascending byte
    order, of exactly the keys [k] of the memtable with [lo <= k <= hi];
    the result is empty when [lo > hi]. *)
Theorem range_lookup_inclusive (ks : list bytes) (lo hi : bytes) :
  ∃ bs s ys,
    insert_all ks new_MemTable = Ok bs s ∧
    memtable.range_lookup lo hi s = Ok (concat ys) s ∧
    StronglySorted Bytes.lt ys ∧
    (∀ y, y ∈ ys ↔ y ∈ ks ∧ Bytes.le lo y ∧ Bytes.le y hi) ∧
    (Bytes.lt hi lo → ys = [] ∧ concat ys = []).
Proof.
  destruct (insert_all_spec ks _ _ inv_new_MemTable)
    as (bs & s & t & Hrun & Hinv & Hk).
  destruct Hinv as (Hrep & Hbst & _ & _).
  exists bs, s, (filter (λ k, in_range lo hi k) (keys t)).
  assert (∀ y, y ∈ filter (λ k, in_range lo hi k) (keys t) ↔
               y ∈ ks ∧ Bytes.le lo y ∧ Bytes.le y hi) as Hin.
  { intros y. rewrite list_elem_of_filter, Hk. unfold in_range, Bytes.le.
    rewrite andb_True, !Is_true_true. set_solver. }
  split_and!; try done.
  - by apply range_lookup_spec.
  - by apply sorted_filter.
  - intros Hlt.
    assert (filter (λ k, in_range lo hi k) (keys t) = []) as ->; [|done].
    apply elem_of_nil_inv. intros y (_ & H1 & H2)%Hin.
    apply bytes_leb_iff in H1, H2. unfold Bytes.lt in Hlt.
    change (Bytes.lt hi lo) in Hlt. change (_ <?b _ = true) with (Bytes.lt lo y) in H1.
    change (_ <?b _ = true) with (Bytes.lt y hi) in H2.
    assert (Bytes.lt hi hi) as Hirr.
    { destruct H1 as [H1|E1], H2 as [H2|E2]; subst.
      - trans lo; [done|]. by trans y.
      - by trans lo.
      - by trans y.
      - done. }
    by apply irreflexivity in Hirr; [|apply _].
Qed.

(** * [remove] and the successor search *)

Import memtable shape.

Section no_NameError.
Context {S : Type}.

Lemma nn_ret {A} (a : A) : no_NameError (mret a : M S A).
Proof. by intros s e s' [=]. Qed.

Lemma nn_stuck {A} : no_NameError (stuck : M S A).
Proof. by intros s e s' [=]. Qed.

Lemma nn_raise {A} e : is_NameError e = false → no_NameError (raise e : M S A).
Proof. by intros He s e' s' [= <- _]. Qed.

Lemma nn_bind {A B} (m : M S A) (k : A → M S B) :
  no_NameError m → (∀ a, no_NameError (k a)) → no_NameError (m ≫= k).
Proof.
  intros Hm Hk s e s'. unfold mbind, M_bind, bind.
  destruct (m s) as [a s1|e1 s1|] eqn:E; [apply Hk| |done].
  intros [= <- <-]. by eapply Hm.
Qed.

End no_NameError.

Lemma nn_load o : no_NameError (load o).
Proof.
  intros s e s'. unfold load. destruct o as [r|]; [|by intros [= <- _]].
  by destruct (heap s !! r).
Qed.

Lemma nn_store o f : no_NameError (store o f).
Proof.
  intros s e s'. unfold store. destruct o as [r|]; [|by intros [= <- _]].
  by destruct (heap s !! r).
Qed.

Ltac nn_step :=
  lazymatch goal with
  | |- no_NameError (mbind _ _) => apply nn_bind; [|intros ?]
  | |- no_NameError (mret _) => apply nn_ret
  | |- no_NameError (load _) => apply nn_load
  | |- no_NameError (store _ _) => apply nn_store
  | |- no_NameError (if ?b then _ else _) => destruct b
  | |- no_NameError get_root => by intros ? ? ? [=]
  | |- no_NameError (set_root _) => by intros ? ? ? [=]
  | |- no_NameError get_fuel => by intros ? ? ? [=]
  | |- no_NameError get_elements => by intros ? ? ? [=]
  | |- no_NameError (set_elements _) => by intros ? ? ? [=]
  | |- no_NameError (get_parent _) => unfold get_parent
  | |- no_NameError (get_left _) => unfold get_left
  | |- no_NameError (get_right _) => unfold get_right
  | |- no_NameError (get_red _) => unfold get_red
  | |- no_NameError (get_key _) => unfold get_key
  | |- no_NameError (set_parent _ _) => unfold set_parent
  | |- no_NameError (set_left _ _) => unfold set_left
  | |- no_NameError (set_right _ _) => unfold set_right
  | |- no_NameError (set_red _ _) => unfold set_red
  | |- no_NameError (set_key _ _) => unfold set_key
  | |- no_NameError (right_rotate _) => unfold right_rotate
  | |- no_NameError (left_rotate _) => unfold left_rotate
  | |- no_NameError (delete_node _) => unfold delete_node
  end.

Lemma nn_fix_double_black fuel : ∀ node, no_NameError (fix_double_black fuel node).
Proof.
  induction fuel as [|fuel IH]; intros node; [apply nn_stuck|].
  cbn [fix_double_black].
  repeat first [ apply IH | nn_step ].
Qed.

(** An iteration of [fix_remove] on a node without a left child does not
    search for a successor. *)
Lemma nn_fix_remove_no_left fuel node s e s' :
  get_left node s = Ok NIL s →
  fix_remove fuel node s = Raise e s' → is_NameError e = false.
Proof.
  intros Hl. destruct fuel as [|fuel]; [done|]. cbn [fix_remove].
  unfold mbind at 1, M_bind at 1, bind at 1. rewrite Hl.
  rewrite decide_False by (by intros ?).
  unfold mbind at 1, M_bind at 1, bind at 1. cbn [mret M_ret ret].
  revert s e s' Hl.
  change (∀ s e s', get_left node s = Ok NIL s → ?m s = Raise e s' → ?P)
    with (∀ s e s', get_left node s = Ok NIL s → m s = Raise e s' → P).
  intros s e s' _. revert s e s'.
  match goal with |- ∀ s e s', ?m s = _ → _ => change (no_NameError m) end.
  repeat first [ apply nn_fix_double_black | nn_step ].
Qed.

Lemma get_left_set_key r x v s s1 l :
  get_left r s = Ok l s → set_key (Some x) v s = Ok tt s1 →
  get_left r s1 = Ok l s1.
Proof.
  unfold get_left, set_key, mbind, M_bind, bind, load, store.
  destruct r as [y|]; [|done].
  destruct (heap s !! y) as [n|] eqn:Hy; [|done]. intros [= <-].
  destruct (heap s !! x) as [m|] eqn:Hx; [|done]. intros [= <-]. simpl.
  destruct (decide (x = y)) as [->|Hne].
  - rewrite lookup_insert_eq. simpl. by simplify_eq.
  - rewrite lookup_insert_ne by done. by rewrite Hy.
Qed.

(** C10: when the descent of [remove k] stops at a node with two non-NIL
    children, [remove k] raises [UnboundLocalError], a [NameError], if
    the right child has a non-NIL left child, in which case the memtable
    is left as it was; if the right child has no left child, [remove k]
    raises no [NameError]. *)
Theorem remove_two_children (s : MemTable) (k : bytes) (x : ref) (l r rl : pyobj) :
  remove_find (fuel_of s) k (root s) s = Ok (Some x) s →
  Some x ≠ NIL →
  get_left (Some x) s = Ok l s → l ≠ NIL →
  get_right (Some x) s = Ok r s → r ≠ NIL →
  get_left r s = Ok rl s →
  (rl ≠ NIL → remove k s = Raise UnboundLocalError s) ∧
  (rl = NIL → ∀ e s', remove k s = Raise e s' → is_NameError e = false).
Proof.
  intros Hfind Hx Hl Hln Hr Hrn Hrl.
  assert (∀ out, remove k s = out →
    out = (fix_remove (fuel_of s) (Some x) ≫= λ _,
           n ← get_elements; set_elements (n - 1);; mret true) s) as Hrem.
  { intros out <-. unfold remove.
    unfold mbind at 1, M_bind at 1, bind at 1. cbn [get_root].
    unfold mbind at 1, M_bind at 1, bind at 1. cbn [get_fuel].
    unfold mbind at 1, M_bind at 1, bind at 1. rewrite Hfind.
    by rewrite decide_False by done. }
  assert (∀ B (k' : pyobj → Mt B),
    (node_successor (Some x) ≫= k') s =
    if decide (rl ≠ NIL) then Raise UnboundLocalError s else k' r s) as Hsucc.
  { intros B k'. unfold node_successor.
    unfold mbind at 1, M_bind at 1, bind at 1.
    unfold mbind at 1, M_bind at 1, bind at 1. rewrite Hr.
    unfold mbind at 1, M_bind at 1, bind at 1. rewrite Hrl.
    by destruct (decide (rl ≠ NIL)). }
  split.
  - intros Hne. rewrite (Hrem _ eq_refl).
    unfold mbind at 1, M_bind at 1, bind at 1.
    cbn [fuel_of fix_remove].
    unfold mbind at 1, M_bind at 1, bind at 1.
    unfold mbind at 1, M_bind at 1, bind at 1. rewrite Hl.
    rewrite decide_True by done.
    unfold mbind at 1, M_bind at 1, bind at 1. rewrite Hr.
    cbn [mret M_ret ret]. rewrite bool_decide_true by done.
    rewrite Hsucc. by rewrite decide_True by done.
  - intros -> e s' Hrun. apply Hrem in Hrun. symmetry in Hrun.
    revert Hrun. unfold mbind at 1, M_bind at 1, bind at 1.
    destruct (fix_remove (fuel_of s) (Some x) s) as [[] s1|e1 s1|] eqn:Hfr.
    + revert e s'.
      match goal with |- ∀ e s', ?m s1 = _ → _ =>
        assert (no_NameError m) as Hnn by (repeat nn_step) end.
      intros e s'. apply Hnn.
    + intros [= <- <-]. revert Hfr. cbn [fuel_of fix_remove].
      unfold mbind at 1, M_bind at 1, bind at 1.
      unfold mbind at 1, M_bind at 1, bind at 1. rewrite Hl.
      rewrite decide_True by done.
      unfold mbind at 1, M_bind at 1, bind at 1. rewrite Hr.
      cbn [mret M_ret ret]. rewrite bool_decide_true by done.
      rewrite Hsucc. rewrite decide_False by (by intros ?).
      unfold mbind at 1, M_bind at 1, bind at 1.
      destruct (get_key r s) as [tk s0|e0 s0|] eqn:Hk; [| |done].
      * assert (s0 = s) as ->.
        { revert Hk. unfold get_key, mbind, M_bind, bind, load.
          destruct r as [y|]; [|done]. destruct (heap s !! y); [|done].
          by intros [= _ <-]. }
        unfold mbind at 1, M_bind at 1, bind at 1.
        destruct (set_key (Some x) tk s) as [[] s2|e2 s2|] eqn:Hs; [| |done].
        -- apply nn_fix_remove_no_left.
           by eapply get_left_set_key.
        -- intros [= <- <-]. unfold set_key in Hs. by eapply nn_store.
      * intros [= <- <-]. revert Hk. apply nn_bind; [apply nn_load|].
        intros ?. apply nn_ret.
    + done.
Qed.

Import samples.

(** The hypotheses of [remove_two_children] hold on the memtable built
    by inserting 2, 1, 4, 3, where 2 is the root and its right child 4
    has the left child 3: [remove] raises there. *)
Lemma remove_two_children_raises :
  ∃ bs s, insert_all [k2; k1; k4; k3] new_MemTable = Ok bs s ∧
          remove k2 s = Raise UnboundLocalError s.
Proof.
  eexists _, _. split; [vm_compute; reflexivity|].
  apply (remove_two_children _ k2 1%nat (Some 2%nat) (Some 3%nat) (Some 4%nat));
    first [ vm_compute; reflexivity | discriminate ].
Defined.

(** On the memtable built by inserting 1, 2, 3 the node of 2 has the two
    children 1 and 3, and [remove] returns [True]. *)
Lemma remove_two_children_returns :
  ∃ bs s s', insert_all [k1; k2; k3] new_MemTable = Ok bs s ∧
    remove_find (fuel_of s) k2 (root s) s = Ok (Some 2%nat) s ∧
    get_left (Some 2%nat) s = Ok (Some 1%nat) s ∧ Some 1%nat ≠ NIL ∧
    get_right (Some 2%nat) s = Ok (Some 3%nat) s ∧ Some 3%nat ≠ NIL ∧
    remove k2 s = Ok true s'.
Proof.
  eexists _, _, _. split; [vm_compute; reflexivity|].
  split_and!; first [ vm_compute; reflexivity | discriminate ].
Qed.

(** * The Bloom filter *)

Import bloomfilter.

Section bloom.
Variable mmh3_hash : bytes → Z → Z.

(** The index [get_digest] computes on a bit array of length [n]. *)
Let digest (k : bytes) (seed : Z) (n : nat) : Z :=
  Z.land (mmh3_hash k seed) 0xFFFFFFFF `mod` Z.of_nat n.

(** [self] becomes [self'] by setting bits. *)
Let grows (self self' : BloomFilter) : Prop :=
  hash_count self' = hash_count self ∧
  length (bit_array self') = length (bit_array self) ∧
  ∀ j, bit_array self !! j = Some true → bit_array self' !! j = Some true.

Lemma grows_refl self : grows self self.
Proof. done. Qed.

Lemma grows_trans a b c : grows a b → grows b c → grows a c.
Proof.
  intros (H1 & H2 & H3) (H4 & H5 & H6). split_and!; [congruence..|auto].
Qed.

Lemma digest_bound k seed n :
  n ≠ O → 0 ≤ digest k seed n < Z.of_nat n.
Proof. intros Hn. unfold digest. apply Z.mod_pos_bound. lia. Qed.

Lemma add_loop_spec k n : ∀ i self,
  bit_array self ≠ [] →
  ∃ self', add_loop mmh3_hash k i n self = Ok tt self' ∧ grows self self' ∧
    ∀ j, (0 ≤ j < Z.of_nat n) →
      bit_array self' !!
        Z.to_nat (digest k (i + j) (length (bit_array self))) = Some true.
Proof.
  induction n as [|n IH]; intros i self Hne.
  - exists self. split_and!; [done|done|lia].
  - assert (length (bit_array self) ≠ O) as Hlen by (by destruct (bit_array self)).
    pose proof (digest_bound k i _ Hlen) as Hd.
    set (self1 := mkBloomFilter (hash_count self)
           (<[Z.to_nat (digest k i (length (bit_array self))) := true]>
              (bit_array self))).
    assert (grows self self1) as Hg1.
    { split_and!; [done|simpl; by rewrite length_insert|].
      intros j Hj. simpl.
      destruct (decide (Z.to_nat (digest k i (length (bit_array self))) = j)) as [<-|].
      - apply list_lookup_insert_eq. lia.
      - by rewrite list_lookup_insert_ne. }
    destruct (IH (i + 1) self1) as (self' & Hrun & Hg & Hbits).
    { intros Hnil. apply (f_equal length) in Hnil.
      destruct Hg1 as (_ & Hl & _). rewrite Hl in Hnil. simpl in Hnil. lia. }
    exists self'. split_and!.
    + cbn [add_loop]. unfold mbind at 1, M_bind at 1, bind at 1.
      unfold get_digest. rewrite (proj2 (Z.eqb_neq _ _)) by lia.
      unfold mbind at 1, M_bind at 1, bind at 1. unfold set_bit.
      fold (digest k i (length (bit_array self))).
      rewrite (proj2 (Z.leb_le _ _)), (proj2 (Z.ltb_lt _ _)) by lia.
      exact Hrun.
    + by eapply grows_trans.
    + intros j Hj. destruct Hg1 as (_ & Hl1 & _). rewrite Hl1 in Hbits.
      destruct (decide (j = 0)) as [->|].
      * destruct Hg as (_ & _ & Hg). apply Hg. rewrite Z.add_0_r. simpl.
        apply list_lookup_insert_eq. lia.
      * replace (i + j) with (i + 1 + (j - 1)) by lia. apply Hbits. lia.
Qed.

Lemma add_spec k self :
  bit_array self ≠ [] →
  ∃ self', add mmh3_hash k self = Ok tt self' ∧ grows self self' ∧
    ∀ j, (0 ≤ j < hash_count self) →
      bit_array self' !!
        Z.to_nat (digest k j (length (bit_array self))) = Some true.
Proof.
  intros Hne.
  destruct (add_loop_spec k (Z.to_nat (hash_count self)) 0 self Hne)
    as (self' & Hrun & Hg & Hbits).
  exists self'. split_and!; [done|done|].
  intros j Hj. apply (Hbits j). lia.
Qed.

Lemma grows_nonempty a b : grows a b → bit_array a ≠ [] → bit_array b ≠ [].
Proof.
  intros (_ & Hl & _) Hne Hnil. apply (f_equal length) in Hnil.
  rewrite Hl in Hnil. by destruct (bit_array a).
Qed.

Lemma add_all_spec ks : ∀ self,
  bit_array self ≠ [] →
  ∃ self', add_all mmh3_hash ks self = Ok tt self' ∧ grows self self'.
Proof.
  induction ks as [|k ks IH]; intros self Hne.
  - by exists self.
  - destruct (add_spec k self Hne) as (self1 & Hrun1 & Hg1 & _).
    destruct (IH self1 (grows_nonempty _ _ Hg1 Hne)) as (self' & Hrun & Hg).
    exists self'. split; [|by eapply grows_trans].
    cbn [add_all]. unfold mbind, M_bind, bind. by rewrite Hrun1.
Qed.

Lemma check_loop_spec k n : ∀ i self,
  bit_array self ≠ [] →
  (∀ j, (0 ≤ j < Z.of_nat n) →
     bit_array self !!
       Z.to_nat (digest k (i + j) (length (bit_array self))) = Some true) →
  check_loop mmh3_hash k i n self = Ok true self.
Proof.
  induction n as [|n IH]; intros i self Hne Hbits; [done|].
  assert (length (bit_array self) ≠ O) as Hlen by (by destruct (bit_array self)).
  pose proof (digest_bound k i _ Hlen) as Hd.
  cbn [check_loop]. unfold mbind at 1, M_bind at 1, bind at 1.
  unfold get_digest. rewrite (proj2 (Z.eqb_neq _ _)) by lia.
  unfold mbind at 1, M_bind at 1, bind at 1. unfold get_bit.
  fold (digest k i (length (bit_array self))).
  rewrite (proj2 (Z.leb_le _ _)), (proj2 (Z.ltb_lt _ _)) by lia. simpl.
  pose proof (Hbits 0) as H0. rewrite Z.add_0_r in H0. rewrite H0 by lia.
  apply IH; [done|]. intros j Hj.
  replace (i + 1 + j) with (i + (j + 1)) by lia. apply Hbits. lia.
Qed.

(** C7: after any sequence of [add] calls that includes [add p], on a
    filter whose bit array is not empty, [check p] returns true: the
    calls that follow [add p] only set bits. *)
Theorem no_false_negatives (self : BloomFilter) (before after : list bytes)
    (p : bytes) :
  bit_array self ≠ [] →
  ∃ self', add_all mmh3_hash (before ++ p :: after) self = Ok tt self' ∧
           check mmh3_hash p self' = Ok true self'.
Proof.
  intros Hne.
  destruct (add_all_spec before self Hne) as (s1 & Hrun1 & Hg1).
  pose proof (grows_nonempty _ _ Hg1 Hne) as Hne1.
  destruct (add_spec p s1 Hne1) as (s2 & Hrun2 & Hg2 & Hbits).
  pose proof (grows_nonempty _ _ Hg2 Hne1) as Hne2.
  destruct (add_all_spec after s2 Hne2) as (s3 & Hrun3 & Hg3).
  exists s3. split.
  - clear -Hrun1 Hrun2 Hrun3. revert self Hrun1.
    induction before as [|k ks IH]; intros self Hrun1.
    + injection Hrun1 as <-. cbn [app add_all].
      unfold mbind, M_bind, bind. by rewrite Hrun2.
    + cbn [app add_all] in *. unfold mbind, M_bind, bind in *.
      destruct (add mmh3_hash k self) as [[] s0| |]; [|done..]. by apply IH.
  - unfold check, mbind, M_bind, bind.
    apply check_loop_spec; [by eapply grows_nonempty|].
    intros j Hj. destruct Hg3 as (Hh3 & Hl3 & Hb3). apply Hb3.
    destruct Hg2 as (Hh2 & Hl2 & _). rewrite Hl3, Hl2.
    apply Hbits. rewrite Z.add_0_l. lia.
Qed.

End bloom.

(** The hypothesis of [no_false_negatives] holds on a filter of 16 bits
    and 3 hashes, with MurmurHash3 as the hash. *)
Lemma no_false_negatives_witness :
  ∃ self',
    add_all mmh3.hash ([samples.p1] ++ samples.p2 :: [samples.p3])
      (mkBloomFilter 3 (replicate 16 false)) = Ok tt self' ∧
    check mmh3.hash samples.p2 self' = Ok true self'.
Proof.
  apply (no_false_negatives mmh3.hash (mkBloomFilter 3 (replicate 16 false))
           [samples.p1] [samples.p3] samples.p2).
  simpl. discriminate.
Defined.

(** * The sizing of the filter *)

Import bloomfilter.

Lemma Qpower_2_pos (p : positive) :
  (Qpower 2 (Z.pos p) == inject_Z (2 ^ Z.pos p))%Q.
Proof.
  simpl. change 2%Q with (2 # 1)%Q. rewrite Qpower_decomp_positive.
  assert (1 ^ p = 1)%positive as ->; [|reflexivity].
  apply Pos2Z.inj. rewrite Pos2Z.inj_pow. apply Z.pow_1_l. lia.
Qed.

(** [int(x)] rounds the value of [x] towards zero. *)
Lemma int_of_float_trunc (x : float) (z : Z) :
  int_of_float x = inr z →
  ∃ v, float_value x = Some v ∧ z = Qtrunc v.
Proof.
  unfold int_of_float, float_value.
  destruct (Prim2SF x) as [s|s| |s m e]; try done.
  - intros [= <-]. by exists 0%Q.
  - intros [= <-]. eexists. split; [reflexivity|].
    set (v := (inject_Z (Z.pos m) * Qpower 2 e)%Q).
    assert (∃ n d, (0 < n)%Z ∧ (v == inject_Z n / inject_Z (Z.pos d))%Q ∧
              (if 0 <=? e then Z.pos m * 2 ^ e else Z.pos m / 2 ^ (- e))%Z
                = (n / Z.pos d)%Z) as (n & d & Hn & Hv & ->).
    { unfold v. destruct e as [|p|p].
      - exists (Z.pos m), 1%positive. split_and!; [lia| |].
        + simpl. field.
        + change (Z.pos m * 2 ^ 0 = Z.pos m / 1)%Z.
          rewrite Z.pow_0_r, Z.mul_1_r. symmetry. apply Z.div_1_r.
      - exists (Z.pos m * 2 ^ Z.pos p)%Z, 1%positive. split_and!; [lia| |].
        + rewrite Qpower_2_pos, inject_Z_mult. simpl. field.
        + change (Z.pos m * 2 ^ Z.pos p = Z.pos m * 2 ^ Z.pos p / 1)%Z.
          symmetry. apply Z.div_1_r.
      - exists (Z.pos m), (2 ^ p)%positive. split_and!; [lia| |].
        + change (Z.neg p) with (- Z.pos p)%Z. rewrite Qpower_opp, Qpower_2_pos.
          rewrite Pos2Z.inj_pow. reflexivity.
        + change (Z.pos m / 2 ^ Z.pos p = Z.pos m / Z.pos (2 ^ p))%Z.
          by rewrite Pos2Z.inj_pow. }
    assert (0 < v)%Q as Hpos.
    { rewrite Hv. apply Qlt_shift_div_l; [done|].
      rewrite Qmult_0_l. change 0%Q with (inject_Z 0). by rewrite <-Zlt_Qlt. }
    unfold Qtrunc. destruct s.
    + assert (Qle_bool 0 (- v) = false) as ->.
      { apply not_true_is_false. rewrite Qle_bool_iff. intros Hle.
        apply (Qlt_irrefl 0). eapply Qlt_le_trans; [exact Hpos|].
        rewrite <-(Qopp_involutive v). change 0%Q with (- 0)%Q.
        by apply Qopp_le_compat. }
      unfold Qceiling. rewrite (Qfloor_comp _ _ (Qopp_involutive v)).
      by rewrite (Qfloor_comp _ _ Hv), <-Zdiv_Qdiv.
    + assert (Qle_bool 0 v = true) as ->.
      { apply Qle_bool_iff. by apply Qlt_le_weak. }
      by rewrite (Qfloor_comp _ _ Hv), <-Zdiv_Qdiv.
Qed.

Section sizing.
Variable math_log : float → float.
Variable float_pow : float → float → float.
Variable BF_FP_PROBABILITY : float.

(** C8: the filter that [BloomFilter(n)] constructs has as many bits,
    all clear, as the float [bitarray_size] has units when it is rounded
    towards zero (its floor, the size being positive, and not its
    ceiling), and its hash count is the larger of 1 and the float
    [(bitarray_size / n) * log 2], computed from the size before it is
    rounded, rounded towards zero. *)
Theorem init_sizes (n : Z) (bf : BloomFilter) :
  init math_log float_pow BF_FP_PROBABILITY n = inr bf →
  ∃ size nf v w,
    bitarray_size math_log float_pow BF_FP_PROBABILITY n = inr size ∧
    float_of_int n = inr nf ∧
    float_value size = Some v ∧
    float_value ((size / nf) * math_log 2)%float = Some w ∧
    0 ≤ Qtrunc v ∧
    bit_array bf = replicate (Z.to_nat (Qtrunc v)) false ∧
    hash_count bf = Z.max 1 (Qtrunc w).
Proof.
  unfold init.
  destruct (bitarray_size _ _ _ n) as [e|size]; [done|].
  destruct (float_of_int n) as [e|nf]; [done|].
  unfold float_div. destruct (is_zero nf); [done|].
  destruct (int_of_float (size / nf * math_log 2)) as [e|k] eqn:Hk; [done|].
  destruct (int_of_float size) as [e|m] eqn:Hm; [done|].
  destruct (m <? 0) eqn:Hneg; [done|]. intros [= <-].
  apply int_of_float_trunc in Hk as (w & Hw & ->).
  apply int_of_float_trunc in Hm as (v & Hv & ->).
  exists size, nf, v, w. split_and!; try done. lia.
Qed.

End sizing.

(** The constructor runs on [n = 1000] with [p = 0.01]: 9815 bits and 6
    hashes. *)
Lemma init_sizes_witness :
  ∃ size nf v w,
    bitarray_size libm.math_log libm.float_pow libm.BF_FP_PROBABILITY 1000
      = inr size ∧
    float_of_int 1000 = inr nf ∧
    float_value size = Some v ∧
    float_value ((size / nf) * libm.math_log 2)%float = Some w ∧
    0 ≤ Qtrunc v ∧
    replicate 9815 false = replicate (Z.to_nat (Qtrunc v)) false ∧
    6 = Z.max 1 (Qtrunc w).
Proof.
  apply (init_sizes libm.math_log libm.float_pow libm.BF_FP_PROBABILITY 1000
           (mkBloomFilter 6 (replicate 9815 false))).
  vm_compute. reflexivity.
Defined.

(** For [n = 1] and [p = 0.01] the size is 239.62...: the filter has 239
    bits where the ceiling is 240, and 166 hashes where the formula of
    the hash count gives 165 on 239 bits. *)
Lemma init_not_ceiling :
  ∃ bf size v ln2,
    init libm.math_log libm.float_pow libm.BF_FP_PROBABILITY 1 = inr bf ∧
    bitarray_size libm.math_log libm.float_pow libm.BF_FP_PROBABILITY 1
      = inr size ∧
    float_value size = Some v ∧
    float_value (libm.math_log 2) = Some ln2 ∧
    Z.of_nat (length (bit_array bf)) = 239 ∧ spec_filter.bits v = 240 ∧
    hash_count bf = 166 ∧ spec_filter.hashes 239 1 ln2 = 165.
Proof.
  eexists _, _, _, _.
  split; [vm_compute; reflexivity|].
  split; [vm_compute; reflexivity|].
  split; [vm_compute; reflexivity|].
  split; [vm_compute; reflexivity|].
  split_and!; vm_compute; reflexivity.
Qed.

(** * Index files *)

Import constants memtable shape idx_reader samples.

(** ** Records in a file *)

Lemma slice_take_drop (data : bytes) (a b : Z) :
  0 ≤ a → a ≤ Bytes.len data → 0 ≤ b → b ≤ Bytes.len data →
  Bytes.slice data a b = take (Z.to_nat b - Z.to_nat a) (drop (Z.to_nat a) data).
Proof.
  intros Ha1 Ha2 Hb1 Hb2. unfold Bytes.slice, Bytes.clamp.
  rewrite (proj2 (Z.ltb_ge a 0)), (proj2 (Z.ltb_ge b 0)) by lia.
  rewrite (Z.min_r _ a), (Z.min_r _ b), !Z.max_r by lia.
  f_equal. lia.
Qed.

Lemma length_concat_records (h : nat) (recs : list bytes) :
  Forall (λ r, length r = h) recs →
  length (concat recs) = (length recs * h)%nat.
Proof.
  induction 1 as [|r l Hr _ IH]; simpl; [done|].
  rewrite length_app, IH, Hr. lia.
Qed.

Lemma drop_concat_records (h : nat) (recs : list bytes) :
  Forall (λ r, length r = h) recs →
  ∀ n, drop (n * h) (concat recs) = concat (drop n recs).
Proof.
  induction 1 as [|r l Hr _ IH]; intros n; simpl.
  - by rewrite !drop_nil.
  - destruct n as [|n]; [done|]. simpl.
    rewrite drop_app_ge by lia.
    replace (h + n * h - length r)%nat with (n * h)%nat by lia. apply IH.
Qed.

Lemma take_concat_records (h : nat) (recs : list bytes) :
  Forall (λ r, length r = h) recs →
  ∀ n, take (n * h) (concat recs) = concat (take n recs).
Proof.
  induction 1 as [|r l Hr _ IH]; intros n; simpl.
  - by rewrite !take_nil.
  - destruct n as [|n]; [done|]. simpl.
    rewrite take_app_ge by lia.
    replace (h + n * h - length r)%nat with (n * h)%nat by lia.
    by rewrite IH.
Qed.

Lemma slice_records (h : Z) (recs : list bytes) (a b : Z) :
  0 < h → Forall (λ r, Bytes.len r = h) recs →
  0 ≤ a ≤ Z.of_nat (length recs) → 0 ≤ b ≤ Z.of_nat (length recs) →
  Bytes.slice (concat recs) (a * h) (b * h) =
    concat (take (Z.to_nat b - Z.to_nat a) (drop (Z.to_nat a) recs)).
Proof.
  intros Hh Hl Ha Hb.
  assert (Forall (λ r, length r = Z.to_nat h) recs) as Hl'.
  { eapply Forall_impl; [exact Hl|]. intros r Hr. unfold Bytes.len in Hr.
    simpl in Hr. lia. }
  pose proof (length_concat_records _ _ Hl') as Hlen.
  rewrite slice_take_drop; unfold Bytes.len; rewrite ?Hlen; try nia.
  replace (Z.to_nat (a * h)) with (Z.to_nat a * Z.to_nat h)%nat by nia.
  replace (Z.to_nat (b * h) - Z.to_nat a * Z.to_nat h)%nat
    with ((Z.to_nat b - Z.to_nat a) * Z.to_nat h)%nat by nia.
  rewrite (drop_concat_records _ _ Hl').
  apply take_concat_records. by apply Forall_drop.
Qed.

Lemma slice_record (h : Z) (recs : list bytes) (i : Z) (r : bytes) :
  0 < h → Forall (λ r, Bytes.len r = h) recs →
  0 ≤ i → recs !! Z.to_nat i = Some r →
  Bytes.slice (concat recs) (i * h) (i * h + h) = r.
Proof.
  intros Hh Hl Hi Hr. pose proof (lookup_lt_Some _ _ _ Hr) as Hlt.
  replace (i * h + h) with ((i + 1) * h) by lia.
  rewrite (slice_records h recs i (i + 1)) by (done || lia).
  replace (Z.to_nat (i + 1) - Z.to_nat i)%nat with 1%nat by lia.
  rewrite (drop_S _ _ _ Hr). simpl. rewrite ?take_0. simpl. by rewrite app_nil_r.
Qed.

(** ** The binary searches of [range_lookup] *)

Lemma shiftr_mid (low high : Z) :
  low < high → low ≤ Z.shiftr (low + high) 1 < high.
Proof.
  intros H. rewrite Z.shiftr_div_pow2 by lia. change (2 ^ 1) with 2.
  split; [apply Z.div_le_lower_bound|apply Z.div_lt_upper_bound]; lia.
Qed.

Ltac search_spec IH Hmono low high :=
  let Htest := fresh "Htest" in
  let m := fresh "m" in
  let Hm := fresh "Hm" in
  let Hlt := fresh "Hlt" in
  let Hge := fresh "Hge" in
  let i := fresh "i" in
  let Hi := fresh "Hi" in
  let Hi' := fresh "Hi'" in
  match goal with
  | |- context [if ?b then _ else _] => destruct b eqn:Htest
  end;
  [ edestruct IH as (m & -> & Hm & Hlt & Hge); [| |lia|];
    [lia|lia|];
    exists m; split_and!; [done|lia|lia| |done];
    intros i Hi; destruct (decide (i ≤ Z.shiftr (low + high) 1));
      [eapply Hmono; [| |exact Htest]; lia|apply Hlt; lia]
  | edestruct IH as (m & -> & Hm & Hlt & Hge); [| |lia|];
    [lia|lia|];
    exists m; split_and!; [done|lia|lia|done|];
    intros i Hi; destruct (decide (i < Z.shiftr (low + high) 1));
      [apply Hge; lia|];
    apply not_true_is_false; intros Hi';
    rewrite (Hmono (Z.shiftr (low + high) 1) i) in Htest; [done|lia|lia|done] ].

Section search.
Variables (h : Z) (data bound : bytes) (H : Z).

Let f (i : Z) : bytes := Bytes.slice data (i * h) (i * h + h).

Lemma lower_search_spec :
  (∀ i j, 0 ≤ i ≤ j → j < H →
     Bytes.gtb bound (f j) = true → Bytes.gtb bound (f i) = true) →
  ∀ fuel low high,
    0 ≤ low ≤ high → high ≤ H → (Z.to_nat (high - low) < fuel)%nat →
    ∃ m, lower_search fuel h data bound low high = Some m ∧
         low ≤ m ≤ high ∧
         (∀ i, low ≤ i < m → Bytes.gtb bound (f i) = true) ∧
         (∀ i, m ≤ i < high → Bytes.gtb bound (f i) = false).
Proof.
  intros Hmono. induction fuel as [|fuel IH]; intros low high Hlo Hhi Hf; [lia|].
  cbn [lower_search]. destruct (low <? high) eqn:Hlt.
  - apply Z.ltb_lt in Hlt. pose proof (shiftr_mid low high Hlt) as Hmid.
    fold (f (Z.shiftr (low + high) 1)).
    search_spec IH Hmono low high.
  - apply Z.ltb_ge in Hlt. exists low. split_and!; [done|lia|lia| |]; intros; lia.
Qed.

Lemma upper_search_spec :
  (∀ i j, 0 ≤ i ≤ j → j < H →
     Bytes.geb bound (f j) = true → Bytes.geb bound (f i) = true) →
  ∀ fuel low high,
    0 ≤ low ≤ high → high ≤ H → (Z.to_nat (high - low) < fuel)%nat →
    ∃ m, upper_search fuel h data bound low high = Some m ∧
         low ≤ m ≤ high ∧
         (∀ i, low ≤ i < m → Bytes.geb bound (f i) = true) ∧
         (∀ i, m ≤ i < high → Bytes.geb bound (f i) = false).
Proof.
  intros Hmono. induction fuel as [|fuel IH]; intros low high Hlo Hhi Hf; [lia|].
  cbn [upper_search]. destruct (low <? high) eqn:Hlt.
  - apply Z.ltb_lt in Hlt. pose proof (shiftr_mid low high Hlt) as Hmid.
    fold (f (Z.shiftr (low + high) 1)).
    search_spec IH Hmono low high.
  - apply Z.ltb_ge in Hlt. exists low. split_and!; [done|lia|lia| |]; intros; lia.
Qed.

End search.

(** ** What [range_lookup] returns from a file *)

Lemma sorted_lookup_lt (l : list bytes) (i j : nat) (x y : bytes) :
  StronglySorted Bytes.lt l → (i < j)%nat →
  l !! i = Some x → l !! j = Some y → Bytes.lt x y.
Proof.
  intros Hs. revert i j. induction Hs as [|z l Hs IH Hz]; intros i j Hij Hx Hy.
  - by rewrite lookup_nil in Hx.
  - destruct j as [|j]; [lia|]. destruct i as [|i].
    + injection Hx as <-. rewrite Forall_forall in Hz. apply Hz.
      by eapply list_elem_of_lookup_2.
    + apply (IH i j); [lia|done..].
Qed.

(** The records of a list that two cuts delimit are the records in
    range. *)
Lemma filter_segment (lo hi : bytes) (l : list bytes) : ∀ a b : nat,
  (∀ i x, l !! i = Some x → (i < a)%nat → x <?b lo = true) →
  (∀ i x, l !! i = Some x → (a ≤ i)%nat → x <?b lo = false) →
  (∀ i x, l !! i = Some x → (i < b)%nat → hi <?b x = false) →
  (∀ i x, l !! i = Some x → (b ≤ i)%nat → hi <?b x = true) →
  filter (λ k, in_range lo hi k) l = take (b - a) (drop a l).
Proof.
  induction l as [|x l IH]; intros a b H1 H2 H3 H4.
  - by rewrite drop_nil, take_nil.
  - destruct a as [|a].
    + pose proof (H2 O x eq_refl (le_n _)) as Hx. destruct b as [|b].
      * pose proof (H4 O x eq_refl (le_n _)) as Hx'.
        rewrite filter_cons_False.
        2:{ unfold in_range, Bytes.leb. rewrite Hx', andb_false_r. by intros []. }
        rewrite (IH O O); [done|..].
        -- intros; lia.
        -- intros i y Hy _. apply (H2 (S i) y Hy). lia.
        -- intros; lia.
        -- intros i y Hy _. apply (H4 (S i) y Hy). lia.
      * pose proof (H3 O x eq_refl (Nat.lt_0_succ _)) as Hx'.
        rewrite filter_cons_True.
        2:{ unfold in_range, Bytes.leb. by rewrite Hx, Hx'. }
        simpl. f_equal. rewrite (IH O b); [by rewrite Nat.sub_0_r|..].
        -- intros; lia.
        -- intros i y Hy _. apply (H2 (S i) y Hy). lia.
        -- intros i y Hy Hi. apply (H3 (S i) y Hy). lia.
        -- intros i y Hy Hi. apply (H4 (S i) y Hy). lia.
    + pose proof (H1 O x eq_refl (Nat.lt_0_succ _)) as Hx.
      rewrite filter_cons_False.
      2:{ unfold in_range, Bytes.leb. rewrite Hx. by intros []. }
      rewrite (IH a (Nat.pred b)).
      * simpl. f_equal. lia.
      * intros i y Hy Hi. apply (H1 (S i) y Hy). lia.
      * intros i y Hy Hi. apply (H2 (S i) y Hy). lia.
      * intros i y Hy Hi. apply (H3 (S i) y Hy). lia.
      * intros i y Hy Hi. apply (H4 (S i) y Hy). lia.
Qed.

(** An index file of [N] records in increasing order. *)
Lemma range_lookup_file_spec (c : Constants) (recs : list bytes) (lo hi : bytes) :
  0 < c.(HASH_SIZE) →
  Z.of_nat (length recs) = c.(HASHES_PER_IDX) →
  1 ≤ c.(HASHES_PER_IDX) →
  Forall (λ r, Bytes.len r = c.(HASH_SIZE)) recs →
  StronglySorted Bytes.lt recs →
  range_lookup_file c (concat recs) lo hi =
    Some (concat (filter (λ k, in_range lo hi k)
                    (take (Z.to_nat (c.(HASHES_PER_IDX) - 1)) recs))).
Proof.
  intros Hh HN H1 Hlen Hs. unfold range_lookup_file, search_fuel.
  set (h := c.(HASH_SIZE)) in *. set (N := c.(HASHES_PER_IDX)) in *.
  assert (∀ i, 0 ≤ i < N → ∃ r, recs !! Z.to_nat i = Some r ∧
            Bytes.slice (concat recs) (i * h) (i * h + h) = r) as Hrec.
  { intros i Hi. destruct (lookup_lt_is_Some_2 recs (Z.to_nat i)) as [r Hr]; [lia|].
    exists r. split; [done|]. apply slice_record; [done|done|lia|done]. }
  assert (∀ i j, 0 ≤ i ≤ j → j < N - 1 →
    Bytes.gtb lo (Bytes.slice (concat recs) (j * h) (j * h + h)) = true →
    Bytes.gtb lo (Bytes.slice (concat recs) (i * h) (i * h + h)) = true) as Hm1.
  { intros i j Hij Hj. destruct (Hrec i) as (ri & Hri & ->); [lia|].
    destruct (Hrec j) as (rj & Hrj & ->); [lia|]. unfold Bytes.gtb.
    destruct (decide (i = j)) as [->|]; [by simplify_eq|].
    intros Hlt. apply (bytes_ltb_trans _ rj); [|done].
    apply (sorted_lookup_lt recs (Z.to_nat i) (Z.to_nat j)); [done|lia|done..]. }
  assert (∀ i j, 0 ≤ i ≤ j → j < N - 1 →
    Bytes.geb hi (Bytes.slice (concat recs) (j * h) (j * h + h)) = true →
    Bytes.geb hi (Bytes.slice (concat recs) (i * h) (i * h + h)) = true) as Hm2.
  { intros i j Hij Hj. destruct (Hrec i) as (ri & Hri & ->); [lia|].
    destruct (Hrec j) as (rj & Hrj & ->); [lia|]. unfold Bytes.geb.
    destruct (decide (i = j)) as [->|]; [by simplify_eq|].
    rewrite !negb_true_iff. intros Hge. apply not_true_is_false. intros Hlt.
    rewrite (bytes_ltb_trans hi ri rj) in Hge; [done|done|].
    apply (sorted_lookup_lt recs (Z.to_nat i) (Z.to_nat j)); [done|lia|done..]. }
  destruct (lower_search_spec h (concat recs) lo (N - 1) Hm1
              (S (Z.to_nat N)) 0 (N - 1)) as (m1 & -> & Hb1 & Hlt1 & Hge1);
    [lia..|].
  destruct (upper_search_spec h (concat recs) hi (N - 1) Hm2
              (S (Z.to_nat N)) 0 (N - 1)) as (m2 & -> & Hb2 & Hlt2 & Hge2);
    [lia..|].
  simpl. f_equal.
  rewrite slice_records by (done || lia). f_equal.
  rewrite (filter_segment lo hi _ (Z.to_nat m1) (Z.to_nat m2)).
  - rewrite !take_drop_commute, take_take. do 2 f_equal. lia.
  - intros i x [Hx Hi]%lookup_take_Some Him.
    destruct (Hrec (Z.of_nat i)) as (r & Hr & Hsl); [lia|].
    rewrite Nat2Z.id in Hr. assert (r = x) as -> by congruence.
    specialize (Hlt1 (Z.of_nat i)). rewrite Hsl in Hlt1. apply Hlt1. lia.
  - intros i x [Hx Hi]%lookup_take_Some Him.
    destruct (Hrec (Z.of_nat i)) as (r & Hr & Hsl); [lia|].
    rewrite Nat2Z.id in Hr. assert (r = x) as -> by congruence.
    specialize (Hge1 (Z.of_nat i)). rewrite Hsl in Hge1. apply Hge1. lia.
  - intros i x [Hx Hi]%lookup_take_Some Him.
    destruct (Hrec (Z.of_nat i)) as (r & Hr & Hsl); [lia|].
    rewrite Nat2Z.id in Hr. assert (r = x) as -> by congruence.
    specialize (Hlt2 (Z.of_nat i)). rewrite Hsl in Hlt2.
    unfold Bytes.geb in Hlt2. apply negb_true_iff, Hlt2. lia.
  - intros i x [Hx Hi]%lookup_take_Some Him.
    destruct (Hrec (Z.of_nat i)) as (r & Hr & Hsl); [lia|].
    rewrite Nat2Z.id in Hr. assert (r = x) as -> by congruence.
    specialize (Hge2 (Z.of_nat i)). rewrite Hsl in Hge2.
    unfold Bytes.geb in Hge2. apply negb_false_iff, Hge2. lia.
Qed.

(** The searches return whatever the file holds: the interval shrinks at
    every iteration. *)
Lemma lower_search_total h data bound fuel : ∀ low high,
  (Z.to_nat (high - low) < fuel)%nat →
  is_Some (lower_search fuel h data bound low high).
Proof.
  induction fuel as [|fuel IH]; intros low high Hf; [lia|].
  cbn [lower_search]. destruct (low <? high) eqn:Hlt; [|done].
  apply Z.ltb_lt in Hlt. pose proof (shiftr_mid low high Hlt).
  destruct (Bytes.gtb _ _); apply IH; lia.
Qed.

Lemma upper_search_total h data bound fuel : ∀ low high,
  (Z.to_nat (high - low) < fuel)%nat →
  is_Some (upper_search fuel h data bound low high).
Proof.
  induction fuel as [|fuel IH]; intros low high Hf; [lia|].
  cbn [upper_search]. destruct (low <? high) eqn:Hlt; [|done].
  apply Z.ltb_lt in Hlt. pose proof (shiftr_mid low high Hlt).
  destruct (Bytes.geb _ _); apply IH; lia.
Qed.

Lemma range_lookup_total c fs self lo hi :
  is_Some (idx_reader.range_lookup c fs self lo hi).
Proof.
  unfold idx_reader.range_lookup. generalize (@nil byte).
  induction (files fs self) as [|data fls IH]; intros res; [done|].
  cbn [range_lookup_files]. unfold range_lookup_file, search_fuel.
  destruct (lower_search_total (HASH_SIZE c) data lo
              (S (Z.to_nat (HASHES_PER_IDX c))) 0 (HASHES_PER_IDX c - 1))
    as [m1 ->]; [lia|].
  destruct (upper_search_total (HASH_SIZE c) data hi
              (S (Z.to_nat (HASHES_PER_IDX c))) 0 (HASHES_PER_IDX c - 1))
    as [m2 ->]; [lia|].
  simpl. apply IH.
Qed.

(** C2: on index files that each hold [N] records of [HASH_SIZE] bytes
    in increasing order, the range lookup of the reader returns, file by
    file, the keys [k] with [lo <= k <= hi] among the first [N - 1]
    records only: both binary searches start from [high = N - 1], so the
    last key of a file is never returned, whatever the bounds. *)
Theorem index_range_lookup_skips_last (c : Constants) (fs : FS)
    (self : IndexReader) (recss : list (list bytes)) (lo hi : bytes) :
  0 < c.(HASH_SIZE) → 1 ≤ c.(HASHES_PER_IDX) →
  files fs self = (λ recs, concat recs) <$> recss →
  Forall (index_file c) recss →
  idx_reader.range_lookup c fs self lo hi =
    Some (concat ((λ recs,
            concat (filter (λ k, in_range lo hi k)
                      (take (Z.to_nat (c.(HASHES_PER_IDX) - 1)) recs)))
          <$> recss)).
Proof.
  intros Hh HN Hfiles Hwf. unfold idx_reader.range_lookup. rewrite Hfiles.
  assert (∀ res, range_lookup_files c ((λ recs, concat recs) <$> recss) lo hi res =
    Some (res ++ concat ((λ recs,
            concat (filter (λ k, in_range lo hi k)
                      (take (Z.to_nat (c.(HASHES_PER_IDX) - 1)) recs)))
          <$> recss))) as Hgen; [|by rewrite Hgen].
  clear Hfiles.
  induction Hwf as [|recs recss (Hlen & Hrecs & Hs) _ IH]; intros res.
  - simpl. by rewrite app_nil_r.
  - cbn [fmap list_fmap range_lookup_files concat].
    rewrite (range_lookup_file_spec c recs lo hi) by done.
    simpl. rewrite IH. by rewrite app_assoc.
Qed.

(** The hypotheses of [index_range_lookup_skips_last] hold on one file of
    [N = 3] keys; of the three keys, all within the bounds, the lookup
    returns the first two. *)
Lemma index_range_lookup_skips_last_witness :
  idx_reader.range_lookup small_constants idx_fs (mkIndexReader 3)
    (h32 Byte.x81) (h32 Byte.x83) =
  Some (concat ((λ recs,
          concat (filter (λ k, in_range (h32 Byte.x81) (h32 Byte.x83) k)
                    (take (Z.to_nat (small_constants.(HASHES_PER_IDX) - 1)) recs)))
        <$> [idx_keys])).
Proof.
  apply (index_range_lookup_skips_last small_constants idx_fs (mkIndexReader 3)
           [idx_keys]).
  - reflexivity.
  - vm_compute. discriminate.
  - vm_compute. reflexivity.
  - repeat first [ constructor | split ]; vm_compute; reflexivity.
Defined.

(** The last key of the file is in the file and within the bounds
    [lo = hi = key], and the lookup returns nothing. *)
Lemma index_range_lookup_misses_last :
  files idx_fs (mkIndexReader 3) = [concat idx_keys] ∧
  h32 Byte.x83 ∈ idx_keys ∧
  in_range (h32 Byte.x83) (h32 Byte.x83) (h32 Byte.x83) = true ∧
  idx_reader.range_lookup small_constants idx_fs (mkIndexReader 3)
    (h32 Byte.x83) (h32 Byte.x83) = Some [].
Proof.
  split_and!; [vm_compute; reflexivity| |vm_compute; reflexivity..].
  unfold idx_keys. set_solver.
Qed.

(** * Recovery from the write-ahead log *)

Import constants memtable shape idx_reader samples.

Lemma insert_records_spec c mm offsets : ∀ s t,
  inv s t →
  ∃ s' t', insert_records c mm offsets s = Ok tt s' ∧ inv s' t' ∧
    (∀ y, y ∈ keys t' ↔
          y ∈ ((λ offset, Bytes.slice mm offset (offset + c.(HASH_SIZE)))
                 <$> offsets) ∨ y ∈ keys t).
Proof.
  induction offsets as [|o offsets IH]; intros s t Hinv.
  - exists s, t. split_and!; [done|done|]. set_solver.
  - destruct (insert_ok (Bytes.slice mm o (o + HASH_SIZE c)) s t Hinv)
      as (s1 & t1 & Hrun & Hinv1 & Hk1).
    destruct (IH s1 t1 Hinv1) as (s2 & t2 & Hrun2 & Hinv2 & Hk2).
    exists s2, t2. split_and!; [|done|].
    + cbn [insert_records]. unfold mbind, M_bind, bind. by rewrite Hrun.
    + intros y. rewrite Hk2, Hk1. set_solver.
Qed.

Lemma length_range0 stop step offsets :
  0 < step → 0 ≤ stop → range0 stop step = Some offsets →
  Z.of_nat (length offsets) = (stop + step - 1) / step.
Proof.
  intros Hstep Hstop. unfold range0.
  rewrite (proj2 (Z.eqb_neq _ _)), (proj2 (Z.ltb_ge _ _)) by lia.
  intros [= <-]. rewrite length_fmap, length_seq, Z2Nat.id; [done|].
  apply Z.div_pos; lia.
Qed.




(** * [contains_hash] *)

Import constants memtable shape idx_reader.

Lemma shiftr_mid_le (low high : Z) :
  low ≤ high → low ≤ Z.shiftr (low + high) 1 ≤ high.
Proof.
  intros H. rewrite Z.shiftr_div_pow2 by lia. change (2 ^ 1) with 2.
  split; [apply Z.div_le_lower_bound|apply Z.div_le_upper_bound]; lia.
Qed.

Lemma contains_search_total h data k fuel : ∀ low high,
  (Z.to_nat (high - low + 1) < fuel)%nat →
  is_Some (contains_search fuel h data k low high).
Proof.
  induction fuel as [|fuel IH]; intros low high Hf; [lia|].
  cbn [contains_search]. destruct (low <=? high) eqn:Hle; [|done].
  apply Z.leb_le in Hle. pose proof (shiftr_mid_le low high Hle).
  destruct (_ =?b _); [done|]. destruct (_ <?b _); apply IH; lia.
Qed.

(** A key that is no record of the file is not found. *)
Lemma contains_search_absent h data k fuel : ∀ low high,
  (∀ i, Bytes.slice data (i * h) (i * h + h) ≠ k) →
  (Z.to_nat (high - low + 1) < fuel)%nat →
  contains_search fuel h data k low high = Some false.
Proof.
  induction fuel as [|fuel IH]; intros low high Hk Hf; [lia|].
  cbn [contains_search]. destruct (low <=? high) eqn:Hle; [|done].
  apply Z.leb_le in Hle. pose proof (shiftr_mid_le low high Hle).
  destruct (_ =?b _) eqn:Heq.
  { apply bytes_eqb_eq in Heq. by destruct (Hk (Z.shiftr (low + high) 1)). }
  destruct (_ <?b _); apply IH; (done || lia).
Qed.

(** A key among the records of a sorted file is found. *)
Lemma contains_search_present h (recs : list bytes) k fuel : ∀ low high i,
  0 < h → Forall (λ r, Bytes.len r = h) recs → StronglySorted Bytes.lt recs →
  0 ≤ low → high < Z.of_nat (length recs) →
  low ≤ i ≤ high → recs !! Z.to_nat i = Some k →
  (Z.to_nat (high - low + 1) < fuel)%nat →
  contains_search fuel h (concat recs) k low high = Some true.
Proof.
  induction fuel as [|fuel IH]; intros low high i Hh Hlen Hs Hlo Hhi Hi Hk Hf; [lia|].
  cbn [contains_search]. rewrite (proj2 (Z.leb_le low high)) by lia.
  pose proof (shiftr_mid_le low high) as Hmid.
  set (mid := Z.shiftr (low + high) 1) in *.
  destruct (lookup_lt_is_Some_2 recs (Z.to_nat mid)) as [r Hr]; [lia|].
  rewrite (slice_record h recs mid r) by (done || lia).
  destruct (k =?b r) eqn:Heq; [done|]. apply bytes_eqb_neq in Heq.
  assert (i ≠ mid) as Hne by (intros ->; congruence).
  destruct (k <?b r) eqn:Hlt.
  - apply (IH low (mid - 1) i); try (done || lia).
    destruct (decide (i < mid)); [lia|].
    pose proof (sorted_lookup_lt recs (Z.to_nat mid) (Z.to_nat i) r k Hs) as Hrk.
    unfold Bytes.lt in Hrk. rewrite (bytes_ltb_asym r k) in Hlt; [done|].
    apply Hrk; [lia|done..].
  - apply (IH (mid + 1) high i); try (done || lia).
    destruct (decide (mid < i)); [lia|].
    pose proof (sorted_lookup_lt recs (Z.to_nat i) (Z.to_nat mid) k r Hs) as Hkr.
    unfold Bytes.lt in Hkr. rewrite Hkr in Hlt; [done|lia|done..].
Qed.

Lemma contains_hash_total c fs self k : is_Some (contains_hash c fs self k).
Proof.
  unfold contains_hash. induction (files fs self) as [|data fls IH]; [done|].
  cbn [contains_hash_files].
  destruct (contains_search_total (HASH_SIZE c) data k (S (search_fuel c)) 0
              (HASHES_PER_IDX c - 1)) as [b ->].
  { unfold search_fuel. lia. }
  simpl. by destruct b.
Qed.

Lemma contains_hash_absent c fs self k :
  (∀ data i, data ∈ files fs self →
     Bytes.slice data (i * c.(HASH_SIZE)) (i * c.(HASH_SIZE) + c.(HASH_SIZE)) ≠ k) →
  contains_hash c fs self k = Some false.
Proof.
  unfold contains_hash. induction (files fs self) as [|data fls IH]; intros Hk; [done|].
  cbn [contains_hash_files]. rewrite contains_search_absent.
  - simpl. apply IH. intros data' i Hin. apply Hk. by right.
  - intros i. apply Hk. by left.
  - unfold search_fuel. lia.
Qed.

Lemma contains_hash_present c fs self k recs :
  0 < c.(HASH_SIZE) → index_file c recs →
  concat recs ∈ files fs self → k ∈ recs →
  contains_hash c fs self k = Some true.
Proof.
  intros Hh (Hlen & Hrecs & Hs) Hin Hk. unfold contains_hash.
  induction (files fs self) as [|data fls IH]; [by apply elem_of_nil in Hin|].
  cbn [contains_hash_files].
  destruct (contains_search_total (HASH_SIZE c) data k (S (search_fuel c)) 0
              (HASHES_PER_IDX c - 1)) as [b Hb].
  { unfold search_fuel. lia. }
  apply elem_of_cons in Hin as [<-|Hin].
  - apply list_elem_of_lookup_1 in Hk as [i Hi].
    pose proof (lookup_lt_Some _ _ _ Hi).
    rewrite (contains_search_present _ recs k _ 0 _ (Z.of_nat i)); try (done || lia).
    + by rewrite Nat2Z.id.
    + unfold search_fuel. lia.
  - rewrite Hb. simpl. destruct b; [done|]. by apply IH.
Qed.

(** * The endpoints of the server *)

Import constants memtable shape idx_reader idx_builder server_main samples.

Lemma py_index_wraps {A} (l : list A) (i : Z) :
  - Z.of_nat (length l) ≤ i < 0 →
  py_index l i = py_index l (i + Z.of_nat (length l)).
Proof.
  intros Hi. unfold py_index.
  rewrite (proj2 (Z.leb_gt 0 i)) by lia. simpl.
  rewrite (proj2 (Z.leb_le _ i)), (proj2 (Z.ltb_lt i 0)) by lia. simpl.
  by rewrite (proj2 (Z.leb_le 0 _)), (proj2 (Z.ltb_lt _ _)) by lia.
Qed.

Lemma py_index_outside {A} (l : list A) (i : Z) :
  i < - Z.of_nat (length l) ∨ Z.of_nat (length l) ≤ i →
  py_index l i = None.
Proof.
  intros Hi. unfold py_index. destruct Hi.
  - rewrite (proj2 (Z.leb_gt 0 i)) by lia. simpl.
    by rewrite (proj2 (Z.leb_gt _ i)) by lia.
  - rewrite (proj2 (Z.ltb_ge i _)) by lia. rewrite andb_false_r.
    by rewrite (proj2 (Z.ltb_ge i 0)), andb_false_r by lia.
Qed.

Lemma check_date_same st : check_date (date st) st = Ok tt st.
Proof. unfold check_date. by rewrite String.eqb_refl. Qed.

Lemma bind_Ok {S A B} (m : M S A) (k : A → M S B) s a s' :
  m s = Ok a s' → (m ≫= k) s = k a s'.
Proof. unfold mbind, M_bind, bind. by intros ->. Qed.

Lemma py_index_inside {A} (l : list A) (i : Z) :
  0 ≤ i < Z.of_nat (length l) → py_index l i = Some (Z.to_nat i).
Proof.
  intros Hi. unfold py_index.
  by rewrite (proj2 (Z.leb_le 0 i)), (proj2 (Z.ltb_lt i _)) by lia.
Qed.

Lemma reader_at_Ok st i reader :
  0 ≤ i → idx_readers st !! Z.to_nat i = Some reader →
  reader_at i st = Ok reader st.
Proof.
  intros Hi Hr. pose proof (lookup_lt_Some _ _ _ Hr). unfold reader_at.
  rewrite py_index_inside by lia. by rewrite Hr.
Qed.

Lemma with_memtable_Ok {A} st i mt (m : Mt A) a mt' :
  0 ≤ i → memtables st !! Z.to_nat i = Some mt → m mt = Ok a mt' →
  with_memtable i m st =
    Ok a (mkServerState (idx_readers st) (<[Z.to_nat i := mt']> (memtables st))
                        (date st) (fs st)).
Proof.
  intros Hi Hm Hrun. pose proof (lookup_lt_Some _ _ _ Hm). unfold with_memtable.
  rewrite py_index_inside by lia. by rewrite Hm, Hrun.
Qed.

(** A method that leaves the memtable as it is leaves the server as it
    is. *)
Lemma with_memtable_read {A} st i mt (m : Mt A) a :
  0 ≤ i → memtables st !! Z.to_nat i = Some mt → m mt = Ok a mt →
  with_memtable i m st = Ok a st.
Proof.
  intros Hi Hm Hrun. rewrite (with_memtable_Ok st i mt m a mt) by done.
  rewrite list_insert_id by done. by destruct st.
Qed.

Lemma check_date_changed today st :
  today ≠ date st →
  check_date today st
    = Raise TypeError (mkServerState (idx_readers st) (memtables st) today (fs st)).
Proof.
  intros Hne. unfold check_date.
  destruct (String.eqb today (date st)) eqn:E; [|done]. by apply String.eqb_eq in E.
Qed.

Lemma extend_prefixes_spec (ks : list bytes) st : ∀ acc,
  extend_prefixes (Some <$> ks) acc st = Ok (acc ++ concat (take 4 <$> ks)) st.
Proof.
  induction ks as [|k ks IH]; intros acc.
  - simpl. by rewrite app_nil_r.
  - rewrite !fmap_cons. cbn [extend_prefixes concat]. rewrite IH.
    by rewrite prefix_take, <-app_assoc by lia.
Qed.

(** The two handlers on a position that is in the lists. *)
Lemma memtable_prefixes_at st i j mt t :
  py_index (memtables st) (i - 1) = Some j →
  memtables st !! j = Some mt → rep mt t →
  get_memtable_hash_prefixes (date st) i st =
    Ok (Some (mkResponse (Binary (concat (take 4 <$> keys t))) 200)) st.
Proof.
  intros Hi Hm Hrep. unfold get_memtable_hash_prefixes.
  rewrite (bind_Ok _ _ st tt st) by apply check_date_same.
  rewrite (bind_Ok _ _ st (Some <$> keys t) st).
  2:{ unfold with_memtable. rewrite Hi, Hm, (iter_spec mt t Hrep).
      rewrite list_insert_id by done. by destruct st. }
  rewrite (bind_Ok _ _ st _ st) by apply extend_prefixes_spec.
  done.
Qed.

Lemma idx_prefixes_at c st i j reader :
  py_index (idx_readers st) (i - 1) = Some j →
  idx_readers st !! j = Some reader →
  get_idx_hash_prefixes c (date st) i st =
    Ok (Some (mkResponse (Binary (get_all_hash_prefixes c (fs st) reader)) 200)) st.
Proof.
  intros Hi Hr. unfold get_idx_hash_prefixes.
  rewrite (bind_Ok _ _ st tt st) by apply check_date_same.
  rewrite (bind_Ok _ _ st reader st) by (unfold reader_at; by rewrite Hi, Hr).
  by rewrite (bind_Ok _ _ st (get_all_hash_prefixes c (fs st) reader) st).
Qed.

Lemma memtable_prefixes_run st i mt t :
  1 ≤ i → memtables st !! Z.to_nat (i - 1) = Some mt → rep mt t →
  get_memtable_hash_prefixes (date st) i st =
    Ok (Some (mkResponse (Binary (concat (take 4 <$> keys t))) 200)) st.
Proof.
  intros Hi Hm Hrep. apply (memtable_prefixes_at st i (Z.to_nat (i - 1)) mt t); [|done..].
  apply py_index_inside. pose proof (lookup_lt_Some _ _ _ Hm). lia.
Qed.

Lemma idx_prefixes_run c st i reader :
  1 ≤ i → idx_readers st !! Z.to_nat (i - 1) = Some reader →
  get_idx_hash_prefixes c (date st) i st =
    Ok (Some (mkResponse (Binary (get_all_hash_prefixes c (fs st) reader)) 200)) st.
Proof.
  intros Hi Hr. apply (idx_prefixes_at c st i (Z.to_nat (i - 1)) reader); [|done].
  apply py_index_inside. pose proof (lookup_lt_Some _ _ _ Hr). lia.
Qed.

Lemma py_index_negative {A} (l : list A) (i : Z) :
  - Z.of_nat (length l) ≤ i < 0 →
  py_index l i = Some (Z.to_nat (i + Z.of_nat (length l))).
Proof. intros Hi. rewrite py_index_wraps by done. apply py_index_inside. lia. Qed.

(** The memtable of the sample keys [ks] satisfies the invariant. *)
Lemma inv_memtable_of ks :
  ∃ t, inv (memtable_of ks) t ∧ ∀ y, y ∈ keys t ↔ y ∈ ks.
Proof.
  destruct (insert_all_spec ks _ _ inv_new_MemTable) as (bs & s & t & Hrun & Hinv & Hk).
  exists t. unfold memtable_of. rewrite Hrun. split; [done|].
  intros y. rewrite Hk. simpl. rewrite elem_of_nil. tauto.
Qed.

(** C9: a partition parameter outside [1 .. P] is never answered with
    400, by either endpoint and on any day.  On a request of the day of
    the activity log in use, the handlers index [memtables] and
    [idx_readers] by [partition - 1]: from [1 - P] to [0] the index is
    negative and counts from the end of the list, so the response is
    that of the partition [partition + P], with status 200 and the
    prefixes of the keys of that partition (for [partition = 0], those
    of the last partition); below [1 - P] and above [P] the indexing
    raises [IndexError], which is answered with 500.  On the first
    request of another day the handlers raise [TypeError], answered with
    500.  The memtables are well formed and there are as many readers as
    memtables. *)
Theorem fetch_prefixes_out_of_range (c : Constants) (st : ServerState)
    (today : string) (partition : Z) :
  let P := Z.of_nat (length (memtables st)) in
  let outm := get_memtable_hash_prefixes today partition st in
  let outi := get_idx_hash_prefixes c today partition st in
  length (idx_readers st) = length (memtables st) →
  Forall (λ mt, ∃ t, inv mt t) (memtables st) →
  partition < 1 ∨ P < partition →
  (http_status outm ≠ Some 400 ∧ http_status outi ≠ Some 400) ∧
  (today = date st → 1 - P ≤ partition ≤ 0 →
     ∃ mt t reader,
       memtables st !! Z.to_nat (partition + P - 1) = Some mt ∧ inv mt t ∧
       idx_readers st !! Z.to_nat (partition + P - 1) = Some reader ∧
       outm = Ok (Some (mkResponse (Binary (concat (take 4 <$> keys t))) 200)) st ∧
       outi = Ok (Some (mkResponse
                          (Binary (get_all_hash_prefixes c (fs st) reader)) 200)) st ∧
       outm = get_memtable_hash_prefixes today (partition + P) st ∧
       outi = get_idx_hash_prefixes c today (partition + P) st ∧
       http_status outm = Some 200 ∧ http_status outi = Some 200) ∧
  (today = date st → partition < 1 - P ∨ P < partition →
     outm = Raise IndexError st ∧ outi = Raise IndexError st ∧
     http_status outm = Some 500 ∧ http_status outi = Some 500) ∧
  (today ≠ date st →
     let st' := mkServerState (idx_readers st) (memtables st) today (fs st) in
     outm = Raise TypeError st' ∧ outi = Raise TypeError st' ∧
     http_status outm = Some 500 ∧ http_status outi = Some 500).
Proof.
  intros P outm outi Hlen Hmts Hout.
  assert (today = date st → 1 - P ≤ partition ≤ 0 →
     ∃ mt t reader,
       memtables st !! Z.to_nat (partition + P - 1) = Some mt ∧ inv mt t ∧
       idx_readers st !! Z.to_nat (partition + P - 1) = Some reader ∧
       outm = Ok (Some (mkResponse (Binary (concat (take 4 <$> keys t))) 200)) st ∧
       outi = Ok (Some (mkResponse
                          (Binary (get_all_hash_prefixes c (fs st) reader)) 200)) st ∧
       outm = get_memtable_hash_prefixes today (partition + P) st ∧
       outi = get_idx_hash_prefixes c today (partition + P) st ∧
       http_status outm = Some 200 ∧ http_status outi = Some 200) as Hwrap.
  { intros -> Hp.
    assert (Z.to_nat (partition + P - 1) < length (memtables st))%nat as Hlt
      by (fold P in Hp; lia).
    destruct (lookup_lt_is_Some_2 _ _ Hlt) as [mt Hmt].
    rewrite <-Hlen in Hlt. destruct (lookup_lt_is_Some_2 _ _ Hlt) as [reader Hreader].
    destruct (proj1 (Forall_forall _ _) Hmts mt) as (t & Hinv).
    { by eapply list_elem_of_lookup_2. }
    pose proof Hinv as (Hrep & _).
    assert (outm = Ok (Some (mkResponse (Binary (concat (take 4 <$> keys t))) 200)) st)
      as Hm.
    { apply (memtable_prefixes_at st partition (Z.to_nat (partition + P - 1)) mt t);
        [|done..].
      rewrite py_index_negative by (fold P; lia). f_equal. fold P. lia. }
    assert (outi = Ok (Some (mkResponse
                          (Binary (get_all_hash_prefixes c (fs st) reader)) 200)) st)
      as Hi.
    { apply (idx_prefixes_at c st partition (Z.to_nat (partition + P - 1)) reader);
        [|done].
      rewrite py_index_negative by (rewrite Hlen; fold P; lia).
      f_equal. rewrite Hlen. fold P. lia. }
    exists mt, t, reader. split_and!; [done..| | |by rewrite Hm|by rewrite Hi].
    - rewrite Hm. symmetry.
      apply (memtable_prefixes_run st (partition + P) mt t); [lia|done|done].
    - rewrite Hi. symmetry.
      apply (idx_prefixes_run c st (partition + P) reader); [lia|done]. }
  assert (today = date st → partition < 1 - P ∨ P < partition →
     outm = Raise IndexError st ∧ outi = Raise IndexError st ∧
     http_status outm = Some 500 ∧ http_status outi = Some 500) as Hraise.
  { intros -> Hp.
    assert (outm = Raise IndexError st) as H1.
    { unfold outm, get_memtable_hash_prefixes.
      unfold mbind at 1, M_bind at 1, bind at 1. rewrite check_date_same.
      unfold mbind at 1, M_bind at 1, bind at 1. unfold with_memtable.
      by rewrite py_index_outside by (fold P; lia). }
    assert (outi = Raise IndexError st) as H2.
    { unfold outi, get_idx_hash_prefixes.
      unfold mbind at 1, M_bind at 1, bind at 1. rewrite check_date_same.
      unfold mbind at 1, M_bind at 1, bind at 1. unfold reader_at.
      by rewrite py_index_outside by (rewrite Hlen; fold P; lia). }
    by rewrite H1, H2. }
  assert (today ≠ date st →
     let st' := mkServerState (idx_readers st) (memtables st) today (fs st) in
     outm = Raise TypeError st' ∧ outi = Raise TypeError st' ∧
     http_status outm = Some 500 ∧ http_status outi = Some 500) as Hday.
  { intros Hne st'.
    assert (outm = Raise TypeError st') as H1.
    { unfold outm, get_memtable_hash_prefixes, mbind, M_bind, bind.
      by rewrite check_date_changed. }
    assert (outi = Raise TypeError st') as H2.
    { unfold outi, get_idx_hash_prefixes, mbind, M_bind, bind.
      by rewrite check_date_changed. }
    by rewrite H1, H2. }
  split_and!; [| |done..].
  - destruct (decide (today = date st)) as [Heq|Hne].
    + destruct (decide (1 - P ≤ partition ≤ 0)) as [Hp|Hp].
      * destruct (Hwrap Heq Hp) as (? & ? & ? & _ & _ & _ & _ & _ & _ & _ & -> & _).
        done.
      * destruct (Hraise Heq) as (_ & _ & -> & _); [lia|done].
    + destruct (Hday Hne) as (_ & _ & -> & _). done.
  - destruct (decide (today = date st)) as [Heq|Hne].
    + destruct (decide (1 - P ≤ partition ≤ 0)) as [Hp|Hp].
      * destruct (Hwrap Heq Hp) as (? & ? & ? & _ & _ & _ & _ & _ & _ & _ & _ & ->).
        done.
      * destruct (Hraise Heq) as (_ & _ & _ & ->); [lia|done].
    + destruct (Hday Hne) as (_ & _ & _ & ->). done.
Qed.

(** The hypotheses of [fetch_prefixes_out_of_range] hold on the state a
    server of four partitions starts with: [partition = 0] is answered
    with 200 and the prefixes of partition 4, [partition = 5] with 500,
    and neither with 400, also on the next day. *)
Lemma fetch_prefixes_out_of_range_witness :
  (http_status (get_memtable_hash_prefixes day 0 last_state) = Some 200 ∧
   http_status (get_idx_hash_prefixes small_constants day 0 last_state) = Some 200 ∧
   get_memtable_hash_prefixes day 0 last_state
     = get_memtable_hash_prefixes day 4 last_state ∧
   get_idx_hash_prefixes small_constants day 0 last_state
     = get_idx_hash_prefixes small_constants day 4 last_state) ∧
  (get_memtable_hash_prefixes day 5 last_state = Raise IndexError last_state ∧
   get_idx_hash_prefixes small_constants day 5 last_state
     = Raise IndexError last_state ∧
   http_status (get_memtable_hash_prefixes day 5 last_state) = Some 500 ∧
   http_status (get_idx_hash_prefixes small_constants day 5 last_state)
     = Some 500) ∧
  (http_status (get_memtable_hash_prefixes next_day 0 last_state) ≠ Some 400 ∧
   http_status (get_idx_hash_prefixes small_constants next_day 0 last_state)
     ≠ Some 400).
Proof.
  assert (Forall (λ mt, ∃ t, inv mt t) (memtables last_state)) as Hmts.
  { assert (memtables last_state
            = [new_MemTable; new_MemTable; new_MemTable; memtable_of [h32 Byte.xc1]])
      as -> by (vm_compute; reflexivity).
    destruct (inv_memtable_of [h32 Byte.xc1]) as (t & Hinv & _).
    do 3 (constructor; [exists Lf; apply inv_new_MemTable|]).
    constructor; [by exists t|]. constructor. }
  split; [|split].
  - destruct (fetch_prefixes_out_of_range small_constants last_state day 0)
      as (_ & H & _); [reflexivity|exact Hmts|left; reflexivity|].
    destruct H as (mt & t & reader & _ & _ & _ & _ & _ & H1 & H2 & H3 & H4);
      [reflexivity|vm_compute; split; discriminate|].
    split_and!; [exact H3|exact H4|exact H1|exact H2].
  - destruct (fetch_prefixes_out_of_range small_constants last_state day 5)
      as (_ & _ & H & _); [reflexivity|exact Hmts|right; reflexivity|].
    apply H; [reflexivity|right; reflexivity].
  - apply (fetch_prefixes_out_of_range small_constants last_state next_day 0);
      [reflexivity|exact Hmts|left; reflexivity].
Defined.

(** On a server of four partitions whose last partition holds a key in
    its memtable and a key in an index file, [partition = 0] is answered
    with status 200 and the prefixes of partition 4. *)
Lemma fetch_prefixes_partition_zero :
  (∃ fs', lifespan small_constants day last_fs = Ok last_state fs') ∧
  http_status (get_memtable_hash_prefixes day 0 last_state) = Some 200 ∧
  http_body (get_memtable_hash_prefixes day 0 last_state)
    = Some (Binary [Byte.xc1; Byte.x00; Byte.x00; Byte.x00]) ∧
  http_body (get_memtable_hash_prefixes day 4 last_state)
    = Some (Binary [Byte.xc1; Byte.x00; Byte.x00; Byte.x00]) ∧
  http_status (get_idx_hash_prefixes small_constants day 0 last_state) = Some 200 ∧
  http_body (get_idx_hash_prefixes small_constants day 0 last_state)
    = Some (Binary [Byte.xc2; Byte.x00; Byte.x00; Byte.x00]) ∧
  http_body (get_idx_hash_prefixes small_constants day 4 last_state)
    = Some (Binary [Byte.xc2; Byte.x00; Byte.x00; Byte.x00]).
Proof.
  split; [eexists; vm_compute; reflexivity|].
  split_and!; vm_compute; reflexivity.
Qed.

(** * [submit_malicious_url] *)

Import constants memtable shape idx_reader idx_builder server_main samples.

Lemma write_all_keys (ks : list bytes) : ∀ f,
  write_all (Some <$> ks) f = Ok tt (f ++ concat ks).
Proof.
  induction ks as [|k ks IH]; intros f; simpl.
  - by rewrite app_nil_r.
  - unfold mbind, M_bind, bind. by rewrite IH, app_assoc.
Qed.

Lemma flush_to_idx_spec mt t p fs fls :
  rep mt t → db fs !! p = Some fls →
  flush_to_idx mt p fs =
    Ok tt (mkFS (<[p := fls ++ [concat (keys t)]]> (db fs)) (wal fs)).
Proof.
  intros Hrep Hdb. unfold flush_to_idx, build_idx. rewrite Hdb.
  by rewrite (iter_spec mt t Hrep), write_all_keys.
Qed.

(** The steps of the handler up to the lookup in the index files. *)
Lemma submit_head c st k b0 reader :
  Bytes.first k = Some b0 → 0 ≤ c.(PARTITION_NUM) b0 →
  idx_readers st !! Z.to_nat (c.(PARTITION_NUM) b0) = Some reader →
  submit_malicious_url c (date st) k st =
    match contains_hash c (fs st) reader k with
    | Some true => Ok (Some already_blacklisted) st
    | Some false =>
        (in_memtable ← with_memtable (c.(PARTITION_NUM) b0) (contains k);
         if in_memtable : bool then mret (Some already_blacklisted)
         else
           with_memtable (c.(PARTITION_NUM) b0) (insert k);;
           n ← with_memtable (c.(PARTITION_NUM) b0) memtable.len;
           (if n >=? c.(HASHES_PER_IDX) then
              memtable ← with_memtable (c.(PARTITION_NUM) b0) get_state;
              with_fs (flush_to_idx memtable (c.(PARTITION_NUM) b0));;
              with_fs (truncate_wal (c.(PARTITION_NUM) b0))
            else
              with_fs (append_wal (c.(PARTITION_NUM) b0) k));;
           mret None) st
    | None => Stuck
    end.
Proof.
  intros Hb Hp Hr. unfold submit_malicious_url.
  rewrite (bind_Ok _ _ st tt st) by apply check_date_same.
  rewrite Hb. rewrite (bind_Ok _ _ st b0 st) by done.
  rewrite (bind_Ok _ _ st reader st) by (by apply reader_at_Ok).
  unfold mbind at 1, M_bind at 1, bind at 1. unfold read_fs.
  by destruct (contains_hash c (fs st) reader k) as [[]|].
Qed.

(** The submission of a key that is neither in the index files of the
    reader nor in the memtable. *)
Lemma submit_new c st k b0 reader mt t :
  Bytes.first k = Some b0 → 0 ≤ c.(PARTITION_NUM) b0 →
  idx_readers st !! Z.to_nat (c.(PARTITION_NUM) b0) = Some reader →
  memtables st !! Z.to_nat (c.(PARTITION_NUM) b0) = Some mt →
  inv mt t →
  contains_hash c (fs st) reader k = Some false →
  k ∉ keys t →
  ∃ mt' t',
    insert k mt = Ok true mt' ∧ inv mt' t' ∧
    (∀ y, y ∈ keys t' ↔ y = k ∨ y ∈ keys t) ∧
    length (keys t') = S (length (keys t)) ∧
    let p := c.(PARTITION_NUM) b0 in
    let st' fs' := mkServerState (idx_readers st)
                     (<[Z.to_nat p := mt']> (memtables st)) (date st) fs' in
    submit_malicious_url c (date st) k st =
      if Z.of_nat (length (keys t')) >=? c.(HASHES_PER_IDX) then
        match db (fs st) !! p with
        | Some fls =>
            Ok None (st' (mkFS (<[p := fls ++ [concat (keys t')]]> (db (fs st)))
                               (<[p := []]> (wal (fs st)))))
        | None => Raise FileNotFoundError (st' (fs st))
        end
      else
        Ok None (st' (mkFS (db (fs st))
                           (<[p := default [] (wal (fs st) !! p) ++ k]>
                              (wal (fs st))))).
Proof.
  intros Hb Hp Hr Hm Hinv Hidx Hk.
  destruct (insert_ok k mt t Hinv) as (mt' & t' & Hins & Hinv' & Hk').
  rewrite bool_decide_true in Hins by done.
  exists mt', t'. split_and!; [done..| |].
  { change (S (length (keys t))) with (length (k :: keys t)).
    apply Permutation_length, NoDup_Permutation.
    - destruct Hinv' as (_ & Hbst & _). by apply sorted_NoDup.
    - constructor; [done|]. destruct Hinv as (_ & Hbst & _). by apply sorted_NoDup.
    - intros y. rewrite Hk'. set_solver. }
  intros p st'. subst p. rewrite (submit_head c st k b0 reader) by done. rewrite Hidx.
  destruct Hinv as (Hrep & Hbst & Hblack & Hel).
  destruct Hinv' as (Hrep' & Hbst' & Hblack' & Hel').
  rewrite (bind_Ok _ _ st false st).
  2:{ apply (with_memtable_read st _ mt); [done..|].
      rewrite (contains_spec k mt t) by done. by rewrite bool_decide_false. }
  rewrite (bind_Ok _ _ st true (st' (fs st))).
  2:{ by apply (with_memtable_Ok st _ mt). }
  assert (memtables (st' (fs st)) !! Z.to_nat (PARTITION_NUM c b0) = Some mt') as Hm'.
  { simpl. apply list_lookup_insert_eq. by eapply lookup_lt_Some. }
  rewrite (bind_Ok _ _ _ (elements mt') (st' (fs st))).
  2:{ by apply (with_memtable_read _ _ mt'). }
  rewrite Hel'.
  destruct (Z.of_nat (length (keys t')) >=? HASHES_PER_IDX c).
  - unfold mbind at 1, M_bind at 1, bind at 1.
    rewrite (bind_Ok _ _ _ mt' (st' (fs st))).
    2:{ by apply (with_memtable_read _ _ mt'). }
    unfold mbind, M_bind, bind, with_fs. simpl.
    unfold flush_to_idx, build_idx.
    destruct (db (fs st) !! PARTITION_NUM c b0) as [fls|]; [|done].
    by rewrite (iter_spec mt' t' Hrep'), write_all_keys.
  - by unfold mbind, M_bind, bind, with_fs.
Qed.

(** C6: the response of [POST /submit-malicious-url] to a key, on a
    server whose lists hold a reader and a well-formed memtable at the
    position of the key's partition [p].
    On a request of the day of the activity log in use: a key that is in
    a well-formed index file of that reader or in that memtable is
    answered with 400 and the body [Bad request: URL is already
    blacklisted], and the state of the server (memtables, write-ahead
    logs and index files) is left as it was; a key that is in neither is
    inserted into the memtable, and is answered with 200 when the
    memtable stays below [N] keys (the key is appended to the log
    numbered [p]) or when the directory numbered [p] exists (the
    memtable is flushed to it), and with 500 when the memtable is full
    and that directory does not exist ([FileNotFoundError]).
    On the first request of another day, whatever the key, the handler
    stores the day, raises [TypeError] and answers 500. *)
Theorem submission_response (c : Constants) (st : ServerState) (today : string)
    (k : bytes) (b0 : Z) (reader : IndexReader) (mt : MemTable) (t : tree) :
  0 < c.(HASH_SIZE) →
  Bytes.first k = Some b0 → 0 ≤ c.(PARTITION_NUM) b0 →
  idx_readers st !! Z.to_nat (c.(PARTITION_NUM) b0) = Some reader →
  memtables st !! Z.to_nat (c.(PARTITION_NUM) b0) = Some mt →
  inv mt t →
  let p := c.(PARTITION_NUM) b0 in
  let out := submit_malicious_url c today k st in
  (today ≠ date st →
     out = Raise TypeError
             (mkServerState (idx_readers st) (memtables st) today (fs st)) ∧
     http_status out = Some 500) ∧
  (today = date st →
     ((∃ recs, index_file c recs ∧ concat recs ∈ files (fs st) reader ∧ k ∈ recs)
      ∨ k ∈ keys t →
        out = Ok (Some already_blacklisted) st ∧
        http_status out = Some 400 ∧
        http_body out = Some (Text "Bad request: URL is already blacklisted")) ∧
     ((∀ data i, data ∈ files (fs st) reader →
         Bytes.slice data (i * c.(HASH_SIZE)) (i * c.(HASH_SIZE) + c.(HASH_SIZE)) ≠ k) →
      k ∉ keys t →
      ∃ mt' t',
        insert k mt = Ok true mt' ∧ inv mt' t' ∧
        (∀ y, y ∈ keys t' ↔ y = k ∨ y ∈ keys t) ∧
        let st' fs' := mkServerState (idx_readers st)
                         (<[Z.to_nat p := mt']> (memtables st)) (date st) fs' in
        (Z.of_nat (length (keys t)) + 1 < c.(HASHES_PER_IDX) →
           out = Ok None (st' (mkFS (db (fs st))
                                 (<[p := default [] (wal (fs st) !! p) ++ k]>
                                    (wal (fs st))))) ∧
           http_status out = Some 200) ∧
        (c.(HASHES_PER_IDX) ≤ Z.of_nat (length (keys t)) + 1 →
           ∀ fls, db (fs st) !! p = Some fls →
           out = Ok None (st' (mkFS (<[p := fls ++ [concat (keys t')]]> (db (fs st)))
                                 (<[p := []]> (wal (fs st))))) ∧
           http_status out = Some 200) ∧
        (c.(HASHES_PER_IDX) ≤ Z.of_nat (length (keys t)) + 1 →
           db (fs st) !! p = None →
           out = Raise FileNotFoundError (st' (fs st)) ∧
           http_status out = Some 500))).
Proof.
  intros Hh Hb Hp Hr Hm Hinv p out. split.
  - intros Hne.
    assert (out = Raise TypeError
              (mkServerState (idx_readers st) (memtables st) today (fs st))) as ->;
      [|done].
    unfold out, submit_malicious_url, mbind, M_bind, bind.
    by rewrite check_date_changed.
  - intros ->. split.
    + intros Hin.
      assert (out = Ok (Some already_blacklisted) st) as ->; [|done].
      unfold out. rewrite (submit_head c st k b0 reader) by done.
      destruct (contains_hash_total c (fs st) reader k) as [[] Hc]; rewrite Hc; [done|].
      destruct Hin as [(recs & Hwf & Hfile & Hk)|Hk].
      { by rewrite (contains_hash_present c (fs st) reader k recs) in Hc. }
      destruct Hinv as (Hrep & Hbst & _).
      rewrite (bind_Ok _ _ st true st); [done|].
      apply (with_memtable_read st _ mt); [done..|].
      rewrite (contains_spec k mt t) by done. by rewrite bool_decide_true.
    + intros Habs Hk.
      destruct (submit_new c st k b0 reader mt t)
        as (mt' & t' & Hins & Hinv' & Hk' & Hlen & Hrun);
        [done..|by apply contains_hash_absent|done|].
      exists mt', t'. split_and!; [done..|]. intros st'.
      simpl in Hrun. fold p in Hrun. fold out in Hrun. rewrite Hlen in Hrun.
      split_and!.
      * intros Hlt. rewrite Z.geb_leb, (proj2 (Z.leb_gt _ _)) in Hrun by lia.
        by rewrite Hrun.
      * intros Hge fls Hdb. rewrite (proj2 (Z.geb_le _ _)) in Hrun by lia.
        rewrite Hdb in Hrun. by rewrite Hrun.
      * intros Hge Hdb. rewrite (proj2 (Z.geb_le _ _)) in Hrun by lia.
        rewrite Hdb in Hrun. by rewrite Hrun.
Qed.

(** C1: a submission that brings the memtable of a partition to [N] keys
    or more writes a new index file that holds every key of the
    memtable, in increasing order, and truncates the write-ahead log of
    the partition; the memtable is not cleared: it still holds all its
    keys, so that every later submission to the partition writes one
    more index file, with one more key. *)
Theorem flush_keeps_memtable (c : Constants) (st : ServerState) (k : bytes)
    (b0 : Z) (reader : IndexReader) (mt : MemTable) (t : tree)
    (fls : list bytes) :
  Bytes.first k = Some b0 → 0 ≤ c.(PARTITION_NUM) b0 →
  idx_readers st !! Z.to_nat (c.(PARTITION_NUM) b0) = Some reader →
  memtables st !! Z.to_nat (c.(PARTITION_NUM) b0) = Some mt →
  inv mt t →
  (∀ data i, data ∈ files (fs st) reader →
     Bytes.slice data (i * c.(HASH_SIZE)) (i * c.(HASH_SIZE) + c.(HASH_SIZE)) ≠ k) →
  k ∉ keys t →
  c.(HASHES_PER_IDX) ≤ Z.of_nat (length (keys t)) + 1 →
  db (fs st) !! c.(PARTITION_NUM) b0 = Some fls →
  ∃ mt' t',
    submit_malicious_url c (date st) k st =
      Ok None
         (mkServerState (idx_readers st)
            (<[Z.to_nat (c.(PARTITION_NUM) b0) := mt']> (memtables st))
            (date st)
            (mkFS (<[c.(PARTITION_NUM) b0 := fls ++ [concat (keys t')]]>
                     (db (fs st)))
                  (<[c.(PARTITION_NUM) b0 := []]> (wal (fs st))))) ∧
    inv mt' t' ∧
    (∀ y, y ∈ keys t' ↔ y = k ∨ y ∈ keys t) ∧
    memtable.len mt' = Ok (Z.of_nat (length (keys t)) + 1) mt'.
Proof.
  intros Hb Hp Hr Hm Hinv Habs Hk HN Hdb.
  destruct (submit_new c st k b0 reader mt t)
    as (mt' & t' & _ & Hinv' & Hk' & Hlen & Hrun);
    [done..|by apply contains_hash_absent|done|].
  exists mt', t'. simpl in Hrun. rewrite Hrun, Hlen, Hdb.
  rewrite (proj2 (Z.geb_le _ _)) by lia.
  split_and!; [done..|].
  destruct Hinv' as (_ & _ & _ & Hel). unfold len, get_elements.
  rewrite Hel, Hlen. f_equal. lia.
Qed.

(** The hypotheses of [submission_response] hold on the server that has
    accepted two keys of partition 2, with [N = 3]: the first of them is
    rejected with 400 on the same day and answered with 500 on the next
    day; a third key is accepted, the directory of the flush being
    there. *)
Lemma submission_response_witness :
  let st := served [h32 Byte.x81; h32 Byte.x82] in
  (submit_malicious_url small_constants day (h32 Byte.x81) st
     = Ok (Some already_blacklisted) st ∧
   http_status (submit_malicious_url small_constants day (h32 Byte.x81) st)
     = Some 400 ∧
   http_body (submit_malicious_url small_constants day (h32 Byte.x81) st)
     = Some (Text "Bad request: URL is already blacklisted")) ∧
  http_status (submit_malicious_url small_constants next_day (h32 Byte.x81) st)
    = Some 500 ∧
  http_status (submit_malicious_url small_constants day (h32 Byte.x83) st)
    = Some 200.
Proof.
  intros st.
  destruct (inv_memtable_of [h32 Byte.x81; h32 Byte.x82]) as (t & Hinv & Hk).
  assert (length (keys t) = 2%nat) as Hlen.
  { destruct Hinv as (_ & _ & _ & Hel).
    assert (elements (memtable_of [h32 Byte.x81; h32 Byte.x82]) = 2) as He
      by (vm_compute; reflexivity).
    rewrite He in Hel. lia. }
  destruct (submission_response small_constants st day (h32 Byte.x81) 129
              (mkIndexReader 3) (memtable_of [h32 Byte.x81; h32 Byte.x82]) t)
    as [_ H1];
    [reflexivity|reflexivity|vm_compute; discriminate|vm_compute; reflexivity
    |vm_compute; reflexivity|exact Hinv|].
  destruct (submission_response small_constants st next_day (h32 Byte.x81) 129
              (mkIndexReader 3) (memtable_of [h32 Byte.x81; h32 Byte.x82]) t)
    as [H2 _];
    [reflexivity|reflexivity|vm_compute; discriminate|vm_compute; reflexivity
    |vm_compute; reflexivity|exact Hinv|].
  destruct (submission_response small_constants st day (h32 Byte.x83) 131
              (mkIndexReader 3) (memtable_of [h32 Byte.x81; h32 Byte.x82]) t)
    as [_ H3];
    [reflexivity|reflexivity|vm_compute; discriminate|vm_compute; reflexivity
    |vm_compute; reflexivity|exact Hinv|].
  split; [|split].
  - apply H1; [vm_compute; reflexivity|]. right. apply Hk. by left.
  - refine (proj2 (H2 _)). vm_compute. discriminate.
  - destruct H3 as [_ H3]; [vm_compute; reflexivity|].
    destruct H3 as (mt' & t' & _ & _ & _ & _ & H3 & _).
    + intros data i Hin. vm_compute in Hin. by apply elem_of_nil in Hin.
    + rewrite Hk. intros Hin.
      repeat (apply elem_of_cons in Hin as [Hin|Hin]; [by vm_compute in Hin|]).
      by apply elem_of_nil in Hin.
    + apply (H3 ltac:(rewrite Hlen; vm_compute; discriminate) []).
      vm_compute. reflexivity.
Defined.

(** Three submissions that the handler does not answer as it should, on
    servers of four partitions with [N = 3].  A key that is in the
    memtable of its partition is answered with 500 when it is submitted
    again on the next day.  On a server that starts on the directories
    [db/partition1] to [db/partition4], the third key of partition 0
    fills the memtable and is answered with 500: the flush goes to
    [db/partition0].  A key that has been flushed to an index file, in
    the directory numbered by its partition, is answered with 200 when
    it is submitted again after a restart: the reader of the partition
    reads the next directory. *)
Lemma resubmission_not_rejected :
  (let st := served [h32 Byte.x81; h32 Byte.x82] in
   with_memtable 2 (contains (h32 Byte.x81)) st = Ok true st ∧
   http_status (submit_malicious_url small_constants next_day (h32 Byte.x81) st)
     = Some 500) ∧
  (let st := served_on repo_fs [h32 Byte.x01; h32 Byte.x02] in
   with_memtable 0 (contains (h32 Byte.x03)) st = Ok false st ∧
   submit_malicious_url small_constants day (h32 Byte.x03) st
     = Raise FileNotFoundError
         (mkServerState (idx_readers st)
            (<[0%nat := memtable_of [h32 Byte.x01; h32 Byte.x02; h32 Byte.x03]]>
               (memtables st)) day (fs st)) ∧
   http_status (submit_malicious_url small_constants day (h32 Byte.x03) st)
     = Some 500) ∧
  (let st := served [h32 Byte.x81; h32 Byte.x82; h32 Byte.x83] in
   db (fs st) !! 2 = Some [h32 Byte.x81 ++ h32 Byte.x82 ++ h32 Byte.x83] ∧
   (∃ fs', lifespan small_constants day (fs st) = Ok (restarted st) fs') ∧
   http_status (submit_malicious_url small_constants day (h32 Byte.x81)
                  (restarted st)) = Some 200).
Proof.
  split; [|split]; cbv zeta; split_and!;
    first [ vm_compute; reflexivity | eexists; vm_compute; reflexivity ].
Qed.

(** The hypotheses of [flush_keeps_memtable] hold on the same server with
    [N = 3]: the third key is written to an index file with the first
    two, and the memtable holds three keys afterwards. *)
Lemma flush_keeps_memtable_witness :
  let st := served [h32 Byte.x81; h32 Byte.x82] in
  ∃ mt' st',
    submit_malicious_url small_constants (date st) (h32 Byte.x83) st
      = Ok None st' ∧
    memtables st' !! 2%nat = Some mt' ∧
    memtable.len mt' = Ok 3 mt'.
Proof.
  intros st.
  destruct (inv_memtable_of [h32 Byte.x81; h32 Byte.x82]) as (t & Hinv & Hk).
  assert (length (keys t) = 2%nat) as Hlen.
  { destruct Hinv as (_ & _ & _ & Hel).
    assert (elements (memtable_of [h32 Byte.x81; h32 Byte.x82]) = 2) as He
      by (vm_compute; reflexivity).
    rewrite He in Hel. lia. }
  destruct (flush_keeps_memtable small_constants st (h32 Byte.x83) 131
              (mkIndexReader 3) (memtable_of [h32 Byte.x81; h32 Byte.x82]) t [])
    as (mt' & t' & Hrun & _ & _ & Hl).
  - reflexivity.
  - vm_compute. discriminate.
  - vm_compute. reflexivity.
  - vm_compute. reflexivity.
  - exact Hinv.
  - intros data i Hin. vm_compute in Hin. by apply elem_of_nil in Hin.
  - rewrite Hk. intros Hin.
    repeat (apply elem_of_cons in Hin as [Hin|Hin]; [by vm_compute in Hin|]).
    by apply elem_of_nil in Hin.
  - rewrite Hlen. vm_compute. discriminate.
  - vm_compute. reflexivity.
  - eexists mt', _. split; [exact Hrun|]. split.
    + simpl. apply list_lookup_insert_eq. vm_compute. lia.
    + by rewrite Hl, Hlen.
Defined.

(** With [N = 3], four distinct keys of partition 2 submitted to a server
    that starts empty: all are accepted; the directory of the partition
    then holds a file of 3 keys and a file of 4 keys, the write-ahead log
    is empty, and the memtable holds 4 keys. *)
Lemma memtable_not_cleared :
  let ks := [h32 Byte.x81; h32 Byte.x82; h32 Byte.x83; h32 Byte.x84] in
  (∃ st fs', lifespan small_constants day empty_fs = Ok st fs' ∧
     submit_all small_constants day ks st
       = Ok [None; None; None; None] (served ks)) ∧
  (Bytes.len <$> default [] (db (fs (served ks)) !! 2)) = [3 * 32; 4 * 32] ∧
  wal (fs (served ks)) !! 2 = Some [] ∧
  with_memtable 2 memtable.len (served ks) = Ok 4 (served ks).
Proof.
  intros ks. split.
  { eexists _, _. split.
    - vm_compute. reflexivity.
    - vm_compute. reflexivity. }
  split_and!; vm_compute; reflexivity.
Qed.

(** * More on the memtable *)

Import memtable shape.

(** ** [get], [__len__] and [__bool__] *)

(** [get] after inserts: the key itself when it was inserted, [None]
    otherwise, and the memtable is left as it was. *)
Theorem get_after_inserts (ks : list bytes) (k : bytes) :
  ∃ bs s, insert_all ks new_MemTable = Ok bs s ∧
          get k s = Ok (if decide (k ∈ ks) then Some k else None) s.
Proof.
  destruct (insert_all_spec ks _ _ inv_new_MemTable)
    as (bs & s & t & Hrun & (Hrep & Hbst & _) & Hk).
  exists bs, s. split; [done|]. rewrite (get_spec k s t) by done.
  f_equal. destruct (decide (k ∈ keys t)) as [Hin|Hin].
  - rewrite decide_True; [done|]. apply Hk in Hin as [|Hin]; [done|].
    by apply elem_of_nil in Hin.
  - rewrite decide_False; [done|]. intros Hin'. apply Hin, Hk. by left.
Qed.

(** [len] after inserts is the number of distinct keys inserted, and the
    memtable is true in a condition exactly when a key was inserted. *)
Theorem len_counts_distinct_keys (ks : list bytes) :
  ∃ bs s, insert_all ks new_MemTable = Ok bs s ∧
          len s = Ok (Z.of_nat (length (remove_dups ks))) s ∧
          bool_ s = Ok (bool_decide (ks ≠ [])) s.
Proof.
  destruct (insert_all_spec ks _ _ inv_new_MemTable)
    as (bs & s & t & Hrun & (Hrep & Hbst & _ & Hel) & Hk).
  assert (length (keys t) = length (remove_dups ks)) as Hlen.
  { apply Permutation_length, NoDup_Permutation.
    - by apply sorted_NoDup.
    - apply NoDup_remove_dups.
    - intros y. rewrite Hk, elem_of_remove_dups. simpl. rewrite elem_of_nil. tauto. }
  exists bs, s. split_and!; [done| |].
  - unfold len, get_elements. by rewrite Hel, Hlen.
  - unfold bool_, mbind, M_bind, bind, get_elements, mret, M_ret, ret.
    f_equal. rewrite Hel, Hlen. destruct ks as [|k ks]; [done|].
    rewrite bool_decide_true by done. apply Z.ltb_lt.
    assert (k ∈ remove_dups (k :: ks)) as Hin by (apply elem_of_remove_dups; by left).
    destruct (remove_dups (k :: ks)); [by apply elem_of_nil in Hin|simpl; lia].
Qed.

(** ** [in_order] *)

Lemma in_order_traverse_spec fuel : ∀ t par s lst,
  own (heap s) par t → NIL_ref ∉ refs t → (height t < fuel)%nat →
  wp (in_order_traverse fuel (ptr t) lst) s
     (λ r s', s' = s ∧ r = lst ++ (Some <$> keys t)).
Proof.
  induction fuel as [|fuel IH]; intros t par s lst Ho H0 Hh; [lia|].
  cbn [in_order_traverse]. destruct t as [|x c l kx r]; cbn [ptr].
  - rewrite decide_True by done. apply wp_ret. by rewrite app_nil_r.
  - simpl in H0, Hh. set_norm. destruct Ho as (Hx & Hl & Hr).
    unfold NIL. wp_run.
    eapply wp_bind, wp_mono; [apply (IH l (Some x)); [done|done|lia]|].
    intros ls s' [-> ->]. wp_run.
    eapply wp_mono; [apply (IH r (Some x)); [done|done|lia]|].
    intros rs s' [-> ->]. split; [done|].
    simpl. rewrite fmap_app. simpl. by rewrite <-!app_assoc.
Qed.

(** [in_order] returns the list that the iteration yields: the keys
    inserted, each once, in strictly increasing order. *)
Theorem in_order_is_iteration (ks : list bytes) :
  ∃ bs s ys, insert_all ks new_MemTable = Ok bs s ∧
    in_order s = Ok (Some <$> ys) s ∧
    iter s = Ok (Some <$> ys) s ∧
    StronglySorted Bytes.lt ys ∧ (∀ y, y ∈ ys ↔ y ∈ ks).
Proof.
  destruct (insert_all_spec ks _ _ inv_new_MemTable)
    as (bs & s & t & Hrun & (Hrep & Hbst & _) & Hk).
  exists bs, s, (keys t). split_and!; [done| |by apply iter_spec|done|].
  - pose proof (rep_height _ _ Hrep) as Hh. destruct Hrep as [Ho Hr Hw Hn Hb].
    pose proof (in_order_traverse_spec (fuel_of s) t None s [] Ho
      (bounded_nil _ _ Hb)) as H.
    unfold in_order, mbind, M_bind, bind, get_root, get_fuel. rewrite Hr.
    unfold wp in H. unfold fuel_of in *.
    destruct (in_order_traverse _ _ _ s); try (exfalso; apply H; lia).
    destruct H as [-> ->]; [lia|done].
  - intros y. rewrite Hk. simpl. rewrite elem_of_nil. tauto.
Qed.

(** * [remove] on the keys it handles *)

Import memtable shape.

(** The descent of [remove]: NIL when the key is not in the tree, the
    node that holds it otherwise. *)
Lemma remove_find_spec k fuel : ∀ s t ctx,
  rep s (plug t ctx) → bst t → (height t < fuel)%nat →
  wp (remove_find fuel k (ptr t)) s (λ r s', s' = s ∧
     ((k ∉ keys t ∧ r = NIL) ∨
      ∃ x c l r' ctx', plug t ctx = plug (Br x c l k r') ctx' ∧ r = Some x)).
Proof.
  induction fuel as [|fuel IH]; intros s t ctx Hrep Hbst Hh; [lia|].
  cbn [remove_find]. destruct t as [|x c l kx r].
  - cbn [ptr]. rewrite decide_False by (by intros ?). apply wp_ret.
    split; [done|]. left. split; [|done]. simpl. by intros ?%elem_of_nil.
  - pose proof Hrep as (Ho & _ & _ & _ & _ & _ & _ & Hb)%rep_plug.
    pose proof (bounded_nil _ _ Hb) as H0. simpl in H0. set_norm.
    destruct Ho as (Hx & _). cbn [ptr]. unfold NIL. wp_run.
    apply bst_Br in Hbst as (Hbl & Hbr & Hlt & Hgt). simpl in Hh.
    rewrite Forall_forall in Hlt, Hgt.
    unfold py_eq. destruct (k =?b kx) eqn:Heq.
    { apply wp_ret. split; [done|]. apply bytes_eqb_eq in Heq as ->.
      right. by exists x, c, l, r, ctx. }
    apply bytes_eqb_neq in Heq.
    wp_run. unfold py_lt. apply wp_bind, wp_ret.
    destruct (k <?b kx) eqn:Hlt'.
    + wp_run. eapply wp_mono.
      { apply (IH s l (mkFrame L x c kx r :: ctx)); [exact Hrep|done|lia]. }
      intros a s' [-> [[Hn ->]|Hfound]]; (split; [done|]); [left|by right].
      split; [|done]. simpl. rewrite elem_of_app, elem_of_cons.
      intros [?|[?|Hin%Hgt]]; [done..|]. unfold Bytes.lt in Hin.
      by rewrite (bytes_ltb_asym _ _ Hin) in Hlt'.
    + wp_run. eapply wp_mono.
      { apply (IH s r (mkFrame R x c kx l :: ctx)); [exact Hrep|done|lia]. }
      intros a s' [-> [[Hn ->]|Hfound]]; (split; [done|]); [left|by right].
      split; [|done]. simpl. rewrite elem_of_app, elem_of_cons.
      intros [Hin%Hlt|[?|?]]; [|done..]. unfold Bytes.lt in Hin. congruence.
Qed.

Lemma remove_find_root k s t :
  rep s t → bst t →
  ∃ r, remove_find (fuel_of s) k (root s) s = Ok r s ∧
    ((k ∉ keys t ∧ r = NIL) ∨
     ∃ x c l r' ctx, t = plug (Br x c l k r') ctx ∧ r = Some x).
Proof.
  intros Hrep Hbst. pose proof (rep_height _ _ Hrep) as Hh.
  pose proof (remove_find_spec k (fuel_of s) s t [] Hrep Hbst) as H.
  rewrite (rep_root _ _ Hrep). unfold wp, fuel_of in *.
  destruct (remove_find _ _ _ s) as [r s'| |]; try (exfalso; apply H; lia).
  destruct H as [-> H]; [lia|]. by exists r.
Qed.

(** [remove] of a key that was not inserted returns [False] and leaves
    the memtable as it was. *)
Theorem remove_absent (ks : list bytes) (k : bytes) :
  k ∉ ks →
  ∃ bs s, insert_all ks new_MemTable = Ok bs s ∧
          remove k s = Ok false s ∧ delitem k s = Ok false s.
Proof.
  intros Hk.
  destruct (insert_all_spec ks _ _ inv_new_MemTable)
    as (bs & s & t & Hrun & (Hrep & Hbst & _) & Hkeys).
  exists bs, s. split; [done|].
  assert (remove k s = Ok false s) as Hrem; [|by split].
  destruct (remove_find_root k s t Hrep Hbst) as (r & Hfind & [[_ ->]|Hin]).
  - unfold remove, mbind, M_bind, bind, get_root, get_fuel. rewrite Hfind.
    by rewrite decide_True.
  - destruct Hin as (x & c & l & r' & ctx & -> & _). destruct Hk.
    assert (k ∈ keys (plug (Br x c l k r') ctx)) as Hin.
    { rewrite keys_plug. simpl. set_solver. }
    apply Hkeys in Hin as [|Hin]; [done|]. by apply elem_of_nil in Hin.
Qed.

(** The hypothesis of [remove_absent] holds for a key that differs from
    the two inserted. *)
Lemma remove_absent_witness :
  ∃ bs s, insert_all [samples.k1; samples.k2] new_MemTable = Ok bs s ∧
          remove samples.k3 s = Ok false s ∧ delitem samples.k3 s = Ok false s.
Proof.
  apply (remove_absent [samples.k1; samples.k2] samples.k3).
  intros Hin. repeat (apply elem_of_cons in Hin as [Hin|Hin]; [discriminate Hin|]).
  by apply elem_of_nil in Hin.
Defined.

(** ** A key at a red leaf *)

Lemma fix_remove_red_leaf s x k f ctx fuel :
  rep s (plug (Br x true Lf k Lf) (f :: ctx)) →
  wp (fix_remove (S fuel) (Some x)) s
     (λ _ s', rep s' (plug Lf (f :: ctx)) ∧ next s' = next s ∧
              elements s' = elements s).
Proof.
  intros Hrep. cbn [fix_remove]. destruct f as [d p c kp sib].
  pose proof Hrep as (Ho & Hc & Hr & Hw & Hwc & Hd & [p0 Hn] & Hb)%rep_plug.
  pose proof (bounded_nil _ _ Hb) as H0.
  destruct Ho as (Hx & _). destruct Hc as (Hp & Hs & Hc).
  cbn [f_ref f_dir f_red f_key f_sib ctx_parent ptr] in *.
  simpl in Hw, Hwc, Hd, H0. set_norm. rewrite ctx_root_cons_eq in Hr.
  wp_run. unfold delete_node.
  destruct d; wp_run; (split; [rep_finish|done]).
Qed.

Lemma ptr_NIL t : NIL_ref ∉ refs t → ptr t = NIL → t = Lf.
Proof.
  destruct t as [|x c l k r]; [done|]. simpl. intros H0 [= ->].
  destruct H0. clear. set_solver.
Qed.

Lemma filter_all {A} (P : A → Prop) `{∀ x, Decision (P x)} (l : list A) :
  Forall P l → filter P l = l.
Proof.
  induction 1 as [|x l Hx _ IH]; [done|].
  by rewrite filter_cons_True, IH.
Qed.

Lemma filter_ne_middle (l r : list bytes) (k : bytes) :
  StronglySorted Bytes.lt (l ++ k :: r) →
  filter (λ y, y ≠ k) (l ++ k :: r) = l ++ r.
Proof.
  intros Hs. apply sorted_NoDup in Hs.
  apply NoDup_app in Hs as (Hl & Hlr & Hr%NoDup_cons).
  destruct Hr as [Hr _].
  rewrite filter_app, filter_cons_False by (by intros ?).
  rewrite !filter_all; [done|..]; apply Forall_forall; intros y Hy ->.
  - done.
  - apply (Hlr k); [done|by left].
Qed.

(** Replacing a subtree by one of the same black height, which is not
    red where the first is not, keeps the red-black conditions of the
    whole tree when it keeps those of the subtree. *)
Lemma red_black_plug ctx : ∀ u u',
  black_height u' = black_height u →
  (color u' = true → color u = true) →
  (red_black u → red_black u') →
  red_black (plug u ctx) → red_black (plug u' ctx).
Proof.
  induction ctx as [|f ctx IH]; intros u u' Hbh Hcol Hrb; [done|].
  cbn [plug]. apply IH.
  - unfold fill. destruct (f_dir f); cbn [black_height]; congruence.
  - unfold fill. by destruct (f_dir f).
  - unfold fill, red_black. destruct (f_dir f); cbn [no_red_red balanced].
    + intros ((Hred & Hu & Hsib) & (Hh & Hbu & Hbsib)).
      destruct Hrb as [Hu' Hbu']; [done|]. split_and!; try done; [|congruence].
      intros Hc. destruct (Hred Hc) as [Hcu Hcs]. split; [|done].
      destruct (color u') eqn:E; [|done]. rewrite Hcol in Hcu; done.
    + intros ((Hred & Hsib & Hu) & (Hh & Hbsib & Hbu)).
      destruct Hrb as [Hu' Hbu']; [done|]. split_and!; try done; [|congruence].
      intros Hc. destruct (Hred Hc) as [Hcs Hcu]. split; [done|].
      destruct (color u') eqn:E; [|done]. rewrite Hcol in Hcu; done.
Qed.

(** [remove] of a key whose node is a red leaf returns [True] and
    deletes exactly that key: the memtable keeps its invariant (it is
    the store of a search tree with a black root, whose number of keys
    is the element count), the red-black conditions are kept when they
    held, the iteration yields the other keys in order, and [len] is
    one less. *)
Theorem remove_red_leaf (s : MemTable) (t : tree) (k : bytes) (x : ref) :
  inv s t →
  remove_find (fuel_of s) k (root s) s = Ok (Some x) s →
  get_red (Some x) s = Ok true s →
  get_left (Some x) s = Ok NIL s →
  get_right (Some x) s = Ok NIL s →
  ∃ s' t',
    remove k s = Ok true s' ∧ inv s' t' ∧
    (red_black t → red_black t') ∧
    keys t' = filter (λ y, y ≠ k) (keys t) ∧
    iter s' = Ok (Some <$> filter (λ y, y ≠ k) (keys t)) s' ∧
    len s' = Ok (Z.of_nat (length (keys t)) - 1) s'.
Proof.
  intros (Hrep & Hbst & Hblack & Hel) Hfind Hred Hleft Hright.
  destruct (remove_find_root k s t Hrep Hbst) as (r0 & Hfind' & Hcase).
  rewrite Hfind in Hfind'. injection Hfind' as <-.
  destruct Hcase as [[_ [= ->]]|(x' & c & l & r & ctx & -> & [= <-])].
  { destruct (rep_nil _ _ Hrep) as [p0 Hn]. revert Hred.
    unfold get_red, mbind, M_bind, bind, load. by rewrite Hn. }
  pose proof (rep_focus _ _ _ _ _ _ _ Hrep) as Hx.
  pose proof Hrep as (_ & _ & _ & _ & _ & _ & _ & Hb)%rep_plug.
  pose proof (bounded_nil _ _ Hb) as H0. simpl in H0.
  assert (c = true) as ->.
  { revert Hred. unfold get_red, mbind, M_bind, bind, load. rewrite Hx.
    by intros [= ->]. }
  assert (l = Lf) as ->.
  { apply ptr_NIL; [clear -H0; set_solver|]. revert Hleft.
    unfold get_left, mbind, M_bind, bind, load. rewrite Hx. by intros [= ->]. }
  assert (r = Lf) as ->.
  { apply ptr_NIL; [clear -H0; set_solver|]. revert Hright.
    unfold get_right, mbind, M_bind, bind, load. rewrite Hx. by intros [= ->]. }
  destruct ctx as [|f ctx]; [done|].
  pose proof (fix_remove_red_leaf s x k f ctx (next s) Hrep) as Hfix.
  apply wp_inv in Hfix as ([] & s1 & Hrun & Hrep1 & Hn1 & He1).
  assert (keys (plug Lf (f :: ctx)) =
          filter (λ y, y ≠ k) (keys (plug (Br x true Lf k Lf) (f :: ctx)))) as Hkeys.
  { unfold bst in Hbst. rewrite keys_plug in Hbst. rewrite !keys_plug.
    cbn [keys app] in *. by rewrite filter_ne_middle. }
  assert (length (keys (plug (Br x true Lf k Lf) (f :: ctx))) =
          S (length (keys (plug Lf (f :: ctx))))) as Hlen.
  { rewrite !keys_plug, !length_app. cbn [keys app length]. lia. }
  assert (inv (mkMemTable (heap s1) (next s1) (root s1) (elements s1 - 1))
              (plug Lf (f :: ctx))) as Hinv.
  { split_and!.
    - destruct s1. by eapply rep_elements.
    - unfold bst in *. rewrite keys_plug in *. cbn [keys app] in *.
      apply StronglySorted_app in Hbst as (Hlr & Hl & Hr).
      apply StronglySorted_cons in Hr as [Hkr Hr].
      apply StronglySorted_app. split_and!; [|done..].
      intros y z Hy Hz. apply Hlr; [done|by right].
    - by eapply black_root_plug.
    - cbn [elements]. rewrite He1, Hel, Hlen. lia. }
  eexists _, _. split_and!; [|exact Hinv| |exact Hkeys| |].
  - unfold remove.
    unfold mbind at 1, M_bind at 1, bind at 1. cbn [get_root].
    unfold mbind at 1, M_bind at 1, bind at 1. cbn [get_fuel].
    unfold mbind at 1, M_bind at 1, bind at 1. rewrite Hfind.
    rewrite decide_False.
    2:{ intros [= ->]. destruct H0. clear. set_solver. }
    unfold mbind at 1, M_bind at 1, bind at 1. cbn [get_fuel].
    unfold mbind at 1, M_bind at 1, bind at 1. unfold fuel_of. rewrite Hrun.
    reflexivity.
  - apply (red_black_plug (f :: ctx)); [done|done|done].
  - rewrite <-Hkeys. apply iter_spec. by destruct Hinv.
  - unfold len, get_elements. cbn [elements]. f_equal. rewrite He1, Hel, Hlen. lia.
Qed.

(** The hypotheses of [remove_red_leaf] hold on the memtable built by
    inserting two keys, for the second key. *)
Lemma remove_red_leaf_witness :
  let s := samples.memtable_of [samples.k1; samples.k2] in
  ∃ t s' t',
    inv s t ∧
    remove samples.k2 s = Ok true s' ∧ inv s' t' ∧
    (red_black t → red_black t') ∧
    keys t' = filter (λ y, y ≠ samples.k2) (keys t) ∧
    iter s' = Ok (Some <$> filter (λ y, y ≠ samples.k2) (keys t)) s' ∧
    len s' = Ok (Z.of_nat (length (keys t)) - 1) s'.
Proof.
  intros s.
  destruct (inv_memtable_of [samples.k1; samples.k2]) as (t & Hinv & _).
  destruct (remove_red_leaf s t samples.k2 2%nat Hinv) as (s' & t' & H);
    [vm_compute; reflexivity..|].
  by exists t, s', t'.
Defined.

(** ** The only key of a memtable *)

(** [remove] of the only key of a memtable returns [True] and sets
    [len] to 0, but the node of the root is left in place: the key is
    still found and still yielded. *)
Theorem remove_only_key_stays (k : bytes) :
  ∃ s s',
    insert k new_MemTable = Ok true s ∧
    remove k s = Ok true s' ∧
    len s' = Ok 0 s' ∧ bool_ s' = Ok false s' ∧
    get k s' = Ok (Some k) s' ∧
    contains k s' = Ok true s' ∧
    iter s' = Ok [Some k] s'.
Proof.
  destruct (insert_ok k new_MemTable Lf inv_new_MemTable)
    as (s & t & Hins & (Hrep & Hbst & Hblack & Hel) & Hk).
  rewrite bool_decide_true in Hins by (by intros ?%elem_of_nil).
  assert (keys t = [k]) as Hkeys.
  { assert (∀ y, y ∈ keys t → y = k) as Hall.
    { intros y [->|Hy%elem_of_nil]%Hk; done. }
    apply sorted_NoDup in Hbst. destruct (keys t) as [|y [|z l]] eqn:E.
    - assert (k ∈ @nil bytes) as Hin%elem_of_nil by (apply Hk; by left). done.
    - f_equal. apply Hall. by left.
    - apply NoDup_cons in Hbst as [Hyz _]. destruct Hyz.
      rewrite (Hall y), (Hall z); [by left|by right; left|by left]. }
  destruct t as [|x c l k' r]; [discriminate Hkeys|].
  cbn [keys black_root] in Hkeys, Hblack. subst c.
  assert (l = Lf ∧ k' = k ∧ r = Lf) as (-> & -> & ->).
  { destruct (keys l) eqn:El.
    - simpl in Hkeys. injection Hkeys as -> Hr. by rewrite (keys_nil l), (keys_nil r).
    - simpl in Hkeys. injection Hkeys as _ Hr.
      apply app_eq_nil in Hr as [_ Hr]. discriminate Hr. }
  assert (wp (remove k) s (λ b s', b = true ∧
            s' = mkMemTable (heap s) (next s) (root s) (elements s - 1))) as Hrem.
  { change (Br x false Lf k Lf) with (plug (Br x false Lf k Lf) []) in Hrep.
    pose proof Hrep as (Ho & _ & Hr & _ & _ & _ & [p0 Hn] & Hb)%rep_plug.
    pose proof (bounded_nil _ _ Hb) as H0. destruct Ho as (Hx & _).
    unfold ctx_root in Hr. simpl in H0, Hr. set_norm. cbn [ctx_parent ptr] in Hx.
    unfold remove. wp_run. unfold fuel_of. cbn [remove_find].
    unfold NIL. wp_run. unfold py_eq. rewrite bytes_eqb_refl. wp_run.
    apply wp_bind. unfold fuel_of. cbn [fix_remove]. wp_run.
    unfold fuel_of.
    replace (3 * S (next s))%nat with (S (3 * next s + 2)) by lia.
    cbn [fix_double_black]. wp_run. split; [done|]. congruence. }
  apply wp_inv in Hrem as (b & s' & Hrun & -> & ->).
  set (s' := mkMemTable _ _ _ _) in *.
  assert (rep s' (Br x false Lf k Lf)) as Hrep'.
  { apply (rep_elements _ _ _ (elements s)). by destruct s. }
  assert (elements s' = 0) as Hel' by (unfold s'; simpl in *; lia).
  exists s, s'. split_and!; [done|done|..].
  - unfold len, get_elements. by rewrite Hel'.
  - unfold bool_, mbind, M_bind, bind, get_elements, mret, M_ret, ret.
    by rewrite Hel'.
  - rewrite (get_spec k s' _ Hrep' Hbst). by rewrite decide_True by (simpl; set_solver).
  - rewrite (contains_spec k s' _ Hrep' Hbst).
    by rewrite bool_decide_true by (simpl; set_solver).
  - by rewrite (iter_spec s' _ Hrep').
Qed.

(** * More on the index files *)

Import constants memtable shape idx_reader idx_builder.

(** ** [contains_hash] on well-formed files *)

(** The search only reads the records between its bounds. *)
Lemma contains_search_absent_within h data k fuel : ∀ low high,
  (∀ i, low ≤ i ≤ high → Bytes.slice data (i * h) (i * h + h) ≠ k) →
  (Z.to_nat (high - low + 1) < fuel)%nat →
  contains_search fuel h data k low high = Some false.
Proof.
  induction fuel as [|fuel IH]; intros low high Hk Hf; [lia|].
  cbn [contains_search]. destruct (low <=? high) eqn:Hle; [|done].
  apply Z.leb_le in Hle. pose proof (shiftr_mid_le low high Hle).
  destruct (_ =?b _) eqn:Heq.
  { apply bytes_eqb_eq in Heq. by destruct (Hk (Z.shiftr (low + high) 1)). }
  destruct (_ <?b _); apply IH; try lia; intros i Hi; apply Hk; lia.
Qed.

Lemma contains_hash_files_absent c (recss : list (list bytes)) k :
  0 < c.(HASH_SIZE) → Forall (index_file c) recss →
  k ∉ concat recss →
  contains_hash_files c ((λ recs, concat recs) <$> recss) k = Some false.
Proof.
  intros Hh Hwf. induction Hwf as [|recs recss (Hlen & Hrecs & Hs) _ IH]; intros Hk.
  - done.
  - cbn [fmap list_fmap contains_hash_files].
    rewrite contains_search_absent_within.
    + simpl. apply IH. intros Hin. apply Hk. simpl. set_solver.
    + intros i Hi Heq.
      destruct (lookup_lt_is_Some_2 recs (Z.to_nat i)) as [r Hr]; [lia|].
      rewrite (slice_record _ recs i r) in Heq by (done || lia). subst r.
      apply Hk. simpl. apply elem_of_app. left. by eapply list_elem_of_lookup_2.
    + unfold search_fuel. lia.
Qed.

Lemma elem_of_concat {A} (x : A) (ls : list (list A)) :
  x ∈ concat ls ↔ ∃ l, x ∈ l ∧ l ∈ ls.
Proof.
  induction ls as [|l ls IH]; simpl.
  - rewrite elem_of_nil. split; [done|]. by intros (l & _ & ?%elem_of_nil).
  - rewrite elem_of_app, IH. split.
    + intros [?|(l' & ? & ?)]; [exists l; split; [done|by left]|].
      exists l'. split; [done|by right].
    + intros (l' & Hx & [->|?]%elem_of_cons); [by left|]. right. by exists l'.
Qed.

(** On index files that each hold [N] records of [HASH_SIZE] bytes in
    increasing order, [contains_hash] returns [True] exactly for the
    stored keys, the last key of a file included. *)
Theorem contains_hash_iff_stored (c : Constants) (fs : FS) (self : IndexReader)
    (recss : list (list bytes)) (k : bytes) :
  0 < c.(HASH_SIZE) →
  files fs self = (λ recs, concat recs) <$> recss →
  Forall (index_file c) recss →
  contains_hash c fs self k = Some (bool_decide (k ∈ concat recss)).
Proof.
  intros Hh Hfiles Hwf. destruct (decide (k ∈ concat recss)) as [Hin|Hin].
  - rewrite bool_decide_true by done.
    apply elem_of_concat in Hin as (recs & Hk & Hrecs).
    apply (contains_hash_present c fs self k recs); [done| |  |done].
    + rewrite Forall_forall in Hwf. by apply Hwf.
    + rewrite Hfiles. by apply (list_elem_of_fmap_2 (λ recs, concat recs)).
  - rewrite bool_decide_false by done. unfold contains_hash. rewrite Hfiles.
    by apply contains_hash_files_absent.
Qed.

(** The hypotheses of [contains_hash_iff_stored] hold on the sample file
    of [N = 3] keys, here for its last key. *)
Lemma contains_hash_iff_stored_witness :
  contains_hash small_constants samples.idx_fs (mkIndexReader 3)
    (samples.h32 Byte.x83)
  = Some (bool_decide (samples.h32 Byte.x83 ∈ concat [samples.idx_keys])).
Proof.
  apply (contains_hash_iff_stored small_constants samples.idx_fs
           (mkIndexReader 3) [samples.idx_keys]).
  - reflexivity.
  - vm_compute. reflexivity.
  - repeat first [ constructor | split ]; vm_compute; reflexivity.
Defined.

(** ** [get_all_hash_prefixes] *)

Lemma read_loop_records (h : Z) (recs : list bytes) : ∀ fuel,
  0 < h → Forall (λ r, Bytes.len r = h) recs →
  (length recs < fuel)%nat →
  read_loop fuel h (concat recs) = recs.
Proof.
  induction recs as [|r recs IH]; intros fuel Hh Hlen Hf.
  - destruct fuel as [|fuel]; [lia|]. simpl. unfold file_read.
    rewrite (proj2 (Z.ltb_ge h 0)) by lia. by rewrite take_nil.
  - destruct fuel as [|fuel]; [simpl in Hf; lia|].
    apply Forall_cons in Hlen as [Hr Hlen]. unfold Bytes.len in Hr.
    cbn [read_loop concat]. unfold file_read.
    rewrite (proj2 (Z.ltb_ge h 0)) by lia.
    rewrite take_app_length', drop_app_length' by lia.
    destruct r as [|b r]; [simpl in Hr; lia|].
    f_equal. apply IH; [done|done|simpl in Hf; lia].
Qed.

Lemma get_all_hash_prefixes_records (c : Constants) (fs : FS)
    (self : IndexReader) (recss : list (list bytes)) :
  0 < c.(HASH_SIZE) →
  files fs self = (λ recs, concat recs) <$> recss →
  Forall (Forall (λ r, Bytes.len r = c.(HASH_SIZE))) recss →
  get_all_hash_prefixes c fs self = concat (take 4 <$> concat recss).
Proof.
  intros Hh Hfiles Hwf. unfold get_all_hash_prefixes. rewrite Hfiles. clear Hfiles.
  induction Hwf as [|recs recss Hrecs _ IH]; [done|].
  cbn [fmap list_fmap concat]. rewrite fmap_app, concat_app. f_equal; [|exact IH].
  rewrite (read_loop_records _ recs); [| done | done |].
  - f_equal. apply list_fmap_ext. intros _ r _. by rewrite prefix_take.
  - assert (Forall (λ r, length r = Z.to_nat (HASH_SIZE c)) recs) as Hl.
    { eapply Forall_impl; [exact Hrecs|]. intros r Hr. unfold Bytes.len in Hr.
      simpl in Hr. lia. }
    rewrite (length_concat_records _ _ Hl). nia.
Qed.

(** On index files made of records of [HASH_SIZE] bytes,
    [get_all_hash_prefixes] returns the first four bytes of every record
    of every file, in the order of the files, the last record of each
    file included. *)
Theorem all_hash_prefixes_of_records (c : Constants) (fs : FS)
    (self : IndexReader) (recss : list (list bytes)) :
  0 < c.(HASH_SIZE) →
  files fs self = (λ recs, concat recs) <$> recss →
  Forall (Forall (λ r, Bytes.len r = c.(HASH_SIZE))) recss →
  get_all_hash_prefixes c fs self = concat (take 4 <$> concat recss).
Proof. apply get_all_hash_prefixes_records. Qed.

(** The hypotheses of [all_hash_prefixes_of_records] hold on the sample
    file. *)
Lemma all_hash_prefixes_of_records_witness :
  get_all_hash_prefixes small_constants samples.idx_fs (mkIndexReader 3)
  = concat (take 4 <$> concat [samples.idx_keys]).
Proof.
  apply (all_hash_prefixes_of_records small_constants samples.idx_fs
           (mkIndexReader 3) [samples.idx_keys]).
  - reflexivity.
  - vm_compute. reflexivity.
  - repeat constructor.
Defined.

(** ** [flush_to_idx] and the reader of the same directory *)

Lemma keys_of_inserts ks s t :
  inv s t → (∀ y, y ∈ keys t ↔ y ∈ ks) →
  keys t ≡ₚ remove_dups ks.
Proof.
  intros (_ & Hbst & _) Hk. apply NoDup_Permutation.
  - by apply sorted_NoDup.
  - apply NoDup_remove_dups.
  - intros y. by rewrite Hk, elem_of_remove_dups.
Qed.

(** A memtable that holds [N] distinct keys of [HASH_SIZE] bytes is
    flushed to a new file at the end of the directory, of [N *
    HASH_SIZE] bytes; the files that were there, the other directories
    and the write-ahead logs are left as they were, and a reader of the
    directory then finds every key of the memtable. *)
Theorem flushed_keys_are_found (c : Constants) (ks : list bytes) (p : Z)
    (fs : FS) (fls : list bytes) :
  0 < c.(HASH_SIZE) →
  Z.of_nat (length (remove_dups ks)) = c.(HASHES_PER_IDX) →
  Forall (λ r, Bytes.len r = c.(HASH_SIZE)) ks →
  db fs !! p = Some fls →
  ∃ bs mt file,
    insert_all ks new_MemTable = Ok bs mt ∧
    flush_to_idx mt p fs = Ok tt (mkFS (<[p := fls ++ [file]]> (db fs)) (wal fs)) ∧
    Bytes.len file = c.(HASHES_PER_IDX) * c.(HASH_SIZE) ∧
    ∀ k, k ∈ ks →
      contains_hash c (mkFS (<[p := fls ++ [file]]> (db fs)) (wal fs))
        (mkIndexReader p) k = Some true.
Proof.
  intros Hh HN Hlen Hdb.
  destruct (insert_all_spec ks _ _ inv_new_MemTable)
    as (bs & mt & t & Hrun & Hinv & Hk).
  assert (∀ y, y ∈ keys t ↔ y ∈ ks) as Hk'.
  { intros y. rewrite Hk. simpl. rewrite elem_of_nil. tauto. }
  pose proof (keys_of_inserts ks mt t Hinv Hk') as Hperm.
  assert (index_file c (keys t)) as Hwf.
  { split_and!.
    - by rewrite Hperm.
    - apply Forall_forall. intros y Hy%Hk'. rewrite Forall_forall in Hlen. by apply Hlen.
    - by destruct Hinv as (_ & Hbst & _). }
  exists bs, mt, (concat (keys t)). split_and!; [done| | |].
  - apply flush_to_idx_spec; [by destruct Hinv|done].
  - destruct Hwf as (Hn & Hl & _). unfold Bytes.len.
    rewrite (length_concat_records (Z.to_nat (HASH_SIZE c))).
    + rewrite <-Hn. nia.
    + eapply Forall_impl; [exact Hl|]. intros r Hr. unfold Bytes.len in Hr.
      simpl in Hr. lia.
  - intros k Hin. apply (contains_hash_present c _ _ k (keys t)); [done|done| |by apply Hk'].
    unfold files. simpl. rewrite lookup_insert_eq. simpl. set_solver.
Qed.

(** The hypotheses of [flushed_keys_are_found] hold for [N = 3] on the
    three sample keys of partition 2 and an empty directory. *)
Lemma flushed_keys_are_found_witness :
  ∃ bs mt file,
    insert_all samples.idx_keys new_MemTable = Ok bs mt ∧
    flush_to_idx mt 2 samples.empty_fs
      = Ok tt (mkFS (<[2 := [] ++ [file]]> (db samples.empty_fs))
                    (wal samples.empty_fs)) ∧
    Bytes.len file = small_constants.(HASHES_PER_IDX) * small_constants.(HASH_SIZE) ∧
    ∀ k, k ∈ samples.idx_keys →
      contains_hash small_constants
        (mkFS (<[2 := [] ++ [file]]> (db samples.empty_fs)) (wal samples.empty_fs))
        (mkIndexReader 2) k = Some true.
Proof.
  apply (flushed_keys_are_found small_constants samples.idx_keys 2
           samples.empty_fs []).
  - reflexivity.
  - vm_compute. reflexivity.
  - repeat constructor.
  - vm_compute. reflexivity.
Defined.

(** * Startup *)

Import constants memtable shape idx_reader idx_builder server_main.

(** ** Recovery of one memtable *)

Lemma build_memtable_from_WAL_spec c p fs :
  0 < c.(HASH_SIZE) →
  ∃ mt t,
    build_memtable_from_WAL c p fs =
      Ok mt (mkFS (db fs) (<[p := default [] (wal fs !! p)]> (wal fs))) ∧
    inv mt t ∧
    (∀ y, y ∈ keys t ↔ y ∈ wal_records c (default [] (wal fs !! p))).
Proof.
  intros Hh. unfold build_memtable_from_WAL, wal_records.
  set (mm := default [] (wal fs !! p)).
  assert (0 ≤ Bytes.len mm) as Hlen by (unfold Bytes.len; lia).
  destruct (range0 (Bytes.len mm) (HASH_SIZE c)) as [offsets|] eqn:Hoff.
  2:{ unfold range0 in Hoff. rewrite (proj2 (Z.eqb_neq _ _)) in Hoff by lia.
      by destruct (_ <? _). }
  pose proof (length_range0 _ _ _ Hh Hlen Hoff) as Hcount.
  destruct (Bytes.len mm =? 0) eqn:Hz.
  - apply Z.eqb_eq in Hz. rewrite Hz in *.
    assert (offsets = []) as ->.
    { apply length_zero_iff_nil. rewrite Z.add_0_l, Z.div_small in Hcount; lia. }
    exists new_MemTable, Lf. split_and!; [done|apply inv_new_MemTable|done].
  - destruct (insert_records_spec c mm offsets _ _ inv_new_MemTable)
      as (s' & t' & -> & Hinv & Hk).
    exists s', t'. split_and!; [done|done|].
    intros y. rewrite Hk. simpl. rewrite elem_of_nil. tauto.
Qed.

Lemma wal_records_concat c (recs : list bytes) :
  0 < c.(HASH_SIZE) → Forall (λ r, Bytes.len r = c.(HASH_SIZE)) recs →
  wal_records c (concat recs) = recs.
Proof.
  intros Hh Hlen. unfold wal_records, range0.
  rewrite (proj2 (Z.eqb_neq _ _)), (proj2 (Z.ltb_ge _ _)) by lia.
  assert (Forall (λ r, length r = Z.to_nat (HASH_SIZE c)) recs) as Hl.
  { eapply Forall_impl; [exact Hlen|]. intros r Hr. unfold Bytes.len in Hr.
    simpl in Hr. lia. }
  unfold Bytes.len at 1. rewrite (length_concat_records _ _ Hl).
  replace (Z.to_nat ((Z.of_nat (length recs * Z.to_nat (HASH_SIZE c))
                      + HASH_SIZE c - 1) / HASH_SIZE c))
    with (length recs).
  2:{ symmetry. apply Nat2Z.inj. rewrite Z2Nat.id by (apply Z.div_pos; lia).
      symmetry. apply Z.div_unique with (r := HASH_SIZE c - 1); [lia|]. nia. }
  rewrite <-list_fmap_compose. apply list_eq. intros i.
  rewrite list_lookup_fmap. destruct (recs !! i) as [r|] eqn:Hr.
  - pose proof (lookup_lt_Some _ _ _ Hr).
    rewrite lookup_seq_lt by done. simpl.
    f_equal. apply slice_record; [done|done|lia|by rewrite Nat2Z.id].
  - apply lookup_ge_None in Hr. by rewrite lookup_seq_ge by done.
Qed.

(** A write-ahead log that is the concatenation of keys of [HASH_SIZE]
    bytes is recovered into a memtable that holds exactly these keys;
    recovery leaves the files as they were. *)
Theorem recovery_of_whole_records (c : Constants) (p : Z) (fs : FS)
    (recs : list bytes) :
  0 < c.(HASH_SIZE) →
  wal fs !! p = Some (concat recs) →
  Forall (λ r, Bytes.len r = c.(HASH_SIZE)) recs →
  ∃ mt ys,
    build_memtable_from_WAL c p fs = Ok mt fs ∧
    iter mt = Ok (Some <$> ys) mt ∧
    StronglySorted Bytes.lt ys ∧ (∀ y, y ∈ ys ↔ y ∈ recs) ∧
    len mt = Ok (Z.of_nat (length (remove_dups recs))) mt ∧
    (∀ k, get k mt = Ok (if decide (k ∈ recs) then Some k else None) mt).
Proof.
  intros Hh Hwal Hlen.
  destruct (build_memtable_from_WAL_spec c p fs Hh) as (mt & t & Hrun & Hinv & Hk).
  rewrite Hwal in Hrun, Hk. simpl in Hrun, Hk.
  rewrite wal_records_concat in Hk by done.
  rewrite insert_id in Hrun by done.
  pose proof (keys_of_inserts recs mt t Hinv Hk) as Hperm.
  destruct Hinv as (Hrep & Hbst & _ & Hel).
  exists mt, (keys t). split_and!; [by destruct fs|by apply iter_spec|done|done| |].
  - unfold len, get_elements. by rewrite Hel, Hperm.
  - intros k. rewrite (get_spec k mt t) by done. f_equal.
    destruct (decide (k ∈ keys t)) as [Hin|Hin].
    + by rewrite decide_True by (by apply Hk).
    + rewrite decide_False; [done|]. by rewrite <-Hk.
Qed.

(** The hypotheses of [recovery_of_whole_records] hold on a log of the
    three sample keys. *)
Lemma recovery_of_whole_records_witness :
  let fs := mkFS ∅ {[ 3 := concat samples.idx_keys ]} in
  ∃ mt ys,
    build_memtable_from_WAL spec_constants 3 fs = Ok mt fs ∧
    iter mt = Ok (Some <$> ys) mt ∧
    StronglySorted Bytes.lt ys ∧ (∀ y, y ∈ ys ↔ y ∈ samples.idx_keys) ∧
    len mt = Ok (Z.of_nat (length (remove_dups samples.idx_keys))) mt ∧
    (∀ k, get k mt = Ok (if decide (k ∈ samples.idx_keys) then Some k else None) mt).
Proof.
  intros fs.
  apply (recovery_of_whole_records spec_constants 3 fs samples.idx_keys).
  - reflexivity.
  - vm_compute. reflexivity.
  - repeat constructor.
Defined.

(** ** [lifespan] *)

Lemma build_memtables_spec c nums : ∀ fs,
  0 < c.(HASH_SIZE) →
  ∃ ms fs',
    build_memtables c nums fs = Ok ms fs' ∧
    db fs' = db fs ∧
    (∀ j, default [] (wal fs' !! j) = default [] (wal fs !! j)) ∧
    Forall2 (λ i mt, ∃ t, inv mt t ∧
               ∀ y, y ∈ keys t ↔ y ∈ wal_records c (default [] (wal fs !! i)))
            nums ms.
Proof.
  induction nums as [|i nums IH]; intros fs Hh.
  - exists [], fs. split_and!; [done|done|done|constructor].
  - destruct (build_memtable_from_WAL_spec c i fs Hh) as (mt & t & Hrun & Hinv & Hk).
    set (fs1 := mkFS (db fs) (<[i := default [] (wal fs !! i)]> (wal fs))) in *.
    assert (∀ j, default [] (wal fs1 !! j) = default [] (wal fs !! j)) as Hsame.
    { intros j. unfold fs1. simpl. destruct (decide (i = j)) as [->|].
      - by rewrite lookup_insert_eq.
      - by rewrite lookup_insert_ne. }
    destruct (IH fs1 Hh) as (ms & fs' & Hrun' & Hdb & Hwal & Hall).
    exists (mt :: ms), fs'. split_and!.
    + cbn [build_memtables]. unfold mbind, M_bind, bind. by rewrite Hrun, Hrun'.
    + by rewrite Hdb.
    + intros j. by rewrite Hwal, Hsame.
    + constructor; [by exists t|].
      eapply Forall2_impl; [exact Hall|]. intros j mt' (t' & Hinv' & Hk').
      exists t'. split; [done|]. intros y. by rewrite Hk', Hsame.
Qed.

Lemma lookup_range1 (n : Z) (j : nat) :
  (j < Z.to_nat n)%nat → range1 n !! j = Some (Z.of_nat j + 1).
Proof.
  intros Hj. unfold range1. rewrite list_lookup_fmap, lookup_seq_lt by done.
  done.
Qed.

(** The state a server starts with: the day given, the files in place
    with the directories of the index untouched, one reader and one
    memtable per partition; the reader at position [j] of the list reads
    the directory numbered [j + 1], and the memtable at position [j]
    holds the slices of the write-ahead log numbered [j + 1]. *)
Theorem lifespan_recovers (c : Constants) (today : string) (fs : FS) :
  0 < c.(HASH_SIZE) →
  ∃ st fs',
    lifespan c today fs = Ok st fs' ∧
    server_main.fs st = fs' ∧ date st = today ∧ db fs' = db fs ∧
    length (idx_readers st) = Z.to_nat c.(PARTITIONS) ∧
    length (memtables st) = Z.to_nat c.(PARTITIONS) ∧
    ∀ j : nat, (j < Z.to_nat c.(PARTITIONS))%nat →
      idx_readers st !! j = Some (mkIndexReader (Z.of_nat j + 1)) ∧
      ∃ mt ys,
        memtables st !! j = Some mt ∧
        iter mt = Ok (Some <$> ys) mt ∧
        StronglySorted Bytes.lt ys ∧
        ∀ y, y ∈ ys ↔
             y ∈ wal_records c (default [] (wal fs !! (Z.of_nat j + 1))).
Proof.
  intros Hh.
  destruct (build_memtables_spec c (range1 (PARTITIONS c)) fs Hh)
    as (ms & fs' & Hrun & Hdb & Hwal & Hall).
  assert (length (range1 (PARTITIONS c)) = Z.to_nat (PARTITIONS c)) as Hlen.
  { unfold range1. by rewrite length_fmap, length_seq. }
  eexists _, fs'. split_and!.
  - unfold lifespan, mbind, M_bind, bind. rewrite Hrun. reflexivity.
  - done.
  - done.
  - done.
  - simpl. by rewrite length_fmap.
  - simpl. by rewrite <-(Forall2_length _ _ _ Hall).
  - intros j Hj. simpl. split.
    + by rewrite list_lookup_fmap, lookup_range1.
    + destruct (Forall2_lookup_l _ _ _ j (Z.of_nat j + 1) Hall)
        as (mt & Hmt & t & (Hrep & Hbst & _) & Hk); [by apply lookup_range1|].
      exists mt, (keys t). split_and!; [done|by apply iter_spec|done|done].
Qed.

(** The hypothesis of [lifespan_recovers] holds for keys of 32 bytes. *)
Lemma lifespan_recovers_witness :
  ∃ st fs',
    lifespan small_constants samples.day samples.last_fs = Ok st fs' ∧
    server_main.fs st = fs' ∧ date st = samples.day ∧
    db fs' = db samples.last_fs ∧
    length (idx_readers st) = Z.to_nat small_constants.(PARTITIONS) ∧
    length (memtables st) = Z.to_nat small_constants.(PARTITIONS) ∧
    ∀ j : nat, (j < Z.to_nat small_constants.(PARTITIONS))%nat →
      idx_readers st !! j = Some (mkIndexReader (Z.of_nat j + 1)) ∧
      ∃ mt ys,
        memtables st !! j = Some mt ∧
        iter mt = Ok (Some <$> ys) mt ∧
        StronglySorted Bytes.lt ys ∧
        ∀ y, y ∈ ys ↔
             y ∈ wal_records small_constants
                   (default [] (wal samples.last_fs !! (Z.of_nat j + 1))).
Proof.
  apply (lifespan_recovers small_constants samples.day samples.last_fs).
  reflexivity.
Defined.

(** ** A restart after a submission *)

Lemma lifespan_spec c today fs :
  0 < c.(HASH_SIZE) →
  ∃ st,
    lifespan c today fs = Ok st (server_main.fs st) ∧
    date st = today ∧ db (server_main.fs st) = db fs ∧
    (∀ j, default [] (wal (server_main.fs st) !! j) = default [] (wal fs !! j)) ∧
    ∀ j : nat, (j < Z.to_nat c.(PARTITIONS))%nat →
      idx_readers st !! j = Some (mkIndexReader (Z.of_nat j + 1)) ∧
      ∃ mt t,
        memtables st !! j = Some mt ∧ inv mt t ∧
        ∀ y, y ∈ keys t ↔
             y ∈ wal_records c (default [] (wal fs !! (Z.of_nat j + 1))).
Proof.
  intros Hh.
  destruct (build_memtables_spec c (range1 (PARTITIONS c)) fs Hh)
    as (ms & fs' & Hrun & Hdb & Hwal & Hall).
  eexists (mkServerState _ _ _ _). split_and!.
  - unfold lifespan, mbind, M_bind, bind. rewrite Hrun. reflexivity.
  - done.
  - done.
  - done.
  - intros j Hj. simpl. split.
    + by rewrite list_lookup_fmap, lookup_range1.
    + destruct (Forall2_lookup_l _ _ _ j (Z.of_nat j + 1) Hall)
        as (mt & Hmt & t & Hinv & Hk); [by apply lookup_range1|].
      by exists mt, t.
Qed.

Lemma length_keys_le_records (ks : list bytes) t :
  bst t → (∀ y, y ∈ keys t ↔ y ∈ ks) → (length (keys t) ≤ length ks)%nat.
Proof.
  intros Hbst Hk. apply submseteq_length, NoDup_submseteq.
  - by apply sorted_NoDup.
  - intros y. by rewrite Hk.
Qed.

(** The submission of a new key that does not fill the memtable, on a
    server that has just started. *)
Lemma submit_after_start c today fs k b0 :
  0 < c.(HASH_SIZE) →
  Bytes.first k = Some b0 →
  0 ≤ c.(PARTITION_NUM) b0 < c.(PARTITIONS) →
  (∀ data i, data ∈ default [] (db fs !! (c.(PARTITION_NUM) b0 + 1)) →
     Bytes.slice data (i * c.(HASH_SIZE)) (i * c.(HASH_SIZE) + c.(HASH_SIZE)) ≠ k) →
  k ∉ wal_records c (default [] (wal fs !! (c.(PARTITION_NUM) b0 + 1))) →
  Z.of_nat (length (wal_records c
      (default [] (wal fs !! (c.(PARTITION_NUM) b0 + 1))))) + 1
    < c.(HASHES_PER_IDX) →
  ∃ st st',
    lifespan c today fs = Ok st (server_main.fs st) ∧ date st = today ∧
    submit_malicious_url c today k st = Ok None st' ∧
    db (server_main.fs st') = db fs ∧
    ∀ j, j ≠ c.(PARTITION_NUM) b0 →
      default [] (wal (server_main.fs st') !! j) = default [] (wal fs !! j).
Proof.
  intros Hh Hb Hp Habs Hk Hn. set (p := PARTITION_NUM c b0) in *.
  destruct (lifespan_spec c today fs Hh) as (st & Hrun & Hdate & Hdb & Hwal & Hall).
  destruct (Hall (Z.to_nat p)) as (Hreader & mt & t & Hmt & Hinv & Hkeys); [lia|].
  rewrite Z2Nat.id in Hreader, Hkeys by lia.
  destruct (submit_new c st k b0 (mkIndexReader (p + 1)) mt t)
    as (mt' & t' & _ & _ & _ & Hlen & Hsub); try done; try (fold p; lia).
  { apply contains_hash_absent. intros data i Hin. apply Habs.
    unfold files in Hin. simpl in Hin. by rewrite Hdb in Hin. }
  { by rewrite Hkeys. }
  simpl in Hsub. fold p in Hsub. rewrite Hdate in Hsub.
  pose proof (length_keys_le_records _ t (proj1 (proj2 Hinv)) Hkeys) as Hle.
  rewrite Z.geb_leb, (proj2 (Z.leb_gt _ _)) in Hsub by lia.
  eexists st, _. split_and!; [done|done|exact Hsub|done|].
  intros j Hj. simpl. rewrite lookup_insert_ne by done. apply Hwal.
Qed.

(** A key that a started server accepts without filling the memtable is
    appended to the write-ahead log numbered by its partition [p], while
    the memtable of the partition is recovered from the log numbered
    [p + 1]: when the server is started again on the files it has left,
    the key is not in its memtable, and it is accepted a second time.
    The server starts on the day [today] and again on the day [today'],
    the same or another, and each submission is made on the day of the
    start before it, so that it passes the date check of the handler. *)
Theorem restart_forgets_accepted_key (c : Constants) (today today' : string)
    (fs : FS) (k : bytes) (b0 : Z) :
  0 < c.(HASH_SIZE) →
  Bytes.first k = Some b0 →
  0 ≤ c.(PARTITION_NUM) b0 < c.(PARTITIONS) →
  (∀ data i, data ∈ default [] (db fs !! (c.(PARTITION_NUM) b0 + 1)) →
     Bytes.slice data (i * c.(HASH_SIZE)) (i * c.(HASH_SIZE) + c.(HASH_SIZE)) ≠ k) →
  k ∉ wal_records c (default [] (wal fs !! (c.(PARTITION_NUM) b0 + 1))) →
  Z.of_nat (length (wal_records c
      (default [] (wal fs !! (c.(PARTITION_NUM) b0 + 1))))) + 1
    < c.(HASHES_PER_IDX) →
  ∃ st st1 st2 st3,
    lifespan c today fs = Ok st (server_main.fs st) ∧ date st = today ∧
    submit_malicious_url c today k st = Ok None st1 ∧
    lifespan c today' (server_main.fs st1) = Ok st2 (server_main.fs st2) ∧
    date st2 = today' ∧
    submit_malicious_url c today' k st2 = Ok None st3 ∧
    http_status (submit_malicious_url c today' k st2) = Some 200.
Proof.
  intros Hh Hb Hp Habs Hk Hn.
  destruct (submit_after_start c today fs k b0)
    as (st & st1 & Hrun & Hdate & Hsub & Hdb & Hwal); [done..|].
  destruct (submit_after_start c today' (server_main.fs st1) k b0)
    as (st2 & st3 & Hrun2 & Hdate2 & Hsub2 & _); [done|done|done|..].
  - by rewrite Hdb.
  - rewrite Hwal by lia. exact Hk.
  - rewrite Hwal by lia. exact Hn.
  - exists st, st1, st2, st3. split_and!; [done..|]. by rewrite Hsub2.
Qed.

(** The hypotheses of [restart_forgets_accepted_key] hold on a server
    with empty files, for a key of partition 2, with a restart on the
    next day. *)
Lemma restart_forgets_accepted_key_witness :
  ∃ st st1 st2 st3,
    lifespan small_constants samples.day samples.empty_fs
      = Ok st (server_main.fs st) ∧ date st = samples.day ∧
    submit_malicious_url small_constants samples.day (samples.h32 Byte.x81) st
      = Ok None st1 ∧
    lifespan small_constants samples.next_day (server_main.fs st1)
      = Ok st2 (server_main.fs st2) ∧
    date st2 = samples.next_day ∧
    submit_malicious_url small_constants samples.next_day (samples.h32 Byte.x81) st2
      = Ok None st3 ∧
    http_status
      (submit_malicious_url small_constants samples.next_day
         (samples.h32 Byte.x81) st2)
      = Some 200.
Proof.
  apply (restart_forgets_accepted_key small_constants samples.day samples.next_day
           samples.empty_fs (samples.h32 Byte.x81) 129).
  - reflexivity.
  - reflexivity.
  - vm_compute. split; [discriminate|reflexivity].
  - intros data i Hin. vm_compute in Hin. by apply elem_of_nil in Hin.
  - vm_compute. by intros ?%elem_of_nil.
  - vm_compute. reflexivity.
Defined.

(** * [fetch_hashes] *)

Import constants memtable shape idx_reader idx_builder server_main.

(** ** The keys between [prefix 00 .. 00] and [prefix ff .. ff] *)

Lemma to_N_lt_256 (b : byte) : (Byte.to_N b < 256)%N.
Proof. by destruct b. Qed.

Lemma ltb_zeros (k : bytes) : ∀ n,
  length k = n → k <?b replicate n Byte.x00 = false.
Proof.
  induction k as [|b k IH]; intros n Hn; destruct n as [|n]; try done.
  cbn [Bytes.ltb replicate]. change (Byte.to_N Byte.x00) with 0%N.
  rewrite (proj2 (N.ltb_ge _ _)) by lia.
  destruct (Byte.to_N b =? 0)%N; [|done]. apply IH. simpl in Hn. lia.
Qed.

Lemma ltb_ones (k : bytes) : ∀ n,
  length k = n → replicate n Byte.xff <?b k = false.
Proof.
  induction k as [|b k IH]; intros n Hn; destruct n as [|n]; try done.
  cbn [Bytes.ltb replicate]. pose proof (to_N_lt_256 b).
  change (Byte.to_N Byte.xff) with 255%N.
  rewrite (proj2 (N.ltb_ge 255 _)) by lia.
  destruct (255 =? Byte.to_N b)%N; [|done]. apply IH. simpl in Hn. lia.
Qed.

(** A key of the length of the bounds is within them exactly when it
    starts with the prefix. *)
Lemma in_range_prefix (p k : bytes) (n : nat) :
  length k = (length p + n)%nat →
  in_range (p ++ replicate n Byte.x00) (p ++ replicate n Byte.xff) k
    = bool_decide (take (length p) k = p).
Proof.
  revert k. induction p as [|b p IH]; intros k Hk.
  - simpl. unfold in_range, Bytes.leb. rewrite ltb_zeros, ltb_ones by done.
    done.
  - destruct k as [|c k]; [simpl in Hk; lia|]. simpl in Hk.
    specialize (IH k ltac:(lia)). unfold in_range, Bytes.leb in *.
    cbn [app Bytes.ltb length take].
    destruct (Byte.to_N c <? Byte.to_N b)%N eqn:H1.
    { simpl. rewrite bool_decide_false; [done|]. intros [= -> _].
      apply N.ltb_lt in H1. lia. }
    destruct (Byte.to_N b <? Byte.to_N c)%N eqn:H2.
    { rewrite andb_false_r. rewrite bool_decide_false; [done|]. intros [= -> _].
      apply N.ltb_lt in H2. lia. }
    assert (c = b) as ->.
    { apply to_N_inj. apply N.ltb_ge in H1, H2. lia. }
    rewrite N.eqb_refl, IH. apply bool_decide_ext. split; [by intros ->|].
    by intros [= ->].
Qed.

Lemma filter_ext_in {A} (P Q : A → Prop) `{∀ x, Decision (P x)}
    `{∀ x, Decision (Q x)} (l : list A) :
  (∀ x, x ∈ l → P x ↔ Q x) → filter P l = filter Q l.
Proof.
  induction l as [|x l IH]; intros Hext; [done|].
  rewrite !filter_cons. rewrite IH by (intros y Hy; apply Hext; by right).
  destruct (decide (P x)) as [HP|HP], (decide (Q x)) as [HQ|HQ]; try done.
  - destruct HQ. apply Hext; [by left|done].
  - destruct HP. apply Hext; [by left|done].
Qed.

Lemma fetch_hashes_run (c : Constants) (prefix_size : Z)
    (st : ServerState) (bytes_prefix : bytes) (b0 : Z) (reader : IndexReader)
    (mt : MemTable) (t : tree) :
  Bytes.first bytes_prefix = Some b0 → 0 ≤ c.(PARTITION_NUM) b0 →
  idx_readers st !! Z.to_nat (c.(PARTITION_NUM) b0) = Some reader →
  memtables st !! Z.to_nat (c.(PARTITION_NUM) b0) = Some mt →
  inv mt t →
  Bytes.len bytes_prefix = prefix_size → prefix_size ≤ c.(HASH_SIZE) →
  Forall (λ k, Bytes.len k = c.(HASH_SIZE)) (keys t) →
  ∃ found,
    idx_reader.range_lookup c (fs st) reader
      (bytes_prefix ++ replicate (Z.to_nat (c.(HASH_SIZE) - prefix_size)) Byte.x00)
      (bytes_prefix ++ replicate (Z.to_nat (c.(HASH_SIZE) - prefix_size)) Byte.xff)
      = Some found ∧
    fetch_hashes c prefix_size (date st) bytes_prefix st =
      Ok (Some (mkResponse
                  (Binary (concat (filter (λ k, take (length bytes_prefix) k
                                                = bytes_prefix) (keys t))
                           ++ found)) 200)) st.
Proof.
  intros Hb Hp Hr Hm (Hrep & Hbst & _) Hlen Hle Hkeys.
  set (n := Z.to_nat (HASH_SIZE c - prefix_size)).
  set (lo := bytes_prefix ++ replicate n Byte.x00).
  set (hi := bytes_prefix ++ replicate n Byte.xff).
  destruct (range_lookup_total c (fs st) reader lo hi) as [found Hfound].
  exists found. split; [done|]. unfold fetch_hashes. fold n lo hi.
  rewrite (bind_Ok _ _ st tt st) by apply check_date_same.
  rewrite Hb. rewrite (bind_Ok _ _ st b0 st) by done.
  rewrite (bind_Ok _ _ st
    (concat (filter (λ k, in_range lo hi k) (keys t))) st).
  2:{ apply (with_memtable_read st _ mt); [done..|]. by apply range_lookup_spec. }
  rewrite (bind_Ok _ _ st reader st) by (by apply reader_at_Ok).
  rewrite (bind_Ok _ _ st found st) by (unfold read_fs; by rewrite Hfound).
  do 6 f_equal. apply filter_ext_in. intros k Hk.
  rewrite Forall_forall in Hkeys. specialize (Hkeys k Hk).
  unfold lo, hi. rewrite (in_range_prefix bytes_prefix k n).
  - by rewrite bool_decide_spec.
  - unfold Bytes.len in *. lia.
Qed.

(** On a request of the day that the server has stored (the day of the
    activity log in use), [fetch_hashes] answers 200 with the keys of
    the memtable of the partition that start with the prefix, in
    increasing order, followed by what the range lookup of the reader of
    the partition returns; the server is left as it was.  The prefix
    has [PREFIX_SIZE] bytes, and the keys of the memtable [HASH_SIZE]
    bytes. *)
Theorem fetch_hashes_memtable_keys (c : Constants) (prefix_size : Z)
    (st : ServerState) (today : string) (bytes_prefix : bytes) (b0 : Z)
    (reader : IndexReader) (mt : MemTable) (t : tree) :
  today = date st →
  Bytes.first bytes_prefix = Some b0 → 0 ≤ c.(PARTITION_NUM) b0 →
  idx_readers st !! Z.to_nat (c.(PARTITION_NUM) b0) = Some reader →
  memtables st !! Z.to_nat (c.(PARTITION_NUM) b0) = Some mt →
  inv mt t →
  Bytes.len bytes_prefix = prefix_size → prefix_size ≤ c.(HASH_SIZE) →
  Forall (λ k, Bytes.len k = c.(HASH_SIZE)) (keys t) →
  ∃ found,
    idx_reader.range_lookup c (fs st) reader
      (bytes_prefix ++ replicate (Z.to_nat (c.(HASH_SIZE) - prefix_size)) Byte.x00)
      (bytes_prefix ++ replicate (Z.to_nat (c.(HASH_SIZE) - prefix_size)) Byte.xff)
      = Some found ∧
    fetch_hashes c prefix_size today bytes_prefix st =
      Ok (Some (mkResponse
                  (Binary (concat (filter (λ k, take (length bytes_prefix) k
                                                = bytes_prefix) (keys t))
                           ++ found)) 200)) st.
Proof. intros ->. apply fetch_hashes_run. Qed.

(** The hypotheses of [fetch_hashes_memtable_keys] hold on the server
    that has accepted two keys of partition 2, for the prefix of the
    first, on the day of the submissions. *)
Lemma fetch_hashes_memtable_keys_witness :
  let st := samples.served [samples.h32 Byte.x81; samples.h32 Byte.x82] in
  let bytes_prefix := [Byte.x81; Byte.x00; Byte.x00; Byte.x00] in
  ∃ t found,
    inv (samples.memtable_of [samples.h32 Byte.x81; samples.h32 Byte.x82]) t ∧
    idx_reader.range_lookup small_constants (fs st) (mkIndexReader 3)
      (bytes_prefix ++ replicate (Z.to_nat (small_constants.(HASH_SIZE) - 4)) Byte.x00)
      (bytes_prefix ++ replicate (Z.to_nat (small_constants.(HASH_SIZE) - 4)) Byte.xff)
      = Some found ∧
    fetch_hashes small_constants 4 samples.day bytes_prefix st =
      Ok (Some (mkResponse
                  (Binary (concat (filter (λ k, take (length bytes_prefix) k
                                                = bytes_prefix) (keys t))
                           ++ found)) 200)) st.
Proof.
  intros st bytes_prefix.
  destruct (inv_memtable_of [samples.h32 Byte.x81; samples.h32 Byte.x82])
    as (t & Hinv & Hk).
  destruct (fetch_hashes_memtable_keys small_constants 4 st samples.day
              bytes_prefix 129 (mkIndexReader 3)
              (samples.memtable_of [samples.h32 Byte.x81; samples.h32 Byte.x82]) t)
    as (found & H1 & H2).
  - vm_compute. reflexivity.
  - reflexivity.
  - vm_compute. discriminate.
  - vm_compute. reflexivity.
  - vm_compute. reflexivity.
  - exact Hinv.
  - reflexivity.
  - vm_compute. discriminate.
  - apply Forall_forall. intros k Hin%Hk.
    repeat (apply elem_of_cons in Hin as [->|Hin]; [reflexivity|]).
    by apply elem_of_nil in Hin.
  - exists t, found. split; [exact Hinv|]. split; [exact H1|exact H2].
Defined.

(** ** The first request of a day *)

(** When the day has changed since the last request, each handler stores
    the new day and raises [TypeError] before it reads or writes
    anything else: the request is answered with 500, and the same
    request sent again finds the day up to date. *)
Theorem first_request_of_a_day_fails (c : Constants) (prefix_size : Z)
    (st : ServerState) (today : string) (k bytes_prefix : bytes)
    (partition : Z) :
  today ≠ date st →
  let st' := mkServerState (idx_readers st) (memtables st) today (fs st) in
  submit_malicious_url c today k st = Raise TypeError st' ∧
  fetch_hashes c prefix_size today bytes_prefix st = Raise TypeError st' ∧
  get_memtable_hash_prefixes today partition st = Raise TypeError st' ∧
  get_idx_hash_prefixes c today partition st = Raise TypeError st' ∧
  http_status (submit_malicious_url c today k st) = Some 500 ∧
  check_date today st' = Ok tt st'.
Proof.
  intros Hne st'.
  assert (check_date today st = Raise TypeError st') as Hc.
  { unfold check_date. destruct (String.eqb today (date st)) eqn:E; [|done].
    by apply String.eqb_eq in E. }
  assert (∀ A (m : Ms A), (check_date today ≫= λ _, m) st = Raise TypeError st') as Hb.
  { intros A m. unfold mbind, M_bind, bind. by rewrite Hc. }
  unfold submit_malicious_url, fetch_hashes, get_memtable_hash_prefixes,
    get_idx_hash_prefixes. rewrite !Hb. split_and!; try done.
  apply (check_date_same st').
Qed.

(** The hypothesis of [first_request_of_a_day_fails] holds on the sample
    server the day after it started. *)
Lemma first_request_of_a_day_fails_witness :
  let st := samples.last_state in
  let today := "2024-01-02"%string in
  let st' := mkServerState (idx_readers st) (memtables st) today (fs st) in
  submit_malicious_url small_constants today (samples.h32 Byte.x81) st
    = Raise TypeError st' ∧
  fetch_hashes small_constants 4 today samples.p1 st = Raise TypeError st' ∧
  get_memtable_hash_prefixes today 1 st = Raise TypeError st' ∧
  get_idx_hash_prefixes small_constants today 1 st = Raise TypeError st' ∧
  http_status (submit_malicious_url small_constants today (samples.h32 Byte.x81) st)
    = Some 500 ∧
  check_date today st' = Ok tt st'.
Proof.
  intros st today.
  apply (first_request_of_a_day_fails small_constants 4 st today
           (samples.h32 Byte.x81) samples.p1 1).
  vm_compute. discriminate.
Defined.

(** * More on the Bloom filter *)

Import bloomfilter.

Section bloom_bits.
Variable mmh3_hash : bytes → Z → Z.

(** The positions the loop of [add] sets from seed [i] on. *)
Let digs (self : BloomFilter) (k : bytes) (i : Z) (n : nat) : list nat :=
  (λ seed, Z.to_nat (Z.land (mmh3_hash k seed) 0xFFFFFFFF
                     `mod` Z.of_nat (length (bit_array self))))
    <$> seqZ i (Z.of_nat n).

Lemma add_loop_bits k n : ∀ i self,
  bit_array self ≠ [] →
  ∃ self', add_loop mmh3_hash k i n self = Ok tt self' ∧
    hash_count self' = hash_count self ∧
    length (bit_array self') = length (bit_array self) ∧
    ∀ j b, bit_array self !! j = Some b →
      bit_array self' !! j = Some (b || bool_decide (j ∈ digs self k i n)).
Proof.
  induction n as [|n IH]; intros i self Hne.
  - exists self. split_and!; [done..|]. intros j b Hj. rewrite Hj.
    change (digs self k i 0) with (@nil nat).
    rewrite bool_decide_false by (by intros ?%elem_of_nil).
    by rewrite orb_false_r.
  - assert (length (bit_array self) ≠ O) as Hlen by (by destruct (bit_array self)).
    set (d := Z.land (mmh3_hash k i) 0xFFFFFFFF `mod` Z.of_nat (length (bit_array self))).
    assert (0 ≤ d < Z.of_nat (length (bit_array self))) as Hd
      by (apply Z.mod_pos_bound; lia).
    set (self1 := mkBloomFilter (hash_count self)
                    (<[Z.to_nat d := true]> (bit_array self))).
    assert (length (bit_array self1) = length (bit_array self)) as Hl1
      by (simpl; by rewrite length_insert).
    destruct (IH (i + 1) self1) as (self' & Hrun & Hh & Hl & Hbits).
    { intros Hnil. apply (f_equal length) in Hnil. rewrite Hl1 in Hnil. simpl in Hnil. lia. }
    exists self'. split_and!.
    + cbn [add_loop]. unfold mbind at 1, M_bind at 1, bind at 1.
      unfold get_digest. rewrite (proj2 (Z.eqb_neq _ _)) by lia.
      unfold mbind at 1, M_bind at 1, bind at 1. unfold set_bit. fold d.
      rewrite (proj2 (Z.leb_le _ _)), (proj2 (Z.ltb_lt _ _)) by lia.
      exact Hrun.
    + by rewrite Hh.
    + by rewrite Hl, Hl1.
    + intros j b Hj.
      assert (digs self k i (S n) = Z.to_nat d :: digs self1 k (i + 1) n) as ->.
      { unfold digs. rewrite Hl1. rewrite Nat2Z.inj_succ, seqZ_cons by lia.
        simpl. do 3 f_equal; lia. }
      destruct (decide (Z.to_nat d = j)) as [<-|Hdj].
      * rewrite (Hbits _ true) by (simpl; apply list_lookup_insert_eq; lia).
        cbn [orb]. rewrite bool_decide_true by (by left). by rewrite orb_true_r.
      * rewrite (Hbits j b) by (simpl; by rewrite list_lookup_insert_ne).
        do 2 f_equal. apply bool_decide_ext. rewrite elem_of_cons. naive_solver.
Qed.

Lemma add_bits k self :
  bit_array self ≠ [] →
  ∃ self', add mmh3_hash k self = Ok tt self' ∧
    hash_count self' = hash_count self ∧
    length (bit_array self') = length (bit_array self) ∧
    ∀ j b, bit_array self !! j = Some b →
      bit_array self' !! j = Some (b || bool_decide (j ∈ digests mmh3_hash self k)).
Proof.
  intros Hne.
  destruct (add_loop_bits k (Z.to_nat (hash_count self)) 0 self Hne)
    as (self' & Hrun & Hh & Hl & Hbits).
  exists self'. split_and!; [done..|]. intros j b Hj. rewrite (Hbits j b Hj).
  do 2 f_equal. apply bool_decide_ext. unfold digs, digests.
  destruct (decide (0 ≤ hash_count self)).
  - by rewrite Z2Nat.id by lia.
  - replace (Z.to_nat (hash_count self)) with O by lia.
    by rewrite !seqZ_nil by lia.
Qed.

Lemma digests_ext self self' k :
  hash_count self' = hash_count self →
  length (bit_array self') = length (bit_array self) →
  digests mmh3_hash self' k = digests mmh3_hash self k.
Proof. unfold digests. by intros -> ->. Qed.

Lemma check_digests k self :
  bit_array self ≠ [] →
  (∀ j, j ∈ digests mmh3_hash self k → bit_array self !! j = Some true) →
  check mmh3_hash k self = Ok true self.
Proof.
  intros Hne Hbits. unfold check, mbind, M_bind, bind.
  apply check_loop_spec; [done|]. intros j Hj. apply Hbits.
  unfold digests. apply list_elem_of_fmap. exists (0 + j). split; [done|].
  apply elem_of_seqZ. lia.
Qed.

(** [add] sets the bits at the digests of the key and no other bit; it
    keeps the number of hashes and the size of the bit array, and
    [check] of the key then returns true. *)
Theorem add_sets_exactly_its_digests (k : bytes) (self : BloomFilter) :
  bit_array self ≠ [] →
  ∃ self', add mmh3_hash k self = Ok tt self' ∧
    hash_count self' = hash_count self ∧
    length (bit_array self') = length (bit_array self) ∧
    (∀ j b, bit_array self !! j = Some b →
       bit_array self' !! j
         = Some (b || bool_decide (j ∈ digests mmh3_hash self k))) ∧
    check mmh3_hash k self' = Ok true self'.
Proof.
  intros Hne. destruct (add_bits k self Hne) as (self' & Hrun & Hh & Hl & Hbits).
  exists self'. split_and!; [done..|].
  apply check_digests.
  - intros Hnil. apply (f_equal length) in Hnil. rewrite Hl in Hnil.
    by destruct (bit_array self).
  - intros j Hj. rewrite (digests_ext self self') in Hj by done.
    assert (j < length (bit_array self))%nat as Hlt.
    { unfold digests in Hj. apply list_elem_of_fmap in Hj as (seed & -> & _).
      assert (length (bit_array self) ≠ O) by (by destruct (bit_array self)).
      pose proof (Z.mod_pos_bound (Z.land (mmh3_hash k seed) 0xFFFFFFFF)
                    (Z.of_nat (length (bit_array self)))). lia. }
    destruct (lookup_lt_is_Some_2 _ _ Hlt) as [b Hb].
    rewrite (Hbits j b Hb). by rewrite bool_decide_true, orb_true_r.
Qed.

Lemma add_all_bits ks : ∀ self,
  bit_array self ≠ [] →
  ∃ self', add_all mmh3_hash ks self = Ok tt self' ∧
    hash_count self' = hash_count self ∧
    length (bit_array self') = length (bit_array self) ∧
    ∀ j b, bit_array self !! j = Some b →
      bit_array self' !! j
        = Some (b || bool_decide (Exists (λ k, j ∈ digests mmh3_hash self k) ks)).
Proof.
  induction ks as [|k ks IH]; intros self Hne.
  - exists self. split_and!; [done..|]. intros j b ->.
    rewrite bool_decide_false by (by intros ?%Exists_nil).
    by rewrite orb_false_r.
  - destruct (add_bits k self Hne) as (self1 & Hrun1 & Hh1 & Hl1 & Hb1).
    destruct (IH self1) as (self' & Hrun & Hh & Hl & Hb).
    { intros Hnil. apply (f_equal length) in Hnil. rewrite Hl1 in Hnil.
      by destruct (bit_array self). }
    exists self'. split_and!.
    + cbn [add_all]. unfold mbind, M_bind, bind. by rewrite Hrun1.
    + by rewrite Hh.
    + by rewrite Hl.
    + intros j b Hj. rewrite (Hb j _ (Hb1 j b Hj)). f_equal.
      rewrite <-orb_assoc. f_equal.
      destruct (decide (j ∈ digests mmh3_hash self k)) as [Hin|Hin].
      * rewrite (bool_decide_true (j ∈ _)) by done. cbn [orb].
        symmetry. apply bool_decide_eq_true. by left.
      * rewrite (bool_decide_false (j ∈ _)) by done. cbn [orb].
        apply bool_decide_ext. rewrite Exists_cons.
        split; [intros H; right|intros [?|H]; [done|]];
          (eapply Exists_impl; [exact H|]); intros k' Hk'.
        -- by rewrite <-(digests_ext self self1).
        -- by rewrite (digests_ext self self1).
Qed.

(** The filter that a sequence of [add] calls builds depends only on the
    set of the keys added: neither their order nor their repetition
    matters. *)
Theorem add_all_depends_on_key_set (ks ks' : list bytes) (self : BloomFilter) :
  bit_array self ≠ [] →
  (∀ k, k ∈ ks ↔ k ∈ ks') →
  ∃ self', add_all mmh3_hash ks self = Ok tt self' ∧
           add_all mmh3_hash ks' self = Ok tt self'.
Proof.
  intros Hne Hset.
  destruct (add_all_bits ks self Hne) as (s1 & Hrun1 & Hh1 & Hl1 & Hb1).
  destruct (add_all_bits ks' self Hne) as (s2 & Hrun2 & Hh2 & Hl2 & Hb2).
  exists s1. split; [done|]. rewrite Hrun2. f_equal.
  destruct s1 as [h1 l1], s2 as [h2 l2]. simpl in *. f_equal; [congruence|].
  apply list_eq. intros j. destruct (bit_array self !! j) as [b|] eqn:Hj.
  - rewrite (Hb1 j b Hj), (Hb2 j b Hj). do 2 f_equal. apply bool_decide_ext.
    rewrite !Exists_exists. naive_solver.
  - apply lookup_ge_None in Hj.
    rewrite (proj2 (lookup_ge_None l1 j)), (proj2 (lookup_ge_None l2 j)) by lia.
    done.
Qed.

(** A filter whose bits are all clear contains no key. *)
Theorem check_on_clear_filter (k : bytes) (h : Z) (m : nat) :
  1 ≤ h → m ≠ O →
  check mmh3_hash k (mkBloomFilter h (replicate m false))
    = Ok false (mkBloomFilter h (replicate m false)).
Proof.
  intros Hh Hm. unfold check, mbind, M_bind, bind. simpl.
  destruct (Z.to_nat h) as [|n] eqn:E; [lia|]. cbn [check_loop].
  unfold mbind at 1, M_bind at 1, bind at 1. unfold get_digest. simpl.
  rewrite length_replicate. rewrite (proj2 (Z.eqb_neq _ _)) by lia.
  unfold mbind at 1, M_bind at 1, bind at 1. unfold get_bit. simpl.
  rewrite length_replicate.
  pose proof (Z.mod_pos_bound (Z.land (mmh3_hash k 0) 0xFFFFFFFF) (Z.of_nat m)) as Hd.
  rewrite (proj2 (Z.leb_le 0 _)), (proj2 (Z.ltb_lt _ _)) by lia. simpl.
  by rewrite lookup_replicate_2 by lia.
Qed.

End bloom_bits.

(** The hypothesis of [add_sets_exactly_its_digests] holds on a filter of
    16 bits and 3 hashes. *)
Lemma add_sets_exactly_its_digests_witness :
  let self := mkBloomFilter 3 (replicate 16 false) in
  ∃ self', add mmh3.hash samples.p1 self = Ok tt self' ∧
    hash_count self' = hash_count self ∧
    length (bit_array self') = length (bit_array self) ∧
    (∀ j b, bit_array self !! j = Some b →
       bit_array self' !! j
         = Some (b || bool_decide (j ∈ digests mmh3.hash self samples.p1))) ∧
    check mmh3.hash samples.p1 self' = Ok true self'.
Proof.
  intros self. apply (add_sets_exactly_its_digests mmh3.hash samples.p1 self).
  discriminate.
Defined.

(** The hypotheses of [add_all_depends_on_key_set] hold for two orders of
    the sample prefixes, one with a repetition. *)
Lemma add_all_depends_on_key_set_witness :
  let self := mkBloomFilter 3 (replicate 16 false) in
  ∃ self',
    add_all mmh3.hash [samples.p1; samples.p2; samples.p1] self = Ok tt self' ∧
    add_all mmh3.hash [samples.p2; samples.p1] self = Ok tt self'.
Proof.
  intros self.
  apply (add_all_depends_on_key_set mmh3.hash
           [samples.p1; samples.p2; samples.p1] [samples.p2; samples.p1] self).
  - discriminate.
  - intros k. rewrite !elem_of_cons, elem_of_nil. tauto.
Defined.

(** The hypotheses of [check_on_clear_filter] hold for 3 hashes and 16
    bits. *)
Lemma check_on_clear_filter_witness :
  check mmh3.hash samples.p1 (mkBloomFilter 3 (replicate 16 false))
    = Ok false (mkBloomFilter 3 (replicate 16 false)).
Proof.
  apply (check_on_clear_filter mmh3.hash samples.p1 3 16); [lia|discriminate].
Defined.

(** ** The constructor on an empty blacklist *)

(** [BloomFilter(0)] raises [ZeroDivisionError], whatever the rate and
    the logarithms are: the size is divided by the entry count. *)
Theorem init_zero_entries (math_log : float → float)
    (float_pow : float → float → float) (BF_FP_PROBABILITY : float) :
  init math_log float_pow BF_FP_PROBABILITY 0 = inl ZeroDivisionError.
Proof.
  unfold init, bitarray_size.
  change (float_of_int (0 + 24)) with (@inr exn float 24%float).
  change (float_of_int 0) with (@inr exn float 0%float).
  cbv iota beta. unfold float_div at 1.
  destruct (is_zero (float_pow (math_log 2%float) 2%float)); [done|].
  cbv iota. unfold float_div. change (is_zero 0) with true. done.
Qed.
